(** * Epic Crab Dash: the simulation core of [src/App.tsx]

    A shallow embedding of the game component: its state hooks, its refs,
    the [gameLoop] animation callback, the collision and loop effects, the
    key and touch handlers; and the properties of the engine proved on it.

    Numbers.  In the component, JavaScript numbers that carry
    coordinates, velocities and speeds are modelled by canonical rationals
    ([Qc]): arithmetic is exact and Leibniz equality is numeric equality,
    which is what a dependency list compares.  The code rounds every sum
    and product to binary64, so what is stated of the component is
    restricted to what rounding leaves true: bounds that a rounded result
    still meets, values that are binary64 numbers, counts of ticks.
    The collision detector, whose answer can turn on the last bit of a
    sum, is also given on binary64 numbers ([Binary64]), and its
    specification is proved there.  Numbers that only ever hold integers
    (score, frame counter, ids, millisecond timestamps) are modelled by
    [Z].

    React.  An event (an animation frame, a key, a touch, a timer) runs
    its callback with the values of the last render in its closure; the
    state updates made by the callback are batched, functional updates
    being applied to the queued value in the order they were made; the
    component then renders, the effects whose dependencies changed run
    (all cleanups, then all bodies, in the order of declaration), and it
    renders again if an effect queued an update.  All this happens before
    the next event. *)

From Stdlib Require Import ZArith QArith Qcanon Qround String List Bool Lia
  Lqa.
From Stdlib Require Floats.
Import ListNotations.

Set Implicit Arguments.

Local Open Scope string_scope.
Local Open Scope list_scope.
Local Open Scope Qc_scope.

(** ** Numbers *)

Module Num.

Definition ltb (a b : Qc) : bool :=
  match a ?= b with Lt => true | _ => false end.

Definition gtb (a b : Qc) : bool := ltb b a.

Definition geb (a b : Qc) : bool := negb (ltb a b).

Definition eqb (a b : Qc) : bool := Qc_eq_bool a b.

(** [Math.min] *)
Definition min (a b : Qc) : Qc := if ltb b a then b else a.

(** [Math.floor] *)
Definition floor (a : Qc) : Z := Qfloor a.

(** The remainder operator [a % b]: the result takes the sign of the
    dividend, the quotient is truncated towards zero. *)
Definition rem (a b : Qc) : Qc :=
  let q := (this a / this b)%Q in
  a - b * Q2Qc (inject_Z (Z.quot (Qnum q) (Zpos (Qden q)))).

End Num.

Infix "<?" := Num.ltb (at level 70, no associativity) : Qc_scope.
Infix ">?" := Num.gtb (at level 70, no associativity) : Qc_scope.
Infix ">=?" := Num.geb (at level 70, no associativity) : Qc_scope.

(** ** Data model (lines 3-32) *)

Inductive GameState := menu | playing | gameover.

Inductive ObstacleType := rock | wave | seagull | jellyfish.

Module Obstacle.
Record t := make {
  id : Z;
  x : Qc;
  y : Qc;
  type : ObstacleType;
  width : Qc;
  height : Qc
}.
End Obstacle.

Module Particle.
Record t := make {
  id : Z;
  x : Qc;
  y : Qc;
  vx : Qc;
  vy : Qc;
  life : Qc;
  color : string
}.
End Particle.

Definition GAME_WIDTH : Qc := Q2Qc 800.
Definition GAME_HEIGHT : Qc := Q2Qc 400.
Definition GROUND_Y : Qc := Q2Qc 320.
Definition CRAB_WIDTH : Qc := Q2Qc 50.
Definition CRAB_HEIGHT : Qc := Q2Qc 40.
Definition GRAVITY : Qc := Q2Qc 0.8.
Definition JUMP_FORCE : Qc := Q2Qc (-15).
Definition SLIDE_HEIGHT : Qc := Q2Qc 20.

(** ** Collision detection (lines 113-134)

    On the exact numbers of the component model; [Binary64] below has the
    same function on binary64 numbers. *)

(** [const crabX = 100] *)
Definition crabX : Qc := Q2Qc 100.

Definition crabH (sliding : bool) : Qc :=
  if sliding then SLIDE_HEIGHT else CRAB_HEIGHT.

Definition crabYOffset (crabYPos : Qc) (sliding : bool) : Qc :=
  if sliding then GROUND_Y - SLIDE_HEIGHT else crabYPos.

(** The condition of the [if] in the loop body. *)
Definition overlaps (crabYPos : Qc) (sliding : bool) (obs : Obstacle.t) : bool :=
  let obsRight := Obstacle.x obs + Obstacle.width obs in
  let obsBottom := Obstacle.y obs + Obstacle.height obs in
  let crabRight := crabX + CRAB_WIDTH in
  let crabBottom := crabYOffset crabYPos sliding + crabH sliding in
  (crabX <? obsRight) &&
  (crabRight >? Obstacle.x obs) &&
  (crabYOffset crabYPos sliding <? obsBottom) &&
  (crabBottom >? Obstacle.y obs).

(** [for (const obs of obstacles) { if (...) return true; } return false] *)
Fixpoint checkCollision (obstacles : list Obstacle.t)
         (crabYPos : Qc) (sliding : bool) : bool :=
  match obstacles with
  | [] => false
  | obs :: rest =>
      if overlaps crabYPos sliding obs then true
      else checkCollision rest crabYPos sliding
  end.


(** The four separating-axis inequalities between an obstacle and the
    player rectangle: the obstacle lies wholly to the left, to the right,
    above or below it. *)
Definition separated (crabYPos : Qc) (sliding : bool) (obs : Obstacle.t) : Prop :=
  Obstacle.x obs + Obstacle.width obs <= crabX \/
  crabX + CRAB_WIDTH <= Obstacle.x obs \/
  Obstacle.y obs + Obstacle.height obs <= crabYOffset crabYPos sliding \/
  crabYOffset crabYPos sliding + crabH sliding <= Obstacle.y obs.

(** An obstacle touches the player rectangle when one of its edges lies on
    the opposite edge of the rectangle. *)
Definition touches (crabYPos : Qc) (sliding : bool) (obs : Obstacle.t) : Prop :=
  Obstacle.x obs + Obstacle.width obs = crabX \/
  Obstacle.x obs = crabX + CRAB_WIDTH \/
  Obstacle.y obs + Obstacle.height obs = crabYOffset crabYPos sliding \/
  Obstacle.y obs = crabYOffset crabYPos sliding + crabH sliding.

(** ** Collision detection on binary64 numbers (lines 113-134)

    The sums and comparisons of [checkCollision] as JavaScript computes
    them: every number is a binary64 float, a sum is rounded to the nearest
    float, and a comparison with NaN is false. *)

Module Binary64.

Import Floats.
Local Open Scope float_scope.
Local Set Warnings "-inexact-float".

Module Obstacle.
Record t := make {
  id : Z;
  x : float;
  y : float;
  type : ObstacleType;
  width : float;
  height : float
}.
End Obstacle.

Definition GROUND_Y : float := 320.
Definition CRAB_WIDTH : float := 50.
Definition CRAB_HEIGHT : float := 40.
Definition SLIDE_HEIGHT : float := 20.

(** [a > b] *)
Definition gtb (a b : float) : bool := b <? a.

(** [const crabX = 100] *)
Definition crabX : float := 100.

Definition crabH (sliding : bool) : float :=
  if sliding then SLIDE_HEIGHT else CRAB_HEIGHT.

Definition crabYOffset (crabYPos : float) (sliding : bool) : float :=
  if sliding then GROUND_Y - SLIDE_HEIGHT else crabYPos.

(** The condition of the [if] in the loop body. *)
Definition overlaps (crabYPos : float) (sliding : bool) (obs : Obstacle.t)
  : bool :=
  let obsRight := Obstacle.x obs + Obstacle.width obs in
  let obsBottom := Obstacle.y obs + Obstacle.height obs in
  let crabRight := crabX + CRAB_WIDTH in
  let crabBottom := crabYOffset crabYPos sliding + crabH sliding in
  (crabX <? obsRight) &&
  gtb crabRight (Obstacle.x obs) &&
  (crabYOffset crabYPos sliding <? obsBottom) &&
  gtb crabBottom (Obstacle.y obs).

(** [for (const obs of obstacles) { if (...) return true; } return false] *)
Fixpoint checkCollision (obstacles : list Obstacle.t)
         (crabYPos : float) (sliding : bool) : bool :=
  match obstacles with
  | [] => false
  | obs :: rest =>
      if overlaps crabYPos sliding obs then true
      else checkCollision rest crabYPos sliding
  end.


(** The four separating-axis inequalities: the obstacle lies wholly to the
    left, to the right, above or below the player rectangle. *)
Definition separated (crabYPos : float) (sliding : bool) (obs : Obstacle.t)
  : Prop :=
  (Obstacle.x obs + Obstacle.width obs <=? crabX) = true \/
  (crabX + CRAB_WIDTH <=? Obstacle.x obs) = true \/
  (Obstacle.y obs + Obstacle.height obs <=? crabYOffset crabYPos sliding)
  = true \/
  (crabYOffset crabYPos sliding + crabH sliding <=? Obstacle.y obs) = true.




(** The number a float stands for (0 for an infinity or NaN). *)
Definition exact (f : float) : Q :=
  match Prim2SF f with
  | S754_finite s m e =>
      ((if s then -1 else 1) * inject_Z (Zpos m) * Qpower 2 e)%Q
  | _ => 0%Q
  end.

(** An obstacle whose bottom edge [y + height] rounds down to the top
    edge of the player. *)
Definition thinObstacle : Obstacle.t :=
  Obstacle.make 0 100 0.1 rock 45 0.7.

Definition justBelow : float := 0.7999999999999999.

End Binary64.

(** ** Component state (lines 35-54) *)

(** The values held by the [useState] hooks.  [obstaclesArray] stands for
    the identity of the array held by [obstacles]: every [setObstacles] of
    the source installs a freshly built array, and the dependency lists
    compare arrays by identity, not by content. *)
Record Hooks := mkHooks {
  gameState : GameState;
  score : Z;
  highScore : Z;
  crabY : Qc;
  crabVelocity : Qc;
  isSliding : bool;
  isJumping : bool;
  obstacles : list Obstacle.t;
  obstaclesArray : nat;
  particles : list Particle.t;
  gameSpeed : Qc;
  parallaxOffset : Qc
}.

(** The [gameLoop] callback of one render: the values of its dependency
    list that its body reads (line 205).  [useCallback] builds a new
    callback exactly when one of them changes. *)
Module GameLoop.
Record t := make {
  crabVelocity : Qc;
  gameSpeed : Qc;
  isJumping : bool;
  score : Z
}.
End GameLoop.

Definition gameLoopOf (h : Hooks) : GameLoop.t :=
  GameLoop.make (crabVelocity h) (gameSpeed h) (isJumping h) (score h).

(** The component between two events.  [rendered] is the state of the last
    committed render, the one the live closures have captured; [queued] is
    that state with the updates queued since applied in order: what the
    updater functions receive as [prev] and what the next render will show.
    [raf] is the animation frame requested through [gameLoopRef], with the
    callback it will run: a request is only ever made by the callback that
    has just consumed the previous one, or by the loop effect right after
    its cleanup cancelled it, so one slot is enough.  [timers] counts the
    pending [setTimeout] callbacks of [handleTouch], [storage] is the
    [localStorage] entry, and [clockCalls], [randomCalls] count the calls
    made so far to [Date.now] and [Math.random]. *)
Record World := mkWorld {
  rendered : Hooks;
  queued : Hooks;
  obstacleIdRef : Z;
  particleIdRef : Z;
  lastObstacleTimeRef : Z;
  frameCountRef : Z;
  raf : option GameLoop.t;
  timers : nat;
  storage : option Z;
  clockCalls : nat;
  randomCalls : nat
}.

(** A value of [Math.random]: a number in [0, 1). *)
Record Unit01 := mkUnit01 {
  sample : Qc;
  sample_range : negb (sample <? Q2Qc 0) && (sample <? Q2Qc 1) = true
}.

(** ** Actions on the component *)

Definition Act (A : Type) : Type := World -> A * World.

Definition ret {A} (a : A) : Act A := fun w => (a, w).

Definition bind {A B} (m : Act A) (k : A -> Act B) : Act B :=
  fun w => let (a, w') := m w in k a w'.

Declare Scope act_scope.
Delimit Scope act_scope with act.
Notation "x <- m ;; k" := (bind m (fun x => k))
  (at level 61, m at next level, right associativity) : act_scope.
Notation "m ;; k" := (bind m (fun _ => k))
  (at level 61, right associativity) : act_scope.
Local Open Scope act_scope.

Definition when (b : bool) (m : Act unit) : Act unit :=
  if b then m else ret tt.

Definition exec {A} (m : Act A) (w : World) : World := snd (m w).

Definition gets {A} (f : World -> A) : Act A := fun w => (f w, w).

Definition modify (f : World -> World) : Act unit := fun w => (tt, f w).

(** *** State setters: each queues an update

    A setter called with a value replaces the queued value; one called
    with an updater function applies it to the queued value. *)

Definition updQueued (f : Hooks -> Hooks) (w : World) : World :=
  mkWorld (rendered w) (f (queued w)) (obstacleIdRef w) (particleIdRef w)
          (lastObstacleTimeRef w) (frameCountRef w) (raf w) (timers w)
          (storage w) (clockCalls w) (randomCalls w).

Definition withGameState (v : GameState) (h : Hooks) : Hooks :=
  mkHooks v (score h) (highScore h) (crabY h) (crabVelocity h)
          (isSliding h) (isJumping h) (obstacles h) (obstaclesArray h)
          (particles h) (gameSpeed h) (parallaxOffset h).

Definition withScore (f : Z -> Z) (h : Hooks) : Hooks :=
  mkHooks (gameState h) (f (score h)) (highScore h) (crabY h) (crabVelocity h)
          (isSliding h) (isJumping h) (obstacles h) (obstaclesArray h)
          (particles h) (gameSpeed h) (parallaxOffset h).

Definition withHighScore (v : Z) (h : Hooks) : Hooks :=
  mkHooks (gameState h) (score h) v (crabY h) (crabVelocity h)
          (isSliding h) (isJumping h) (obstacles h) (obstaclesArray h)
          (particles h) (gameSpeed h) (parallaxOffset h).

Definition withCrabY (v : Qc) (h : Hooks) : Hooks :=
  mkHooks (gameState h) (score h) (highScore h) v (crabVelocity h)
          (isSliding h) (isJumping h) (obstacles h) (obstaclesArray h)
          (particles h) (gameSpeed h) (parallaxOffset h).

Definition withCrabVelocity (v : Qc) (h : Hooks) : Hooks :=
  mkHooks (gameState h) (score h) (highScore h) (crabY h) v
          (isSliding h) (isJumping h) (obstacles h) (obstaclesArray h)
          (particles h) (gameSpeed h) (parallaxOffset h).

Definition withIsSliding (v : bool) (h : Hooks) : Hooks :=
  mkHooks (gameState h) (score h) (highScore h) (crabY h) (crabVelocity h)
          v (isJumping h) (obstacles h) (obstaclesArray h)
          (particles h) (gameSpeed h) (parallaxOffset h).

Definition withIsJumping (v : bool) (h : Hooks) : Hooks :=
  mkHooks (gameState h) (score h) (highScore h) (crabY h) (crabVelocity h)
          (isSliding h) v (obstacles h) (obstaclesArray h)
          (particles h) (gameSpeed h) (parallaxOffset h).

Definition withObstacles (f : list Obstacle.t -> list Obstacle.t) (h : Hooks) : Hooks :=
  mkHooks (gameState h) (score h) (highScore h) (crabY h) (crabVelocity h)
          (isSliding h) (isJumping h) (f (obstacles h)) (S (obstaclesArray h))
          (particles h) (gameSpeed h) (parallaxOffset h).

Definition withParticles (f : list Particle.t -> list Particle.t) (h : Hooks) : Hooks :=
  mkHooks (gameState h) (score h) (highScore h) (crabY h) (crabVelocity h)
          (isSliding h) (isJumping h) (obstacles h) (obstaclesArray h)
          (f (particles h)) (gameSpeed h) (parallaxOffset h).

Definition withGameSpeed (f : Qc -> Qc) (h : Hooks) : Hooks :=
  mkHooks (gameState h) (score h) (highScore h) (crabY h) (crabVelocity h)
          (isSliding h) (isJumping h) (obstacles h) (obstaclesArray h)
          (particles h) (f (gameSpeed h)) (parallaxOffset h).

Definition withParallaxOffset (f : Qc -> Qc) (h : Hooks) : Hooks :=
  mkHooks (gameState h) (score h) (highScore h) (crabY h) (crabVelocity h)
          (isSliding h) (isJumping h) (obstacles h) (obstaclesArray h)
          (particles h) (gameSpeed h) (f (parallaxOffset h)).


Definition setGameState (v : GameState) : Act unit :=
  modify (updQueued (withGameState v)).

Definition setScore (f : Z -> Z) : Act unit :=
  modify (updQueued (withScore f)).

Definition setHighScore (v : Z) : Act unit :=
  modify (updQueued (withHighScore v)).

Definition setCrabY (v : Qc) : Act unit :=
  modify (updQueued (withCrabY v)).

Definition setCrabVelocity (v : Qc) : Act unit :=
  modify (updQueued (withCrabVelocity v)).

Definition setIsSliding (v : bool) : Act unit :=
  modify (updQueued (withIsSliding v)).

Definition setIsJumping (v : bool) : Act unit :=
  modify (updQueued (withIsJumping v)).

Definition setObstacles (f : list Obstacle.t -> list Obstacle.t) : Act unit :=
  modify (updQueued (withObstacles f)).

Definition setParticles (f : list Particle.t -> list Particle.t) : Act unit :=
  modify (updQueued (withParticles f)).

Definition setGameSpeed (f : Qc -> Qc) : Act unit :=
  modify (updQueued (withGameSpeed f)).

Definition setParallaxOffset (f : Qc -> Qc) : Act unit :=
  modify (updQueued (withParallaxOffset f)).

(** *** Refs, animation frames, timers, storage *)

Definition commitRender : Act unit :=
  modify (fun w =>
    mkWorld (queued w) (queued w) (obstacleIdRef w) (particleIdRef w)
            (lastObstacleTimeRef w) (frameCountRef w) (raf w) (timers w)
            (storage w) (clockCalls w) (randomCalls w)).

(** [obstacleIdRef.current++] *)
Definition nextObstacleId : Act Z :=
  fun w =>
    (obstacleIdRef w,
     mkWorld (rendered w) (queued w) (obstacleIdRef w + 1) (particleIdRef w)
             (lastObstacleTimeRef w) (frameCountRef w) (raf w) (timers w)
             (storage w) (clockCalls w) (randomCalls w)).

(** [particleIdRef.current++] *)
Definition nextParticleId : Act Z :=
  fun w =>
    (particleIdRef w,
     mkWorld (rendered w) (queued w) (obstacleIdRef w) (particleIdRef w + 1)
             (lastObstacleTimeRef w) (frameCountRef w) (raf w) (timers w)
             (storage w) (clockCalls w) (randomCalls w)).

Definition setLastObstacleTime (v : Z) : Act unit :=
  modify (fun w =>
    mkWorld (rendered w) (queued w) (obstacleIdRef w) (particleIdRef w)
            v (frameCountRef w) (raf w) (timers w)
            (storage w) (clockCalls w) (randomCalls w)).

Definition setFrameCount (v : Z) : Act unit :=
  modify (fun w =>
    mkWorld (rendered w) (queued w) (obstacleIdRef w) (particleIdRef w)
            (lastObstacleTimeRef w) v (raf w) (timers w)
            (storage w) (clockCalls w) (randomCalls w)).

Definition setRaf (v : option GameLoop.t) : Act unit :=
  modify (fun w =>
    mkWorld (rendered w) (queued w) (obstacleIdRef w) (particleIdRef w)
            (lastObstacleTimeRef w) (frameCountRef w) v (timers w)
            (storage w) (clockCalls w) (randomCalls w)).

(** [gameLoopRef.current = requestAnimationFrame(gameLoop)] *)
Definition requestAnimationFrame (cb : GameLoop.t) : Act unit :=
  setRaf (Some cb).

(** [if (gameLoopRef.current) cancelAnimationFrame(gameLoopRef.current)] *)
Definition cancelAnimationFrame : Act unit := setRaf None.

Definition setTimers (f : nat -> nat) : Act unit :=
  modify (fun w =>
    mkWorld (rendered w) (queued w) (obstacleIdRef w) (particleIdRef w)
            (lastObstacleTimeRef w) (frameCountRef w) (raf w) (f (timers w))
            (storage w) (clockCalls w) (randomCalls w)).

(** [localStorage.setItem('epicCrabDashHighScore', score.toString())] *)
Definition localStorage_setItem (v : Z) : Act unit :=
  modify (fun w =>
    mkWorld (rendered w) (queued w) (obstacleIdRef w) (particleIdRef w)
            (lastObstacleTimeRef w) (frameCountRef w) (raf w) (timers w)
            (Some v) (clockCalls w) (randomCalls w)).

(** The component when it is mounted; [saved] is the stored high score,
    if any (lines 37-40).  The effects of the first render find the menu
    and do nothing. *)
Definition mount (saved : option Z) : World :=
  let h := mkHooks menu 0
                   (match saved with Some n => n | None => 0%Z end)
                   (GROUND_Y - CRAB_HEIGHT) (Q2Qc 0) false false [] 0 []
                   (Q2Qc 6) (Q2Qc 0) in
  mkWorld h h 0 0 0 0 None 0 saved 0 0.

(** ** The component's functions *)

(** The two ambient sources of the browser: the value returned by the
    n-th call to [Date.now()] and to [Math.random()]. *)
Class Browser := {
  dateNow : nat -> Z;
  mathRandom : nat -> Unit01
}.

Section Component.

Context {browser : Browser}.

Definition Date_now : Act Z :=
  fun w =>
    (dateNow (clockCalls w),
     mkWorld (rendered w) (queued w) (obstacleIdRef w) (particleIdRef w)
             (lastObstacleTimeRef w) (frameCountRef w) (raf w) (timers w)
             (storage w) (S (clockCalls w)) (randomCalls w)).

Definition Math_random : Act Qc :=
  fun w =>
    (sample (mathRandom (randomCalls w)),
     mkWorld (rendered w) (queued w) (obstacleIdRef w) (particleIdRef w)
             (lastObstacleTimeRef w) (frameCountRef w) (raf w) (timers w)
             (storage w) (clockCalls w) (S (randomCalls w))).

(** *** createParticles (lines 56-70) *)

(** The [for] loop that fills [newParticles]. *)
Fixpoint newParticles (x y : Qc) (count : nat) (color : string)
  : Act (list Particle.t) :=
  match count with
  | O => ret []
  | S count' =>
      id <- nextParticleId ;;
      r1 <- Math_random ;;
      r2 <- Math_random ;;
      r3 <- Math_random ;;
      let p := Particle.make id x y
                 ((r1 - Q2Qc 0.5) * Q2Qc 8)
                 ((r2 - Q2Qc 1) * Q2Qc 6)
                 (Q2Qc 30 + r3 * Q2Qc 20)
                 color in
      rest <- newParticles x y count' color ;;
      ret (p :: rest)
  end.

Definition createParticles (x y : Qc) (count : nat) (color : string)
  : Act unit :=
  fresh <- newParticles x y count color ;;
  setParticles (fun prev => prev ++ fresh).

(** *** spawnObstacle (lines 72-111) *)

Definition types : list ObstacleType := [rock; wave; seagull; jellyfish].

(** [types[Math.floor(r * types.length)]]; the index is below 4 because
    [r] is below 1, so the default of [nth] is never returned
    ([pickType_listed] below). *)
Definition pickType (r : Qc) : ObstacleType :=
  nth (Z.to_nat (Num.floor (r * Q2Qc 4))) types jellyfish.

Definition spawnObstacle : Act unit :=
  r <- Math_random ;;
  let type := pickType r in
  geometry <-
    match type with
    | rock => ret (GROUND_Y - Q2Qc 35, Q2Qc 45, Q2Qc 35)
    | wave => ret (GROUND_Y - Q2Qc 50, Q2Qc 60, Q2Qc 50)
    | seagull =>
        j <- Math_random ;;
        ret (GROUND_Y - Q2Qc 100 - j * Q2Qc 60, Q2Qc 50, Q2Qc 30)
    | jellyfish =>
        j <- Math_random ;;
        ret (GROUND_Y - Q2Qc 70 - j * Q2Qc 40, Q2Qc 35, Q2Qc 45)
    end ;;
  let '(y, width, height) := geometry in
  id <- nextObstacleId ;;
  setObstacles (fun prev =>
    prev ++ [Obstacle.make id (GAME_WIDTH + Q2Qc 50) y type width height]).

(** *** gameLoop (lines 136-205) *)

(** [obs => ({ ...obs, x: obs.x - gameSpeed })] *)
Definition moveObstacle (gameSpeed : Qc) (obs : Obstacle.t) : Obstacle.t :=
  Obstacle.make (Obstacle.id obs) (Obstacle.x obs - gameSpeed)
                (Obstacle.y obs) (Obstacle.type obs)
                (Obstacle.width obs) (Obstacle.height obs).

(** The updater passed to [setObstacles] at lines 163-168. *)
Definition advanceObstacles (gameSpeed : Qc) (prev : list Obstacle.t)
  : list Obstacle.t :=
  filter (fun obs => Obstacle.x obs >? Q2Qc (-100))
         (map (moveObstacle gameSpeed) prev).

Definition moveParticle (p : Particle.t) : Particle.t :=
  Particle.make (Particle.id p)
                (Particle.x p + Particle.vx p)
                (Particle.y p + Particle.vy p)
                (Particle.vx p)
                (Particle.vy p + Q2Qc 0.3)
                (Particle.life p - Q2Qc 1)
                (Particle.color p).

(** The updater passed to [setParticles] at lines 171-180. *)
Definition advanceParticles (prev : list Particle.t) : list Particle.t :=
  filter (fun p => Particle.life p >? Q2Qc 0) (map moveParticle prev).

(** The right-hand side of the comparison at line 184. *)
Definition spawnIntervalMs (score : Z) : Z :=
  (1500 - Z.min (score * 2) 800)%Z.

(** The updater passed to [setCrabY] at lines 143-160, with the setters
    it calls; [prevY] is the queued value of [crabY]. *)
Definition crabPhysics (cb : GameLoop.t) : Act unit :=
  prevY <- gets (fun w => crabY (queued w)) ;;
  if GameLoop.isJumping cb || (prevY <? GROUND_Y - CRAB_HEIGHT) then
    let newVel := GameLoop.crabVelocity cb + GRAVITY in
    let newY := prevY + newVel in
    setCrabVelocity newVel ;;
    if newY >=? GROUND_Y - CRAB_HEIGHT then
      setCrabVelocity (Q2Qc 0) ;;
      setIsJumping false ;;
      setCrabY (GROUND_Y - CRAB_HEIGHT)
    else
      setCrabY newY
  else
    setCrabY prevY.

Definition gameLoop (cb : GameLoop.t) : Act unit :=
  (* frameCountRef.current++ *)
  fc <- gets frameCountRef ;;
  setFrameCount (fc + 1) ;;
  (* Update parallax *)
  setParallaxOffset (fun prev =>
    Num.rem (prev + GameLoop.gameSpeed cb * Q2Qc 0.5) (Q2Qc 800)) ;;
  (* Update crab physics *)
  crabPhysics cb ;;
  (* Update obstacles *)
  setObstacles (advanceObstacles (GameLoop.gameSpeed cb)) ;;
  (* Update particles *)
  setParticles advanceParticles ;;
  (* Spawn obstacles *)
  now <- Date_now ;;
  last <- gets lastObstacleTimeRef ;;
  when (now - last >? spawnIntervalMs (GameLoop.score cb))%Z
       (spawnObstacle ;; setLastObstacleTime now) ;;
  (* Increase difficulty *)
  fc <- gets frameCountRef ;;
  when (Z.rem fc 300 =? 0)%Z
       (setGameSpeed (fun prev => Num.min (prev + Q2Qc 0.5) (Q2Qc 15))) ;;
  (* Score *)
  when (Z.rem fc 10 =? 0)%Z
       (setScore (fun prev => prev + 1)%Z) ;;
  (* Sand particles *)
  when (Z.rem fc 5 =? 0)%Z
       (createParticles (Q2Qc 110) (GROUND_Y - Q2Qc 5) 1 "#ffcc80") ;;
  requestAnimationFrame cb.

(** *** Effects (lines 207-234) *)

Definition gameState_eqb (a b : GameState) : bool :=
  match a, b with
  | menu, menu | playing, playing | gameover, gameover => true
  | _, _ => false
  end.

(** Collision detection in separate effect (lines 208-220); [h] is the
    render the effect belongs to. *)
Definition collisionEffect (h : Hooks) : Act unit :=
  when (gameState_eqb (gameState h) playing)
    (when (checkCollision (obstacles h) (crabY h) (isSliding h))
       (setGameState gameover ;;
        when (score h >? highScore h)%Z
             (setHighScore (score h) ;;
              localStorage_setItem (score h)) ;;
        createParticles (Q2Qc 120) (crabY h + Q2Qc 20) 20 "#ff2d95")).

(** Dependency list of the collision effect (line 220): [checkCollision]
    changes with the [obstacles] array, [createParticles] never. *)
Definition collisionDepsChanged (prev cur : Hooks) : bool :=
  negb (gameState_eqb (gameState prev) (gameState cur)) ||
  negb (Num.eqb (crabY prev) (crabY cur)) ||
  negb (Bool.eqb (isSliding prev) (isSliding cur)) ||
  negb (obstaclesArray prev =? obstaclesArray cur)%nat ||
  negb (score prev =? score cur)%Z ||
  negb (highScore prev =? highScore cur)%Z.

(** The body of the loop effect (lines 222-227). *)
Definition loopEffect (h : Hooks) : Act unit :=
  when (gameState_eqb (gameState h) playing)
    (setFrameCount 0 ;;
     now <- Date_now ;;
     setLastObstacleTime now ;;
     requestAnimationFrame (gameLoopOf h)).

(** Its cleanup (lines 229-233). *)
Definition loopCleanup : Act unit := cancelAnimationFrame.

(** [gameLoop] is rebuilt when one of its dependencies changes (line 205;
    [spawnObstacle] and [createParticles] never change). *)
Definition gameLoopChanged (prev cur : Hooks) : bool :=
  negb (Num.eqb (crabVelocity prev) (crabVelocity cur)) ||
  negb (Num.eqb (gameSpeed prev) (gameSpeed cur)) ||
  negb (Bool.eqb (isJumping prev) (isJumping cur)) ||
  negb (score prev =? score cur)%Z.

(** Dependency list of the loop effect (line 234). *)
Definition loopDepsChanged (prev cur : Hooks) : bool :=
  negb (gameState_eqb (gameState prev) (gameState cur)) ||
  gameLoopChanged prev cur.

(** One render of the component and the effects that follow it: the
    queued state becomes the rendered one; then the cleanups of the
    effects whose dependencies changed run, then their bodies, in the
    order of declaration.  The effect that registers the key listeners
    (lines 285-292) keeps the handlers current and changes nothing
    else. *)
Definition render : Act unit :=
  prev <- gets rendered ;;
  cur <- gets queued ;;
  commitRender ;;
  when (loopDepsChanged prev cur) loopCleanup ;;
  when (collisionDepsChanged prev cur) (collisionEffect cur) ;;
  when (loopDepsChanged prev cur) (loopEffect cur).

(** *** startGame (lines 294-305) *)

Definition startGame : Act unit :=
  setGameState playing ;;
  setScore (fun _ => 0%Z) ;;
  setCrabY (GROUND_Y - CRAB_HEIGHT) ;;
  setCrabVelocity (Q2Qc 0) ;;
  setIsSliding false ;;
  setIsJumping false ;;
  setObstacles (fun _ => []) ;;
  setParticles (fun _ => []) ;;
  setGameSpeed (fun _ => Q2Qc 6) ;;
  setParallaxOffset (fun _ => Q2Qc 0).

(** *** Input handlers (lines 236-283) *)

Definition isCode (code : string) (names : list string) : bool :=
  existsb (String.eqb code) names.

(** The jump of lines 246-248 and 275-277. *)
Definition jump : Act unit :=
  setCrabVelocity JUMP_FORCE ;;
  setIsJumping true ;;
  createParticles (Q2Qc 100) (GROUND_Y - Q2Qc 10) 5 "#00f5ff".

Definition handleKeyDown (h : Hooks) (code : string) : Act unit :=
  match gameState h with
  | menu | gameover =>
      when (isCode code ["Space"; "Enter"]) startGame
  | playing =>
      when (isCode code ["Space"; "ArrowUp"; "KeyW"]
            && negb (isJumping h) && negb (isSliding h))
           jump ;;
      when (isCode code ["ArrowDown"; "KeyS"] && negb (isJumping h))
           (setIsSliding true)
  end.

Definition handleKeyUp (code : string) : Act unit :=
  when (isCode code ["ArrowDown"; "KeyS"]) (setIsSliding false).

(** [y] is [touch.clientY - rect.top] and [height] is [rect.height]. *)
Definition handleTouch (h : Hooks) (y height : Qc) : Act unit :=
  match gameState h with
  | menu | gameover => startGame
  | playing =>
      if (y <? height / Q2Qc 2) && negb (isJumping h) && negb (isSliding h)
      then jump
      else if y >=? height / Q2Qc 2
      then setIsSliding true ;; setTimers S
      else ret tt
  end.

(** The callback of [setTimeout(() => setIsSliding(false), 500)]. *)
Definition slideTimeout : Act unit :=
  n <- gets timers ;;
  match n with
  | O => ret tt
  | S n' => setTimers (fun _ => n') ;; setIsSliding false
  end.

(** ** Events *)

Inductive Event :=
| AnimationFrame
| KeyDown (code : string)
| KeyUp (code : string)
| TouchStart (y height : Qc)
| Timeout.

(** The browser runs the requested animation callback, if any. *)
Definition animationFrame : Act unit :=
  cb <- gets raf ;;
  match cb with
  | None => ret tt
  | Some cb => setRaf None ;; gameLoop cb
  end.

(** The handlers run with the state of the last render in their
    closure. *)
Definition handle (ev : Event) : Act unit :=
  h <- gets rendered ;;
  match ev with
  | AnimationFrame => animationFrame
  | KeyDown code => handleKeyDown h code
  | KeyUp code => handleKeyUp code
  | TouchStart y height => handleTouch h y height
  | Timeout => slideTimeout
  end.

(** The component re-renders until no update is queued: the second
    render takes the updates queued by the effects of the first, and a
    third would find nothing to do ([render_settled] and [renderW_idle]
    below). *)
Definition dispatch (ev : Event) : Act unit :=
  handle ev ;; render ;; render.

Definition step (w : World) (ev : Event) : World := exec (dispatch ev) w.

Definition run (evs : list Event) (w : World) : World :=
  fold_left step evs w.

End Component.

(** ** The tick in the order of the specification

    Section 4.7 of the specification lists the sub-updates of a tick and
    asks that each observe the state left by the earlier ones.  The
    definitions below follow that wording: every step reads the queued
    state at the moment it runs, where [gameLoop] reads the values its
    closure captured at the last render. *)

Module Ordered.
Section Steps.

Context {browser : Browser}.

(** 1. advance scroll/parallax offset by a function of scroll speed *)
Definition advanceParallax : Act unit :=
  speed <- gets (fun w => gameSpeed (queued w)) ;;
  setParallaxOffset (fun prev =>
    Num.rem (prev + speed * Q2Qc 0.5) (Q2Qc 800)).

(** 2. integrate player physics *)
Definition integratePlayer : Act unit :=
  cb <- gets (fun w => gameLoopOf (queued w)) ;;
  crabPhysics cb.

(** 3. advance and prune obstacles by current scroll speed *)
Definition advanceField : Act unit :=
  speed <- gets (fun w => gameSpeed (queued w)) ;;
  setObstacles (advanceObstacles speed).

(** 4. integrate and prune particles *)
Definition integrateParticles : Act unit :=
  setParticles advanceParticles.

(** 5. conditionally spawn a new obstacle *)
Definition maybeSpawn : Act unit :=
  now <- Date_now ;;
  last <- gets lastObstacleTimeRef ;;
  s <- gets (fun w => score (queued w)) ;;
  when (now - last >? spawnIntervalMs s)%Z
       (spawnObstacle ;; setLastObstacleTime now).

(** 6. conditionally ramp scroll speed *)
Definition maybeRamp : Act unit :=
  fc <- gets frameCountRef ;;
  when (Z.rem fc 300 =? 0)%Z
       (setGameSpeed (fun prev => Num.min (prev + Q2Qc 0.5) (Q2Qc 15))).

(** 7. conditionally increment score *)
Definition maybeScore : Act unit :=
  fc <- gets frameCountRef ;;
  when (Z.rem fc 10 =? 0)%Z (setScore (fun prev => prev + 1)%Z).

(** 8. evaluate collision against the post-update state: the renders
    that follow the callback, with the collision effect. *)
Definition evaluateCollision : Act unit := render ;; render.

(** What the tick does besides the eight steps: it counts the frame
    first, emits the sand particle and requests the next frame. *)
Definition countFrame : Act unit :=
  fc <- gets frameCountRef ;; setFrameCount (fc + 1).

Definition emitSand : Act unit :=
  fc <- gets frameCountRef ;;
  when (Z.rem fc 5 =? 0)%Z
       (createParticles (Q2Qc 110) (GROUND_Y - Q2Qc 5) 1 "#ffcc80").

Definition requestNext : Act unit :=
  cb <- gets (fun w => gameLoopOf (rendered w)) ;;
  requestAnimationFrame cb.

Definition tick : Act unit :=
  setRaf None ;;
  countFrame ;;
  advanceParallax ;;
  integratePlayer ;;
  advanceField ;;
  integrateParticles ;;
  maybeSpawn ;;
  maybeRamp ;;
  maybeScore ;;
  emitSand ;;
  requestNext ;;
  evaluateCollision.

End Steps.
End Ordered.

Section ClosedForms.

Context {browser : Browser}.

(** ** Closed forms

    What the effectful functions above compute, as plain functions of the
    world they start from. *)

(** The particles pushed by the loop of [createParticles] when the next
    particle id is [pid] and [rc] calls to [Math.random] were made. *)
Fixpoint burst (x y : Qc) (count : nat) (color : string) (pid : Z) (rc : nat)
  : list Particle.t :=
  match count with
  | O => []
  | S count' =>
      Particle.make pid x y
        ((sample (mathRandom rc) - Q2Qc 0.5) * Q2Qc 8)
        ((sample (mathRandom (S rc)) - Q2Qc 1) * Q2Qc 6)
        (Q2Qc 30 + sample (mathRandom (S (S rc))) * Q2Qc 20)
        color
      :: burst x y count' color (pid + 1) (S (S (S rc)))
  end.

(** The obstacle appended by [spawnObstacle] when the next obstacle id is
    [id] and [rc] calls to [Math.random] were made. *)
Definition spawned (rc : nat) (id : Z) : Obstacle.t :=
  let type := pickType (sample (mathRandom rc)) in
  let j := sample (mathRandom (S rc)) in
  match type with
  | rock =>
      Obstacle.make id (GAME_WIDTH + Q2Qc 50) (GROUND_Y - Q2Qc 35)
                    type (Q2Qc 45) (Q2Qc 35)
  | wave =>
      Obstacle.make id (GAME_WIDTH + Q2Qc 50) (GROUND_Y - Q2Qc 50)
                    type (Q2Qc 60) (Q2Qc 50)
  | seagull =>
      Obstacle.make id (GAME_WIDTH + Q2Qc 50)
                    (GROUND_Y - Q2Qc 100 - j * Q2Qc 60)
                    type (Q2Qc 50) (Q2Qc 30)
  | jellyfish =>
      Obstacle.make id (GAME_WIDTH + Q2Qc 50)
                    (GROUND_Y - Q2Qc 70 - j * Q2Qc 40)
                    type (Q2Qc 35) (Q2Qc 45)
  end.

(** The number of calls [spawnObstacle] makes to [Math.random]. *)
Definition spawnDraws (rc : nat) : nat :=
  match pickType (sample (mathRandom rc)) with
  | rock | wave => 1
  | seagull | jellyfish => 2
  end.

(** The two tests of the physics updater. *)
Definition airborne (cb : GameLoop.t) (prevY : Qc) : bool :=
  GameLoop.isJumping cb || (prevY <? GROUND_Y - CRAB_HEIGHT).

Definition lands (cb : GameLoop.t) (prevY : Qc) : bool :=
  prevY + (GameLoop.crabVelocity cb + GRAVITY) >=? GROUND_Y - CRAB_HEIGHT.

(** The test of line 184. *)
Definition spawnDue (cb : GameLoop.t) (w : World) : bool :=
  (dateNow (clockCalls w) - lastObstacleTimeRef w
     >? spawnIntervalMs (GameLoop.score cb))%Z.

(** The world a tick starts from: the request it answers is consumed. *)
Definition consumed (w : World) : World :=
  mkWorld (rendered w) (queued w) (obstacleIdRef w) (particleIdRef w)
          (lastObstacleTimeRef w) (frameCountRef w) None (timers w)
          (storage w) (clockCalls w) (randomCalls w).

(** The world left by [gameLoop cb]. *)
Definition tickW (cb : GameLoop.t) (w : World) : World :=
  let q := queued w in
  let fc := (frameCountRef w + 1)%Z in
  let sand := (Z.rem fc 5 =? 0)%Z in
  let rc := if spawnDue cb w
            then (spawnDraws (randomCalls w) + randomCalls w)%nat
            else randomCalls w in
  mkWorld (rendered w)
    (mkHooks (gameState q)
       (if (Z.rem fc 10 =? 0)%Z then score q + 1 else score q)%Z
       (highScore q)
       (if airborne cb (crabY q)
        then if lands cb (crabY q) then GROUND_Y - CRAB_HEIGHT
             else crabY q + (GameLoop.crabVelocity cb + GRAVITY)
        else crabY q)
       (if airborne cb (crabY q)
        then if lands cb (crabY q) then Q2Qc 0
             else GameLoop.crabVelocity cb + GRAVITY
        else crabVelocity q)
       (isSliding q)
       (if airborne cb (crabY q) && lands cb (crabY q)
        then false else isJumping q)
       (if spawnDue cb w
        then advanceObstacles (GameLoop.gameSpeed cb) (obstacles q)
               ++ [spawned (randomCalls w) (obstacleIdRef w)]
        else advanceObstacles (GameLoop.gameSpeed cb) (obstacles q))
       (if spawnDue cb w
        then S (S (obstaclesArray q)) else S (obstaclesArray q))
       (if sand
        then advanceParticles (particles q)
               ++ burst (Q2Qc 110) (GROUND_Y - Q2Qc 5) 1 "#ffcc80"
                        (particleIdRef w) rc
        else advanceParticles (particles q))
       (if (Z.rem fc 300 =? 0)%Z
        then Num.min (gameSpeed q + Q2Qc 0.5) (Q2Qc 15) else gameSpeed q)
       (Num.rem (parallaxOffset q + GameLoop.gameSpeed cb * Q2Qc 0.5)
                (Q2Qc 800)))
    (if spawnDue cb w then obstacleIdRef w + 1 else obstacleIdRef w)%Z
    (if sand then particleIdRef w + 1 else particleIdRef w)%Z
    (if spawnDue cb w then dateNow (clockCalls w) else lastObstacleTimeRef w)
    fc (Some cb) (timers w) (storage w) (S (clockCalls w))
    (if sand then (3 + rc)%nat else rc).

(** The test of the collision effect. *)
Definition collides (h : Hooks) : bool :=
  gameState_eqb (gameState h) playing &&
  checkCollision (obstacles h) (crabY h) (isSliding h).

(** The updates the collision effect of render [h] queues on a hit. *)
Definition afterHit (h : Hooks) (ps : list Particle.t) (q : Hooks) : Hooks :=
  withParticles (fun prev => prev ++ ps)
    ((if (score h >? highScore h)%Z then withHighScore (score h)
      else fun q => q)
       (withGameState gameover q)).

Definition hit (w : World) : bool :=
  collisionDepsChanged (rendered w) (queued w) && collides (queued w).

Definition rearmed (w : World) : bool :=
  loopDepsChanged (rendered w) (queued w) &&
  gameState_eqb (gameState (queued w)) playing.

(** The callback the loop effect of render [h] leaves requested. *)
Definition expected (h : Hooks) : option GameLoop.t :=
  if gameState_eqb (gameState h) playing then Some (gameLoopOf h) else None.

(** The world left by [render]. *)
Definition renderW (w : World) : World :=
  mkWorld (queued w)
    (if hit w
     then afterHit (queued w)
            (burst (Q2Qc 120) (crabY (queued w) + Q2Qc 20) 20 "#ff2d95"
                   (particleIdRef w) (randomCalls w))
            (queued w)
     else queued w)
    (obstacleIdRef w)
    (if hit w then particleIdRef w + 20 else particleIdRef w)%Z
    (if rearmed w then dateNow (clockCalls w) else lastObstacleTimeRef w)
    (if rearmed w then 0%Z else frameCountRef w)
    (if loopDepsChanged (rendered w) (queued w)
     then expected (queued w) else raf w)
    (timers w)
    (if hit w && (score (queued w) >? highScore (queued w))%Z
     then Some (score (queued w)) else storage w)
    (if rearmed w then S (clockCalls w) else clockCalls w)
    (if hit w then (60 + randomCalls w)%nat else randomCalls w).

(** ** Reachable worlds *)

Definition reachable (w : World) : Prop :=
  exists saved evs, w = run evs (mount saved).

(** What holds of the component between two events. *)
Record Inv (w : World) : Prop := mkInv {
  inv_settled : queued w = rendered w;
  inv_raf : raf w = expected (rendered w);
  inv_frames : (0 <= frameCountRef w <= 9)%Z;
  inv_speed : gameSpeed (rendered w) = Q2Qc 6;
  inv_ids : Forall (fun obs => (Obstacle.id obs < obstacleIdRef w)%Z)
                   (obstacles (rendered w));
  inv_unique : NoDup (map Obstacle.id (obstacles (rendered w)))
}.

(** What holds after a handler and after each render. *)
Record Mid (w : World) : Prop := mkMid {
  mid_raf : raf w = expected (rendered w);
  mid_frames : (0 <= frameCountRef w <= 10)%Z;
  mid_tenth : frameCountRef w = 10%Z -> rearmed w = true;
  mid_speed : gameSpeed (queued w) = Q2Qc 6;
  mid_ids : Forall (fun obs => (Obstacle.id obs < obstacleIdRef w)%Z)
                   (obstacles (queued w));
  mid_unique : NoDup (map Obstacle.id (obstacles (queued w)))
}.

End ClosedForms.


(** ** Stance

    The specification speaks of one stance among three; the component
    keeps two flags.  The hit box and the drawing give the slide priority
    (lines 115-116 and 308-309). *)

Inductive Stance := Standing | Jumping | Sliding.

Definition stance (h : Hooks) : Stance :=
  if isSliding h then Sliding
  else if isJumping h then Jumping
  else Standing.

(** The events that request a start (lines 237-240 and 268-270). *)
Definition requestsStart (ev : Event) : bool :=
  match ev with
  | KeyDown code => isCode code ["Space"; "Enter"]
  | TouchStart _ _ => true
  | _ => false
  end.

(** Events none of which requests a start. *)
Definition noStart (evs : list Event) : bool :=
  forallb (fun ev => negb (requestsStart ev)) evs.

(** ** Sample environments *)

Definition half : Unit01 := @mkUnit01 (Q2Qc 0.5) eq_refl.

Definition zero : Unit01 := @mkUnit01 (Q2Qc 0) eq_refl.

(** A clock that advances 16 ms between two readings, and one that
    advances two seconds. *)
Definition fastClock (n : nat) : Z := (1000 + 16 * Z.of_nat n)%Z.

Definition slowClock (n : nat) : Z := (1000 + 2000 * Z.of_nat n)%Z.

(** Browsers whose [Math.random] always answers 0.5 (a seagull) or 0 (a
    rock). *)
Definition fastSeagulls : Browser := Build_Browser fastClock (fun _ => half).

Definition slowSeagulls : Browser := Build_Browser slowClock (fun _ => half).

Definition slowRocks : Browser := Build_Browser slowClock (fun _ => zero).

(** ** Sample worlds *)

(** The game just started from the menu. *)
Definition started (b : Browser) : World :=
  @run b [KeyDown "Space"] (mount None).

(** The player has pressed the jump key. *)
Definition jumped (b : Browser) : World :=
  @step b (started b) (KeyDown "Space").

(** The player is in the air, one tick after the jump. *)
Definition midAir (b : Browser) : World :=
  @step b (jumped b) AnimationFrame.

(** The first seagull, spawned at the first tick, is about to leave the
    field: it is at -98 after 159 ticks. *)
Definition seagullLeaving : World :=
  @run slowSeagulls (KeyDown "Space" :: repeat AnimationFrame 159)
       (mount None).

(** A seagull above the slide hit box, and a rock whose left edge is on
    the right edge of the player. *)
Definition highSeagull : Obstacle.t :=
  Obstacle.make 0 (Q2Qc 100) (Q2Qc 190) seagull (Q2Qc 50) (Q2Qc 30).

Definition rockAhead : Obstacle.t :=
  Obstacle.make 0 (Q2Qc 150) (Q2Qc 285) rock (Q2Qc 45) (Q2Qc 35).


(** ** What the component draws (lines 619-628 and 714) *)

(** [opacity={p.life / 50}] *)
Definition particleOpacity (p : Particle.t) : Qc :=
  Particle.life p / Q2Qc 50.

(** [translate(${-parallaxOffset % 50}, 0)], the shift of the grid lines
    on the ground (line 585). *)
Definition gridShift (h : Hooks) : Qc :=
  Num.rem (- parallaxOffset h) (Q2Qc 50).

(** [score >= highScore && score > 0], inside the game-over overlay. *)
Definition newHighScoreShown (h : Hooks) : bool :=
  gameState_eqb (gameState h) gameover &&
  (score h >=? highScore h)%Z && (score h >? 0)%Z.

(** ** The jump *)

(** The ground level of the player, [GROUND_Y - CRAB_HEIGHT]. *)
Definition ground : Qc := GROUND_Y - CRAB_HEIGHT.

(** One tick of the physics updater in the air, before the landing test:
    [newVel += GRAVITY; newY += newVel]. *)
Definition fall (s : Qc * Qc) : Qc * Qc :=
  let newVel := snd s + GRAVITY in
  (fst s + newVel, newVel).

(** Position and velocity [k] ticks after the jump impulse, on the
    exact numbers of the component model: a yardstick for the invariants
    of the model, not the binary64 values of the code, which are off it by
    rounding from the second tick. *)
Fixpoint arc (k : nat) : Qc * Qc :=
  match k with
  | O => (ground, JUMP_FORCE)
  | S k' => fall (arc k')
  end.

(** ** The obstacle catalogue (lines 80-101)

    Where an obstacle of each type can be: the geometry [spawnObstacle]
    gives it, and a horizontal position between the prune threshold and
    the spawn position.  The vertical ranges are closed: [Math.random] is
    below 1, but the rounded [220 - 60 r] and [250 - 40 r] can be 160
    and 210. *)
Definition placed (obs : Obstacle.t) : Prop :=
  Q2Qc (-100) < Obstacle.x obs /\ Obstacle.x obs <= GAME_WIDTH + Q2Qc 50 /\
  match Obstacle.type obs with
  | rock =>
      Obstacle.y obs = GROUND_Y - Q2Qc 35 /\
      Obstacle.width obs = Q2Qc 45 /\ Obstacle.height obs = Q2Qc 35
  | wave =>
      Obstacle.y obs = GROUND_Y - Q2Qc 50 /\
      Obstacle.width obs = Q2Qc 60 /\ Obstacle.height obs = Q2Qc 50
  | seagull =>
      (Q2Qc 160 <= Obstacle.y obs /\ Obstacle.y obs <= Q2Qc 220) /\
      Obstacle.width obs = Q2Qc 50 /\ Obstacle.height obs = Q2Qc 30
  | jellyfish =>
      (Q2Qc 210 <= Obstacle.y obs /\ Obstacle.y obs <= Q2Qc 250) /\
      Obstacle.width obs = Q2Qc 35 /\ Obstacle.height obs = Q2Qc 45
  end.

(** The last tick of a jump in the air: the 37th tick lands. *)
Definition lastAirborne : nat := 36.

(** A point of the jump arc is still in the air when the landing test of
    the next tick fails. *)
Definition staysUp (k : nat) : bool :=
  negb (fst (fall (arc k)) >=? ground).

(** A bound on the height of the jump (on [crabY] from below). *)
Definition apex : Qc := Q2Qc 146.8.

Definition withinJump (k : nat) : bool :=
  negb (fst (arc k) <? apex) && negb (ground <? fst (arc k)).

(** ** What the input handlers queue *)

(** The updates of [startGame], applied to the queued state. *)
Definition startH (q : Hooks) : Hooks :=
  withParallaxOffset (fun _ => Q2Qc 0)
    (withGameSpeed (fun _ => Q2Qc 6)
       (withParticles (fun _ => [])
          (withObstacles (fun _ => [])
             (withIsJumping false
                (withIsSliding false
                   (withCrabVelocity (Q2Qc 0)
                      (withCrabY (GROUND_Y - CRAB_HEIGHT)
                         (withScore (fun _ => 0%Z)
                            (withGameState playing q))))))))).

Section InputEffects.

Context {browser : Browser}.

(** The world left by [jump]. *)
Definition jumpW (w : World) : World :=
  mkWorld (rendered w)
    (withParticles
       (fun prev =>
          prev ++ burst (Q2Qc 100) (GROUND_Y - Q2Qc 10) 5 "#00f5ff"
                        (particleIdRef w) (randomCalls w))
       (withIsJumping true (withCrabVelocity JUMP_FORCE (queued w))))
    (obstacleIdRef w) (particleIdRef w + 5)
    (lastObstacleTimeRef w) (frameCountRef w) (raf w) (timers w)
    (storage w) (clockCalls w) (15 + randomCalls w).

End InputEffects.

(** The world left by a slide request or by the end of a slide, with the
    pending timers it leaves. *)
Definition slideW (sliding : bool) (pending : nat) (w : World) : World :=
  mkWorld (rendered w) (withIsSliding sliding (queued w))
    (obstacleIdRef w) (particleIdRef w)
    (lastObstacleTimeRef w) (frameCountRef w) (raf w) pending
    (storage w) (clockCalls w) (randomCalls w).

(** ** What holds of the state *)

(** The stored high score as the component reads it (lines 37-40). *)
Definition stored (st : option Z) : Z :=
  match st with Some n => n | None => 0%Z end.

(** The player is on the ground at rest, or on the arc of a jump. *)
Definition onArc (h : Hooks) : Prop :=
  if isJumping h
  then exists k, (k <= lastAirborne)%nat /\ (crabY h, crabVelocity h) = arc k
  else crabY h = ground /\ crabVelocity h = Q2Qc 0.

Record Sound (h : Hooks) (nextParticle : Z) (st : option Z) : Prop := mkSound {
  sound_player : onArc h;
  sound_score : (0 <= score h)%Z;
  sound_field : Forall placed (obstacles h);
  sound_life :
    Forall (fun p => Q2Qc 0 < Particle.life p /\ Particle.life p < Q2Qc 50)
           (particles h);
  sound_pids :
    Forall (fun p => (Particle.id p < nextParticle)%Z) (particles h);
  sound_punique : NoDup (map Particle.id (particles h));
  sound_parallax :
    Q2Qc 0 <= parallaxOffset h /\ parallaxOffset h < Q2Qc 800;
  sound_high : highScore h = stored st
}.

(** While the game is playing the player overlaps no obstacle. *)
Definition clear (h : Hooks) : Prop :=
  gameState h = playing ->
  checkCollision (obstacles h) (crabY h) (isSliding h) = false.

(** [Sound] of what is queued. *)
Definition soundW (w : World) : Prop :=
  Sound (queued w) (particleIdRef w) (storage w).

(** ** The spawn clock *)

Section Clock.

Context {browser : Browser}.

(** The time of the last spawn was read from the clock, and the clock was
    read once per counted frame since. *)
Definition timed (w : World) : Prop :=
  exists c,
    lastObstacleTimeRef w = dateNow c /\
    Z.of_nat (clockCalls w) = (Z.of_nat c + 1 + frameCountRef w)%Z.

(** [lastObstacleTimeRef] holds a reading of the clock made at or after
    reading number [g]. *)
Definition since (g : nat) (w : World) : Prop :=
  exists c,
    (g <= c < clockCalls w)%nat /\ lastObstacleTimeRef w = dateNow c.

(** No obstacle is queued, the game is not over, and the spawn clock is
    [timed] while a frame is requested. *)
Definition Calm (w : World) : Prop :=
  obstacles (queued w) = [] /\
  gameState (queued w) <> gameover /\
  (raf w <> None -> timed w).

End Clock.

(** ** More sample worlds *)

(** The first rock, spawned at the first tick, is 4 pixels in front of
    the player after 117 ticks; the next tick ends the game. *)
Definition rockArrives : World :=
  @run slowRocks (KeyDown "Space" :: repeat AnimationFrame 117)
       (mount None).

(** The player 36 ticks after a jump, one tick before landing. *)
Definition aboutToLand (b : Browser) : World :=
  @run b (KeyDown "Space" :: KeyDown "Space" :: repeat AnimationFrame 36)
       (mount None).

(** A game lost in the air: the player jumps after 112 ticks, touches the
    lower half of the surface 3 ticks later, and the first rock reaches the
    slide hit box 3 ticks after that. *)
Definition crashed : World :=
  @run slowRocks
       (KeyDown "Space" :: repeat AnimationFrame 112
          ++ KeyDown "Space" :: repeat AnimationFrame 3
          ++ TouchStart (Q2Qc 300) (Q2Qc 400) :: repeat AnimationFrame 3)
       (mount None).

(** A game lost on the ground, between two increments of the score. *)
Definition crashedStanding : World :=
  @step slowRocks rockArrives AnimationFrame.

(** A particle to fall back on when a list of particles is empty. *)
Definition spark : Particle.t :=
  Particle.make 0 (Q2Qc 100) (Q2Qc 310) (Q2Qc 0) (Q2Qc (-3)) (Q2Qc 40)
                "#00f5ff".

(** * Facts *)

(** ** Numbers *)

Module NumFacts.

Lemma ltb_lt a b : Num.ltb a b = true <-> a < b.
Proof.
  unfold Num.ltb. rewrite Qclt_alt. destruct (a ?= b); split; congruence.
Qed.

Lemma ltb_ge a b : Num.ltb a b = false <-> b <= a.
Proof.
  split; intro H.
  - apply Qcnot_lt_le. intro L. apply ltb_lt in L. congruence.
  - destruct (Num.ltb a b) eqn:E; [|reflexivity].
    apply ltb_lt in E. exfalso. exact (Qcle_not_lt _ _ H E).
Qed.

Lemma geb_ge a b : Num.geb a b = true <-> b <= a.
Proof.
  unfold Num.geb. rewrite negb_true_iff. apply ltb_ge.
Qed.

Lemma eqb_eq a b : Num.eqb a b = true <-> a = b.
Proof.
  unfold Num.eqb. split.
  - apply Qc_eq_bool_correct.
  - intros ->. unfold Qc_eq_bool. destruct (Qc_eq_dec b b); congruence.
Qed.

Lemma eqb_refl a : Num.eqb a a = true.
Proof. now apply eqb_eq. Qed.

Lemma min_le_r a b : Num.min a b <= b.
Proof.
  unfold Num.min. destruct (Num.ltb b a) eqn:E.
  - apply Qcle_refl.
  - now apply ltb_ge.
Qed.

Lemma min_ge a b c : c <= a -> c <= b -> c <= Num.min a b.
Proof. unfold Num.min. now destruct (Num.ltb b a). Qed.

End NumFacts.

(** ** Symbolic execution of actions *)

Ltac act_cbn :=
  cbv [exec bind when ret gets modify fst snd
       rendered queued obstacleIdRef particleIdRef lastObstacleTimeRef
       frameCountRef raf timers storage clockCalls randomCalls
       gameState score highScore crabY crabVelocity isSliding isJumping
       obstacles obstaclesArray particles gameSpeed parallaxOffset
       updQueued withGameState withScore withHighScore withCrabY
       withCrabVelocity withIsSliding withIsJumping withObstacles
       withParticles withGameSpeed withParallaxOffset
       setGameState setScore setHighScore setCrabY setCrabVelocity
       setIsSliding setIsJumping setObstacles setParticles setGameSpeed
       setParallaxOffset commitRender setLastObstacleTime setFrameCount
       requestAnimationFrame cancelAnimationFrame setRaf setTimers
       localStorage_setItem
       Date_now Math_random nextObstacleId nextParticleId
       GameLoop.crabVelocity GameLoop.gameSpeed GameLoop.isJumping
       GameLoop.score gameLoopOf andb orb negb].

Ltac destruct_world w :=
  let r := fresh "r" in
  let q := fresh "q" in
  destruct w as [r q ? ? ? ? ? ? ? ? ?]; destruct r, q.

(** Case analysis on the test of a conditional of the goal. *)
Ltac split_if :=
  match goal with
  | |- context [if ?b then _ else _] =>
      lazymatch b with
      | context [if _ then _ else _] => fail
      | _ => destruct b eqn:?
      end
  end.

(** ** The type table

    [Math.random] is below 1, so the index computed by [spawnObstacle] is
    within the table of types. *)

Lemma pick_index_range (u : Unit01) :
  (0 <= Num.floor (sample u * Q2Qc 4) < 4)%Z.
Proof.
  destruct u as [r ok]. cbn [sample].
  apply andb_true_iff in ok. destruct ok as [lo hi].
  apply negb_true_iff, NumFacts.ltb_ge in lo. apply NumFacts.ltb_lt in hi.
  unfold Num.floor.
  assert (E : (this (r * Q2Qc 4) == this r * 4)%Q).
  { cbn [Qcmult this Q2Qc]. rewrite Qred_correct. 
    apply Qmult_comp; [reflexivity|]. apply Qred_correct. }
  rewrite E.
  assert (L : (0 <= this r)%Q) by exact lo.
  assert (H : (this r < 1)%Q) by exact hi.
  split.
  - change 0%Z with (Qfloor 0). apply Qfloor_resp_le.
    apply Qmult_le_0_compat; [exact L | discriminate].
  - apply Z.lt_nge. intro G.
    assert (B : (inject_Z 4 <= this r * 4)%Q).
    { eapply Qle_trans; [|apply Qfloor_le]. now rewrite <- Zle_Qle. }
    assert (C : (this r * 4 < 1 * 4)%Q).
    { apply Qmult_lt_compat_r; [reflexivity | exact H]. }
    apply (Qle_not_lt _ _ B). exact C.
Qed.

Lemma pickType_listed (u : Unit01) :
  nth_error types (Z.to_nat (Num.floor (sample u * Q2Qc 4)))
  = Some (pickType (sample u)).
Proof.
  unfold pickType. pose proof (pick_index_range u) as R.
  apply nth_error_nth'. cbn [types length]. lia.
Qed.

Section Facts.

Context {browser : Browser}.

Lemma newParticles_run x y n color : forall w,
  newParticles x y n color w =
  (burst x y n color (particleIdRef w) (randomCalls w),
   mkWorld (rendered w) (queued w) (obstacleIdRef w)
           (particleIdRef w + Z.of_nat n)
           (lastObstacleTimeRef w) (frameCountRef w) (raf w) (timers w)
           (storage w) (clockCalls w) (3 * n + randomCalls w)).
Proof.
  induction n as [|n IH]; intro w.
  - destruct w. cbn. unfold ret. now rewrite Z.add_0_r.
  - cbn [newParticles]. act_cbn. rewrite IH. act_cbn. cbn [burst].
    f_equal. f_equal; lia.
Qed.

Lemma createParticles_run x y n color w :
  createParticles x y n color w =
  (tt,
   mkWorld (rendered w)
     (withParticles
        (fun prev =>
           prev ++ burst x y n color (particleIdRef w) (randomCalls w))
        (queued w))
     (obstacleIdRef w) (particleIdRef w + Z.of_nat n)
     (lastObstacleTimeRef w) (frameCountRef w) (raf w) (timers w)
     (storage w) (clockCalls w) (3 * n + randomCalls w)).
Proof.
  unfold createParticles. act_cbn. now rewrite newParticles_run.
Qed.

Lemma spawnObstacle_run w :
  spawnObstacle w =
  (tt,
   mkWorld (rendered w)
     (withObstacles
        (fun prev => prev ++ [spawned (randomCalls w) (obstacleIdRef w)])
        (queued w))
     (obstacleIdRef w + 1) (particleIdRef w)
     (lastObstacleTimeRef w) (frameCountRef w) (raf w) (timers w)
     (storage w) (clockCalls w) (spawnDraws (randomCalls w) + randomCalls w)).
Proof.
  destruct_world w.
  unfold spawnObstacle, spawned, spawnDraws. act_cbn.
  destruct (pickType _); reflexivity.
Qed.

Lemma gameLoop_run cb w : gameLoop cb w = (tt, tickW cb w).
Proof.
  destruct_world w. destruct cb as [cv cs cj csc].
  unfold gameLoop, crabPhysics, tickW, spawnDue,
    airborne, lands.
  act_cbn.
  repeat (split_if; act_cbn; rewrite ?spawnObstacle_run; act_cbn);
    rewrite ?createParticles_run; reflexivity.
Qed.

Lemma render_run w : render w = (tt, renderW w).
Proof.
  destruct_world w.
  unfold render, loopCleanup, collisionEffect, loopEffect,
    renderW, hit, rearmed, expected, collides, afterHit.
  act_cbn.
  repeat (split_if; act_cbn); rewrite ?createParticles_run; reflexivity.
Qed.

(** An event is a handler followed by two renders. *)
Lemma step_renders w ev :
  step w ev = renderW (renderW (exec (handle ev) w)).
Proof.
  unfold step, dispatch, exec, bind.
  destruct (handle ev w) as [[] w1]. cbn [snd].
  now rewrite !render_run.
Qed.

(** ** Dependency lists *)

Lemma gameState_eqb_eq a b : gameState_eqb a b = true <-> a = b.
Proof. destruct a, b; cbn; split; congruence. Qed.

Lemma gameState_eqb_refl a : gameState_eqb a a = true.
Proof. now destruct a. Qed.

Lemma gameState_eqb_neq a b : gameState_eqb a b = false <-> a <> b.
Proof. destruct a, b; cbn; split; congruence. Qed.

Lemma loopDepsChanged_refl h : loopDepsChanged h h = false.
Proof.
  unfold loopDepsChanged, gameLoopChanged.
  now rewrite gameState_eqb_refl, !NumFacts.eqb_refl, Bool.eqb_reflx,
    Z.eqb_refl.
Qed.

Lemma collisionDepsChanged_refl h : collisionDepsChanged h h = false.
Proof.
  unfold collisionDepsChanged.
  now rewrite gameState_eqb_refl, NumFacts.eqb_refl, Bool.eqb_reflx,
    Nat.eqb_refl, !Z.eqb_refl.
Qed.

(** Unchanged dependencies mean the same callback and the same state. *)
Lemma loopDeps_unchanged a b :
  loopDepsChanged a b = false ->
  gameState a = gameState b /\ gameLoopOf a = gameLoopOf b.
Proof.
  unfold loopDepsChanged, gameLoopChanged, gameLoopOf.
  rewrite !orb_false_iff, !negb_false_iff.
  intros [G [[[V S] J] C]].
  apply gameState_eqb_eq in G. apply NumFacts.eqb_eq in V, S.
  apply Bool.eqb_prop in J. apply Z.eqb_eq in C.
  split; congruence.
Qed.

Lemma expected_unchanged a b :
  loopDepsChanged a b = false -> expected a = expected b.
Proof.
  intro U. destruct (loopDeps_unchanged _ _ U) as [G L].
  unfold expected. now rewrite G, L.
Qed.

Lemma score_changes_loop a b :
  score a <> score b -> loopDepsChanged a b = true.
Proof.
  intro N. unfold loopDepsChanged, gameLoopChanged.
  apply Z.eqb_neq in N. rewrite N. cbn. now rewrite !orb_true_r.
Qed.

(** ** Renders *)

Lemma afterHit_gameState h ps q : gameState (afterHit h ps q) = gameover.
Proof. unfold afterHit. now destruct (score h >? highScore h)%Z. Qed.

Lemma afterHit_gameSpeed h ps q : gameSpeed (afterHit h ps q) = gameSpeed q.
Proof. unfold afterHit. now destruct (score h >? highScore h)%Z, q. Qed.

Lemma afterHit_obstacles h ps q : obstacles (afterHit h ps q) = obstacles q.
Proof. unfold afterHit. now destruct (score h >? highScore h)%Z, q. Qed.

Lemma afterHit_crabY h ps q : crabY (afterHit h ps q) = crabY q.
Proof. unfold afterHit. now destruct (score h >? highScore h)%Z, q. Qed.

Lemma afterHit_crabVelocity h ps q :
  crabVelocity (afterHit h ps q) = crabVelocity q.
Proof. unfold afterHit. now destruct (score h >? highScore h)%Z, q. Qed.

Lemma afterHit_isSliding h ps q : isSliding (afterHit h ps q) = isSliding q.
Proof. unfold afterHit. now destruct (score h >? highScore h)%Z, q. Qed.

Lemma afterHit_isJumping h ps q : isJumping (afterHit h ps q) = isJumping q.
Proof. unfold afterHit. now destruct (score h >? highScore h)%Z, q. Qed.

Lemma afterHit_score h ps q : score (afterHit h ps q) = score q.
Proof. unfold afterHit. now destruct (score h >? highScore h)%Z, q. Qed.

Lemma collides_afterHit h ps q : collides (afterHit h ps q) = false.
Proof. unfold collides. now rewrite afterHit_gameState. Qed.

(** A render that follows a render finds no hit. *)
Lemma hit_renderW w : hit (renderW w) = false.
Proof.
  unfold hit, renderW. cbn [rendered queued].
  destruct (hit w) eqn:H.
  - now rewrite collides_afterHit, andb_false_r.
  - now rewrite collisionDepsChanged_refl.
Qed.

(** After two renders nothing is queued, so a third render would change
    nothing ([renderW_idle] below). *)
Lemma render_settled w :
  queued (renderW (renderW w)) = rendered (renderW (renderW w)).
Proof.
  set (w1 := renderW w).
  unfold renderW at 1 2. cbn [rendered queued].
  unfold w1. now rewrite hit_renderW.
Qed.

(** ** Invariants *)

Lemma render_Mid w :
  Mid w -> Mid (renderW w) /\ (frameCountRef (renderW w) <= 9)%Z.
Proof.
  intros [R F T S I U].
  assert (F9 : (0 <= frameCountRef (renderW w) <= 9)%Z).
  { unfold renderW. cbn [frameCountRef].
    destruct (rearmed w) eqn:A; [lia|].
    assert (frameCountRef w <> 10%Z) by (intro E; apply T in E; congruence).
    lia. }
  split; [|apply F9].
  constructor.
  - unfold renderW. cbn [raf rendered].
    destruct (loopDepsChanged (rendered w) (queued w)) eqn:L; [reflexivity|].
    rewrite R. now apply expected_unchanged.
  - lia.
  - intro E. lia.
  - unfold renderW. cbn [queued].
    destruct (hit w); [now rewrite afterHit_gameSpeed | assumption].
  - unfold renderW. cbn [queued obstacleIdRef].
    destruct (hit w); [now rewrite afterHit_obstacles | assumption].
  - unfold renderW. cbn [queued].
    destruct (hit w); [now rewrite afterHit_obstacles | assumption].
Qed.

Lemma renders_Inv w : Mid w -> Inv (renderW (renderW w)).
Proof.
  intro M.
  destruct (render_Mid M) as [M1 _].
  destruct (render_Mid M1) as [[R F T S I U] F9].
  pose proof (render_settled w) as E.
  constructor; trivial.
  - lia.
  - now rewrite <- E.
  - now rewrite <- E.
  - now rewrite <- E.
Qed.

Lemma Inv_Mid w : Inv w -> Mid w.
Proof.
  intros [E R F S I U]. constructor; trivial.
  - lia.
  - intro. lia.
  - now rewrite E.
  - now rewrite E.
  - now rewrite E.
Qed.

Lemma advanceObstacles_ids speed prev bound :
  Forall (fun obs => (Obstacle.id obs < bound)%Z) prev ->
  Forall (fun obs => (Obstacle.id obs < bound)%Z)
         (advanceObstacles speed prev).
Proof.
  intro F. unfold advanceObstacles.
  apply Forall_forall. intros obs I.
  apply filter_In in I. destruct I as [I _].
  apply in_map_iff in I. destruct I as [o [<- I]].
  rewrite Forall_forall in F. exact (F o I).
Qed.

Lemma advanceObstacles_sub speed prev id :
  In id (map Obstacle.id (advanceObstacles speed prev)) ->
  In id (map Obstacle.id prev).
Proof.
  unfold advanceObstacles. intro I.
  apply in_map_iff in I. destruct I as [o' [<- I]].
  apply filter_In in I. destruct I as [I _].
  apply in_map_iff in I. destruct I as [o [<- I]].
  apply in_map_iff. now exists o.
Qed.

Lemma advanceObstacles_unique speed prev :
  NoDup (map Obstacle.id prev) ->
  NoDup (map Obstacle.id (advanceObstacles speed prev)).
Proof.
  induction prev as [|obs prev IH]; intro U; [constructor|].
  inversion U as [|? ? N U']; subst.
  unfold advanceObstacles. cbn [map filter].
  fold (advanceObstacles speed prev).
  destruct (Obstacle.x (moveObstacle speed obs) >? Q2Qc (-100)).
  - cbn [map]. constructor; [|now apply IH].
    intro I. apply N. now apply advanceObstacles_sub in I.
  - now apply IH.
Qed.

Lemma spawned_id rc id : Obstacle.id (spawned rc id) = id.
Proof. unfold spawned. now destruct (pickType _). Qed.

Lemma expected_Some h cb :
  expected h = Some cb -> gameState h = playing /\ cb = gameLoopOf h.
Proof.
  unfold expected. destruct (gameState_eqb (gameState h) playing) eqn:G.
  - apply gameState_eqb_eq in G. intro E. split; congruence.
  - discriminate.
Qed.

Lemma expected_playing h :
  gameState h = playing -> expected h = Some (gameLoopOf h).
Proof. intro G. unfold expected. now rewrite G. Qed.

Lemma expected_idle h : gameState h <> playing -> expected h = None.
Proof.
  intro G. unfold expected. apply gameState_eqb_neq in G. now rewrite G.
Qed.

(** The handler of an animation frame. *)
Lemma handle_frame w :
  exec (handle AnimationFrame) w =
  match raf w with
  | None => w
  | Some cb =>
      tickW cb (consumed w)
  end.
Proof.
  unfold handle, animationFrame. act_cbn.
  destruct w as [r q ? ? ? ? [cb|] ? ? ? ?]; act_cbn; [|reflexivity].
  now rewrite gameLoop_run.
Qed.

Lemma tick_Mid w cb :
  Inv w -> raf w = Some cb ->
  Mid (tickW cb (consumed w)).
Proof.
  intros [E R F S I U] C.
  rewrite C in R. symmetry in R.
  destruct (expected_Some _ R) as [G ->].
  assert (N300 : (Z.rem (frameCountRef w + 1) 300 =? 0)%Z = false).
  { apply Z.eqb_neq. rewrite Z.rem_small; lia. }
  constructor; unfold tickW, consumed;
    cbn [rendered queued raf frameCountRef obstacleIdRef gameSpeed obstacles].
  - now symmetry.
  - lia.
  - intro T. unfold rearmed. cbn [rendered queued gameState score].
    rewrite E, G. cbn [gameState_eqb]. rewrite andb_true_r.
    apply score_changes_loop. cbn [score].
    replace (frameCountRef w + 1)%Z with 10%Z by lia. cbn. lia.
  - rewrite N300, E. exact S.
  - rewrite E.
    destruct (spawnDue _ _).
    + apply Forall_app. split.
      * apply advanceObstacles_ids. eapply Forall_impl; [|exact I].
        cbv beta. intros. lia.
      * constructor; [|constructor]. rewrite spawned_id. lia.
    + now apply advanceObstacles_ids.
  - rewrite E.
    destruct (spawnDue _ _); [|now apply advanceObstacles_unique].
    rewrite map_app. cbn [map]. rewrite spawned_id.
    apply NoDup_app.
    + now apply advanceObstacles_unique.
    + constructor; [intros []|constructor].
    + intros id A [<-|[]]. apply advanceObstacles_sub in A.
      apply in_map_iff in A. destruct A as [o [O A]].
      rewrite Forall_forall in I. specialize (I o A). lia.
Qed.

(** What the handlers of the input events leave alone. *)
Lemma handle_input w ev :
  ev <> AnimationFrame ->
  let w' := exec (handle ev) w in
  rendered w' = rendered w /\ raf w' = raf w /\
  frameCountRef w' = frameCountRef w /\
  obstacleIdRef w' = obstacleIdRef w /\
  (gameSpeed (queued w') = gameSpeed (queued w) \/
   gameSpeed (queued w') = Q2Qc 6) /\
  (obstacles (queued w') = obstacles (queued w) \/
   obstacles (queued w') = []).
Proof.
  intro N.
  destruct w as [[gs ? ? ? ? ? ? ? ? ? ? ?] [? ? ? ? ? ? ? ? ? ? ? ?]
                 ? ? ? ? ? tm ? ? ?].
  destruct ev as [|code|code|y height|]; [congruence| | | |];
    destruct gs, tm;
    unfold handle, handleKeyDown, handleKeyUp, handleTouch, slideTimeout,
      startGame, jump;
    act_cbn;
    repeat (split_if; act_cbn); rewrite ?createParticles_run; act_cbn;
    repeat split; auto.
Qed.

Lemma handle_Mid w ev : Inv w -> Mid (exec (handle ev) w).
Proof.
  intro V.
  destruct ev as [|code|code|y height|].
  1: { rewrite handle_frame. destruct (raf w) as [cb|] eqn:C.
       - now apply tick_Mid.
       - now apply Inv_Mid. }
  all: match goal with |- Mid (exec (handle ?e) ?w0) =>
         assert (N : e <> AnimationFrame) by discriminate;
         destruct (handle_input w0 N) as [R [A [F [O [S B]]]]];
         destruct V as [E VR VF VS VI VU]
       end.
  all: constructor; rewrite ?R, ?A, ?F, ?O; trivial; try lia.
  all: try (destruct S as [S|S]; rewrite S; [now rewrite E | reflexivity]).
  all: try (destruct B as [B|B]; rewrite B; [now rewrite E | constructor]).
Qed.

Lemma mount_Inv saved : Inv (mount saved).
Proof. constructor; cbn; try reflexivity; try lia; constructor. Qed.

Lemma step_Inv w ev : Inv w -> Inv (step w ev).
Proof.
  intro V. rewrite step_renders. now apply renders_Inv, handle_Mid.
Qed.

Lemma run_Inv evs : forall w, Inv w -> Inv (run evs w).
Proof.
  induction evs as [|ev evs IH]; intros w V; [exact V|].
  cbn. now apply IH, step_Inv.
Qed.

Lemma reachable_Inv w : reachable w -> Inv w.
Proof.
  intros [saved [evs ->]]. apply run_Inv, mount_Inv.
Qed.

Lemma reachable_step w ev : reachable w -> reachable (step w ev).
Proof.
  intros [saved [evs ->]]. exists saved, (evs ++ [ev]).
  unfold run. now rewrite fold_left_app.
Qed.

Lemma reachable_run evs w : reachable w -> reachable (run evs w).
Proof.
  intros [saved [evs0 ->]]. exists saved, (evs0 ++ evs).
  unfold run. now rewrite fold_left_app.
Qed.

(** ** Events, seen from the rendered state *)

(** With nothing queued and the dependencies unchanged, a render changes
    nothing. *)
Lemma renderW_idle w : queued w = rendered w -> renderW w = w.
Proof.
  destruct w as [r q ? ? ? ? ? ? ? ? ?]. cbn [queued rendered]. intros ->.
  unfold renderW, hit, rearmed. cbn [queued rendered].
  now rewrite loopDepsChanged_refl, collisionDepsChanged_refl.
Qed.

(** The state rendered after an event: what the handler queued, with the
    game over if the collision effect of the first render found a hit. *)
Lemma step_rendered w ev :
  let w1 := exec (handle ev) w in
  rendered (step w ev) =
  if hit w1
  then afterHit (queued w1)
         (burst (Q2Qc 120) (crabY (queued w1) + Q2Qc 20) 20 "#ff2d95"
                (particleIdRef w1) (randomCalls w1))
         (queued w1)
  else queued w1.
Proof. cbv zeta. rewrite step_renders. reflexivity. Qed.

Lemma step_obstacles w ev :
  obstacles (rendered (step w ev)) = obstacles (queued (exec (handle ev) w)).
Proof.
  rewrite step_rendered. cbv zeta.
  destruct (hit _); [apply afterHit_obstacles | reflexivity].
Qed.

Lemma step_crabY w ev :
  crabY (rendered (step w ev)) = crabY (queued (exec (handle ev) w)).
Proof.
  rewrite step_rendered. cbv zeta.
  destruct (hit _); [apply afterHit_crabY | reflexivity].
Qed.

Lemma step_crabVelocity w ev :
  crabVelocity (rendered (step w ev)) =
  crabVelocity (queued (exec (handle ev) w)).
Proof.
  rewrite step_rendered. cbv zeta.
  destruct (hit _); [apply afterHit_crabVelocity | reflexivity].
Qed.

Lemma step_isJumping w ev :
  isJumping (rendered (step w ev)) = isJumping (queued (exec (handle ev) w)).
Proof.
  rewrite step_rendered. cbv zeta.
  destruct (hit _); [apply afterHit_isJumping | reflexivity].
Qed.

Lemma step_isSliding w ev :
  isSliding (rendered (step w ev)) = isSliding (queued (exec (handle ev) w)).
Proof.
  rewrite step_rendered. cbv zeta.
  destruct (hit _); [apply afterHit_isSliding | reflexivity].
Qed.

Lemma step_gameState w ev :
  gameState (rendered (step w ev)) =
  if hit (exec (handle ev) w) then gameover
  else gameState (queued (exec (handle ev) w)).
Proof.
  rewrite step_rendered. cbv zeta.
  destruct (hit _); [apply afterHit_gameState | reflexivity].
Qed.

Lemma step_obstacleIdRef w ev :
  obstacleIdRef (step w ev) = obstacleIdRef (exec (handle ev) w).
Proof. rewrite step_renders. reflexivity. Qed.

(** While playing, an animation frame runs the callback of the current
    render. *)
Lemma handle_frame_playing w :
  Inv w -> gameState (rendered w) = playing ->
  exec (handle AnimationFrame) w = tickW (gameLoopOf (rendered w)) (consumed w).
Proof.
  intros V G. rewrite handle_frame, (inv_raf V), (expected_playing _ G).
  reflexivity.
Qed.

(** Otherwise no callback is requested and the frame does nothing. *)
Lemma frame_idle w :
  Inv w -> gameState (rendered w) <> playing -> step w AnimationFrame = w.
Proof.
  intros V G. rewrite step_renders, handle_frame, (inv_raf V),
    (expected_idle _ G).
  now rewrite !(renderW_idle w (inv_settled V)).
Qed.

(** The array of obstacles is new after every tick, so the collision
    effect runs after every tick. *)
Lemma tick_collisionDeps cb w :
  queued w = rendered w ->
  collisionDepsChanged (rendered (tickW cb w)) (queued (tickW cb w)) = true.
Proof.
  intro E. unfold tickW, collisionDepsChanged.
  cbn [rendered queued obstaclesArray]. rewrite E.
  assert (A : forall (n : nat) (b : bool),
             (n =? (if b then S (S n) else S n))%nat = false).
  { intros n b. apply Nat.eqb_neq. destruct b; lia. }
  rewrite A. cbn [negb]. now rewrite !orb_true_r.
Qed.

(** The tick of the source is the tick in the order of the
    specification. *)
Lemma tick_in_order w :
  queued w = rendered w ->
  exec Ordered.tick w =
  renderW (renderW (tickW (gameLoopOf (rendered w)) (consumed w))).
Proof.
  intro E.
  unfold Ordered.tick, Ordered.evaluateCollision, exec, bind.
  assert (T : forall k : Act unit,
    (setRaf None ;; Ordered.countFrame ;; Ordered.advanceParallax ;;
     Ordered.integratePlayer ;; Ordered.advanceField ;;
     Ordered.integrateParticles ;; Ordered.maybeSpawn ;; Ordered.maybeRamp ;;
     Ordered.maybeScore ;; Ordered.emitSand ;; Ordered.requestNext ;; k)%act w
    = k (tickW (gameLoopOf (rendered w)) (consumed w))).
  { intro k. destruct_world w. cbn [queued rendered] in E.
    injection E as -> -> -> -> -> -> -> -> -> -> -> ->.
    unfold Ordered.countFrame, Ordered.advanceParallax,
      Ordered.integratePlayer, Ordered.advanceField,
      Ordered.integrateParticles, Ordered.maybeSpawn, Ordered.maybeRamp,
      Ordered.maybeScore, Ordered.emitSand, Ordered.requestNext,
      crabPhysics, tickW, consumed, spawnDue, airborne, lands.
    act_cbn.
    repeat (split_if; act_cbn; rewrite ?spawnObstacle_run; act_cbn);
      rewrite ?createParticles_run; reflexivity. }
  unfold bind in T. rewrite T. now rewrite !render_run.
Qed.

Lemma step_renders_frame w :
  Inv w -> gameState (rendered w) = playing ->
  step w AnimationFrame =
  renderW (renderW (tickW (gameLoopOf (rendered w)) (consumed w))).
Proof.
  intros V G. now rewrite step_renders, (handle_frame_playing V G).
Qed.

(** ** Ticks, seen from the rendered state *)

Section Tick.

Variable w : World.
Hypothesis V : Inv w.
Hypothesis G : gameState (rendered w) = playing.

Let h := rendered w.
Let cb := gameLoopOf h.
Let h' := rendered (step w AnimationFrame).

Lemma tick_crabY :
  crabY h' =
  if airborne cb (crabY h)
  then if lands cb (crabY h) then GROUND_Y - CRAB_HEIGHT
       else crabY h + (crabVelocity h + GRAVITY)
  else crabY h.
Proof.
  unfold h'. rewrite step_crabY, (handle_frame_playing V G).
  unfold tickW, consumed. cbn [queued crabY]. now rewrite (inv_settled V).
Qed.

Lemma tick_crabVelocity :
  crabVelocity h' =
  if airborne cb (crabY h)
  then if lands cb (crabY h) then Q2Qc 0 else crabVelocity h + GRAVITY
  else crabVelocity h.
Proof.
  unfold h'. rewrite step_crabVelocity, (handle_frame_playing V G).
  unfold tickW, consumed. cbn [queued crabVelocity].
  now rewrite (inv_settled V).
Qed.

Lemma tick_isJumping :
  isJumping h' =
  if airborne cb (crabY h) && lands cb (crabY h) then false
  else isJumping h.
Proof.
  unfold h'. rewrite step_isJumping, (handle_frame_playing V G).
  unfold tickW, consumed. cbn [queued isJumping].
  now rewrite (inv_settled V).
Qed.

Lemma tick_isSliding : isSliding h' = isSliding h.
Proof.
  unfold h'. rewrite step_isSliding, (handle_frame_playing V G).
  unfold tickW, consumed. cbn [queued isSliding].
  now rewrite (inv_settled V).
Qed.

Lemma tick_obstacles :
  obstacles h' =
  if (dateNow (clockCalls w) - lastObstacleTimeRef w
        >? spawnIntervalMs (score h))%Z
  then advanceObstacles (gameSpeed h) (obstacles h)
         ++ [spawned (randomCalls w) (obstacleIdRef w)]
  else advanceObstacles (gameSpeed h) (obstacles h).
Proof.
  unfold h'. rewrite step_obstacles, (handle_frame_playing V G).
  unfold tickW, consumed, spawnDue.
  cbn [queued obstacles clockCalls lastObstacleTimeRef randomCalls
       obstacleIdRef GameLoop.score GameLoop.gameSpeed cb gameLoopOf].
  now rewrite (inv_settled V).
Qed.

Lemma tick_obstacleIdRef :
  (obstacleIdRef w <= obstacleIdRef (step w AnimationFrame))%Z.
Proof.
  rewrite step_obstacleIdRef, (handle_frame_playing V G).
  unfold tickW. cbn [obstacleIdRef consumed].
  destruct (spawnDue _ _); lia.
Qed.

End Tick.

(** ** Obstacle ids *)

Lemma same_id_same_obstacle (l : list Obstacle.t) a b :
  NoDup (map Obstacle.id l) -> In a l -> In b l ->
  Obstacle.id a = Obstacle.id b -> a = b.
Proof.
  induction l as [|o l IH]; intros U A B E; [contradiction|].
  cbn [map] in U. inversion U as [|? ? N U']; subst.
  destruct A as [->|A], B as [->|B]; trivial.
  - exfalso. apply N. rewrite E. now apply in_map.
  - exfalso. apply N. rewrite <- E. now apply in_map.
  - now apply IH.
Qed.

(** An id that was given out and is not in the field stays out of it. *)
Lemma gone_step w ev id :
  Inv w -> (id < obstacleIdRef w)%Z ->
  ~ In id (map Obstacle.id (obstacles (rendered w))) ->
  ~ In id (map Obstacle.id (obstacles (rendered (step w ev)))) /\
  (id < obstacleIdRef (step w ev))%Z.
Proof.
  intros V O A.
  destruct ev as [|code|code|y height|].
  1: { destruct (gameState_eqb (gameState (rendered w)) playing) eqn:G.
       - apply gameState_eqb_eq in G. split.
         + rewrite (tick_obstacles V G). intro I.
           assert (I' : In id (map Obstacle.id
                     (advanceObstacles (gameSpeed (rendered w))
                                       (obstacles (rendered w)))) \/
                        id = obstacleIdRef w).
           { destruct (_ >? _)%Z; [|now left].
             rewrite map_app in I. apply in_app_or in I.
             destruct I as [I|[I|[]]]; [now left|right].
             now rewrite spawned_id in I. }
           destruct I' as [I'|I']; [|lia].
           now apply advanceObstacles_sub in I'.
         + pose proof (tick_obstacleIdRef V G). lia.
       - apply gameState_eqb_neq in G. now rewrite (frame_idle V G). }
  all: rewrite step_obstacles, step_obstacleIdRef.
  all: match goal with |- context [exec (handle ?e) ?w0] =>
         assert (N : e <> AnimationFrame) by discriminate;
         destruct (handle_input w0 N) as [_ [_ [_ [I [_ B]]]]]
       end.
  all: rewrite I; split; [|exact O].
  all: destruct B as [B|B]; rewrite B;
    [now rewrite (inv_settled V) | intros []].
Qed.

Lemma gone_run evs : forall w id,
  Inv w -> (id < obstacleIdRef w)%Z ->
  ~ In id (map Obstacle.id (obstacles (rendered w))) ->
  ~ In id (map Obstacle.id (obstacles (rendered (run evs w)))).
Proof.
  induction evs as [|ev evs IH]; intros w id V O A; [exact A|].
  cbn [run fold_left].
  destruct (gone_step ev V O A) as [A' O'].
  apply IH; trivial. now apply step_Inv.
Qed.

(** ** Outside a run *)

(** A render of a state that is not playing finds no hit and arms
    nothing. *)
Lemma renderW_not_playing x :
  gameState (queued x) <> playing ->
  queued (renderW x) = queued x /\
  frameCountRef (renderW x) = frameCountRef x /\
  clockCalls (renderW x) = clockCalls x.
Proof.
  intro G. apply gameState_eqb_neq in G.
  unfold renderW, hit, rearmed, collides. cbn [queued frameCountRef clockCalls].
  rewrite G. cbn [andb]. now rewrite !andb_false_r.
Qed.

(** What an event other than a start request does in the menu or after
    the game is over. *)
Lemma handle_idle w ev :
  gameState (rendered w) <> playing -> raf w = None ->
  requestsStart ev = false ->
  let w' := exec (handle ev) w in
  gameState (queued w') = gameState (queued w) /\
  score (queued w') = score (queued w) /\
  crabY (queued w') = crabY (queued w) /\
  obstacles (queued w') = obstacles (queued w) /\
  frameCountRef w' = frameCountRef w /\
  clockCalls w' = clockCalls w.
Proof.
  intros G A S.
  destruct w as [[gs ? ? ? ? ? ? ? ? ? ? ?] [? ? ? ? ? ? ? ? ? ? ? ?]
                 ? ? ? ? ? tm ? ? ?].
  cbn [rendered gameState raf] in G, A. subst.
  destruct ev as [|code|code|y height|]; cbn [requestsStart] in S;
    try discriminate;
    (destruct gs; [|congruence|]); destruct tm;
    unfold handle, animationFrame, handleKeyDown, handleKeyUp, slideTimeout;
    act_cbn; rewrite ?S; act_cbn;
    repeat (split_if; act_cbn); repeat split.
Qed.

Lemma idle_step w ev :
  Inv w -> gameState (rendered w) <> playing -> requestsStart ev = false ->
  let w' := step w ev in
  gameState (rendered w') = gameState (rendered w) /\
  score (rendered w') = score (rendered w) /\
  crabY (rendered w') = crabY (rendered w) /\
  obstacles (rendered w') = obstacles (rendered w) /\
  frameCountRef w' = frameCountRef w /\
  clockCalls w' = clockCalls w.
Proof.
  intros V G S. cbv zeta.
  pose proof (inv_settled V) as E.
  assert (A : raf w = None) by now rewrite (inv_raf V), expected_idle.
  destruct (handle_idle w ev G A S) as [G1 [S1 [Y1 [O1 [F1 C1]]]]].
  rewrite E in G1, S1, Y1, O1.
  assert (Q : queued (step w ev) = rendered (step w ev))
    by (rewrite step_renders; apply render_settled).
  rewrite <- Q, step_renders.
  set (w1 := exec (handle ev) w) in *.
  assert (N1 : gameState (queued w1) <> playing) by now rewrite G1.
  destruct (renderW_not_playing w1 N1) as [Q2 [F2 C2]].
  assert (N2 : gameState (queued (renderW w1)) <> playing) by now rewrite Q2.
  destruct (renderW_not_playing (renderW w1) N2) as [Q3 [F3 C3]].
  rewrite Q3, Q2, F3, F2, C3, C2. repeat split; assumption.
Qed.

Lemma idle_run evs : forall w,
  Inv w -> gameState (rendered w) <> playing -> noStart evs = true ->
  let w' := run evs w in
  gameState (rendered w') = gameState (rendered w) /\
  score (rendered w') = score (rendered w) /\
  crabY (rendered w') = crabY (rendered w) /\
  obstacles (rendered w') = obstacles (rendered w) /\
  frameCountRef w' = frameCountRef w /\
  clockCalls w' = clockCalls w.
Proof.
  induction evs as [|ev evs IH]; intros w V G N; cbv zeta.
  - repeat split.
  - cbn [noStart forallb] in N. apply andb_true_iff in N.
    destruct N as [S N]. apply negb_true_iff in S.
    destruct (idle_step ev V G S) as [G1 [S1 [Y1 [O1 [F1 C1]]]]].
    cbn [run fold_left].
    assert (G' : gameState (rendered (step w ev)) <> playing)
      by now rewrite G1.
    destruct (IH (step w ev) (step_Inv ev V) G' N) as [G2 [S2 [Y2 [O2 [F2 C2]]]]].
    unfold run in *.
    rewrite G2, S2, Y2, O2, F2, C2. repeat split; assumption.
Qed.

(** ** Keys *)

Lemma isCode_cases code names :
  isCode code names = true -> In code names.
Proof.
  unfold isCode. rewrite existsb_exists. intros [n [I E]].
  apply String.eqb_eq in E. now subst.
Qed.

End Facts.

(** * Collision detection *)

Lemma overlaps_true crabYPos sliding obs :
  overlaps crabYPos sliding obs = true <->
  crabX < Obstacle.x obs + Obstacle.width obs /\
  Obstacle.x obs < crabX + CRAB_WIDTH /\
  crabYOffset crabYPos sliding < Obstacle.y obs + Obstacle.height obs /\
  Obstacle.y obs < crabYOffset crabYPos sliding + crabH sliding.
Proof.
  unfold overlaps, Num.gtb.
  rewrite !andb_true_iff, !NumFacts.ltb_lt. tauto.
Qed.

Lemma overlaps_false crabYPos sliding obs :
  overlaps crabYPos sliding obs = false <-> separated crabYPos sliding obs.
Proof.
  unfold overlaps, separated, Num.gtb.
  rewrite !andb_false_iff, !NumFacts.ltb_ge. tauto.
Qed.

Lemma overlaps_not_separated crabYPos sliding obs :
  overlaps crabYPos sliding obs = true <-> ~ separated crabYPos sliding obs.
Proof.
  rewrite <- overlaps_false. destruct (overlaps crabYPos sliding obs); split; congruence.
Qed.

Lemma checkCollision_existsb obstacles crabYPos sliding :
  checkCollision obstacles crabYPos sliding =
  existsb (overlaps crabYPos sliding) obstacles.
Proof.
  induction obstacles as [|obs rest IH]; simpl; [reflexivity|].
  rewrite IH. now destruct (overlaps crabYPos sliding obs).
Qed.

Lemma checkCollision_false obstacles crabYPos sliding :
  checkCollision obstacles crabYPos sliding = false <->
  Forall (separated crabYPos sliding) obstacles.
Proof.
  induction obstacles as [|obs rest IH]; simpl.
  - split; [constructor | reflexivity].
  - destruct (overlaps crabYPos sliding obs) eqn:E.
    + split; [discriminate|]. intro F. inversion F as [|? ? S _]; subst.
      apply overlaps_false in S. congruence.
    + rewrite IH. split.
      * intro F. constructor; [now apply overlaps_false | exact F].
      * intro F. now inversion F.
Qed.

(** ** On binary64 numbers *)

Module Binary64Facts.

Import Floats.








End Binary64Facts.


(** The far edges are rounded sums: an obstacle at y = 0.1 of height 0.7
    has its bottom edge at 0.7999999999999999, the nearest binary64
    number below the exact sum, and a player whose top edge is there does
    not collide with it. *)
Lemma rounded_bottom_edge :
  Binary64.checkCollision [Binary64.thinObstacle] Binary64.justBelow false
  = false /\
  (Binary64.exact Binary64.justBelow
   < Binary64.exact (Binary64.Obstacle.y Binary64.thinObstacle)
     + Binary64.exact (Binary64.Obstacle.height Binary64.thinObstacle))%Q.
Proof. split; vm_compute; reflexivity. Qed.

(** C3. The slide hitbox is 20 high, strictly less than the full height 40,
    and spans 300..320 whatever the player's vertical position; a sliding
    player does not collide with obstacles whose bottom edge is at or above
    300. *)
Theorem sliding_hitbox_clears_high_obstacles
        (obstacles : list Obstacle.t) (crabYPos : Qc)
        (above : forall obs, In obs obstacles ->
                   Obstacle.y obs + Obstacle.height obs <= crabYOffset crabYPos true) :
  crabH true < crabH false /\
  crabYOffset crabYPos true + crabH true = GROUND_Y /\
  crabYOffset crabYPos true = GROUND_Y - SLIDE_HEIGHT /\
  crabYOffset crabYPos false = crabYPos /\
  checkCollision obstacles crabYPos true = false.
Proof.
  split; [reflexivity|].
  split; [now apply Qc_is_canon|].
  split; [reflexivity|].
  split; [reflexivity|].
  apply checkCollision_false, Forall_forall. intros obs I.
  right. right. left. now apply above.
Qed.

(** C10. The four comparisons are strict, so an obstacle that only shares
    an edge with the player rectangle does not collide with it. *)
Theorem touching_is_not_collision
        (obstacles : list Obstacle.t) (crabYPos : Qc) (sliding : bool)
        (edge : forall obs, In obs obstacles -> touches crabYPos sliding obs) :
  checkCollision obstacles crabYPos sliding = false.
Proof.
  apply checkCollision_false, Forall_forall. intros obs I.
  destruct (edge obs I) as [E|[E|[E|E]]]; unfold separated.
  - left. rewrite E. apply Qcle_refl.
  - right. left. rewrite E. apply Qcle_refl.
  - right. right. left. rewrite E. apply Qcle_refl.
  - right. right. right. rewrite E. apply Qcle_refl.
Qed.

(** * The run loop *)

Section Claims.

Context {browser : Browser}.

(** C1. Between two events of a reachable world: an animation frame
    changes nothing unless the game is playing, and in the menu or after
    the game is over no sequence of events without a start request makes
    the game play, counts a frame, reads the clock, or changes the score,
    the player's position or the obstacles; while playing, the frame is
    the tick of the specification (frame count, parallax, player,
    obstacles, particles, spawn, ramp, score, then the collision test),
    and the state rendered after it is the game over exactly when the
    moved obstacles collide with the moved player. *)
Theorem tick_only_while_playing_in_order (w : World) (R : reachable w) :
  (gameState (rendered w) <> playing ->
   (forall n, run (repeat AnimationFrame n) w = w) /\
   (forall evs, noStart evs = true ->
      let w' := run evs w in
      gameState (rendered w') = gameState (rendered w) /\
      score (rendered w') = score (rendered w) /\
      crabY (rendered w') = crabY (rendered w) /\
      obstacles (rendered w') = obstacles (rendered w) /\
      frameCountRef w' = frameCountRef w /\
      clockCalls w' = clockCalls w)) /\
  (gameState (rendered w) = playing ->
   let w' := step w AnimationFrame in
   w' = exec Ordered.tick w /\
   gameState (rendered w') =
   if checkCollision (obstacles (rendered w')) (crabY (rendered w'))
                     (isSliding (rendered w'))
   then gameover else playing).
Proof.
  pose proof (reachable_Inv R) as V. split.
  - intros G. split.
    + intro n. induction n as [|n IH]; [reflexivity|].
      cbn [repeat run fold_left]. rewrite (frame_idle V G). exact IH.
    + intros evs N. now apply idle_run.
  - intros G w'. subst w'. split.
    + rewrite (tick_in_order w (inv_settled V)). apply step_renders_frame.
      * exact V.
      * exact G.
    + rewrite step_gameState, step_obstacles, step_crabY, step_isSliding.
      rewrite (handle_frame_playing V G).
      set (w1 := tickW _ _).
      unfold hit. unfold w1 at 1 2.
      rewrite tick_collisionDeps by apply (inv_settled V).
      cbn [andb]. unfold collides.
      assert (P : gameState (queued w1) = playing).
      { unfold w1, tickW, consumed. cbn [queued gameState].
        now rewrite (inv_settled V). }
      rewrite P. cbn [gameState_eqb andb].
      now destruct (checkCollision _ _ _).
Qed.

Lemma ramp_bounds (prev : Qc) :
  prev <= Q2Qc 15 ->
  prev <= Num.min (prev + Q2Qc 0.5) (Q2Qc 15) /\
  Num.min (prev + Q2Qc 0.5) (Q2Qc 15) <= Q2Qc 15.
Proof.
  intro B. split; [|apply NumFacts.min_le_r].
  apply NumFacts.min_ge; [|exact B].
  rewrite <- (Qcplus_0_r prev) at 1.
  apply Qcplus_le_compat; [apply Qcle_refl | now vm_compute].
Qed.

(** C6, as the code has it.  The loop effect depends on [gameLoop], which
    is rebuilt whenever the score changes, and the effect resets the
    frame counter each time it runs: the counter never passes 10, the
    test [frameCountRef.current % 300 === 0] never succeeds and the
    scroll speed keeps its base value 6 throughout every run.  The speed
    is therefore never decreasing and never above the cap 15, but it does
    not increase by 0.5 every 300 ticks. *)
Theorem gameSpeed_never_ramps (saved : option Z) (evs : list Event) :
  let w := run evs (mount saved) in
  gameSpeed (rendered w) = Q2Qc 6 /\ (0 <= frameCountRef w <= 9)%Z.
Proof.
  cbv zeta.
  assert (V : Inv (run evs (mount saved))) by apply run_Inv, mount_Inv.
  split; [apply (inv_speed V) | apply (inv_frames V)].
Qed.

(** C8. In the menu or after the game is over, an event that requests a
    start (Space or Enter, or a touch) leaves the game playing with
    score 0, the player on the ground, neither jumping nor sliding, with
    velocity 0, no obstacle, no particle, scroll speed 6, the frame
    counter at 0 and the parallax offset at 0. *)
Theorem start_resets (w : World) (ev : Event)
        (idle : gameState (rendered w) <> playing)
        (start : requestsStart ev = true) :
  let w' := step w ev in
  let h := rendered w' in
  gameState h = playing /\
  score h = 0%Z /\
  crabY h = GROUND_Y - CRAB_HEIGHT /\
  crabVelocity h = Q2Qc 0 /\
  stance h = Standing /\
  isSliding h = false /\
  isJumping h = false /\
  obstacles h = [] /\
  particles h = [] /\
  gameSpeed h = Q2Qc 6 /\
  frameCountRef w' = 0%Z /\
  parallaxOffset h = Q2Qc 0 /\
  queued w' = h.
Proof.
  cbv zeta.
  assert (Q : queued (step w ev) = rendered (step w ev))
    by (rewrite step_renders; apply render_settled).
  rewrite Q. clear Q. rewrite step_renders.
  destruct w as [[gs ? ? ? ? ? ? ? ? ? ? ?] [? ? ? ? ? ? ? ? ? ? ? ?]
                 ? ? ? ? ? tm ? ? ?].
  cbn [rendered gameState] in idle.
  destruct ev as [|code|code|y height|]; try discriminate;
    cbn [requestsStart] in start;
    (destruct gs; [|congruence|]);
    unfold handle, handleKeyDown, handleTouch, startGame;
    act_cbn; rewrite ?start; act_cbn;
    unfold renderW, hit, rearmed, collides, loopDepsChanged,
      collisionDepsChanged, expected;
    cbn [rendered queued gameState gameState_eqb negb orb andb obstacles
         checkCollision frameCountRef];
    repeat split; reflexivity.
Qed.

Lemma ground_level : GROUND_Y - CRAB_HEIGHT = Q2Qc 280.
Proof. now apply Qc_is_canon. Qed.

(** The jump key pressed by a standing player. *)
Lemma jump_key (w : World) :
  Inv w -> gameState (rendered w) = playing ->
  isJumping (rendered w) = false -> isSliding (rendered w) = false ->
  let w1 := step w (KeyDown "Space") in
  gameState (rendered w1) = playing /\
  crabVelocity (rendered w1) = JUMP_FORCE /\
  crabY (rendered w1) = crabY (rendered w) /\
  isJumping (rendered w1) = true /\
  isSliding (rendered w1) = false.
Proof.
  intros V G J S. cbv zeta.
  rewrite step_gameState, step_crabVelocity, step_crabY, step_isJumping,
    step_isSliding.
  pose proof (inv_settled V) as E.
  destruct w as [[gs ? ? ? ? ? ? ? ? ? ? ?] q ? ? ? ? ? tm ? ? ?].
  cbn [rendered queued gameState isJumping isSliding] in *. subst.
  unfold handle, handleKeyDown, jump. act_cbn.
  change (isCode "Space" ["Space"; "ArrowUp"; "KeyW"]) with true.
  change (isCode "Space" ["ArrowDown"; "KeyS"]) with false.
  act_cbn. rewrite createParticles_run. act_cbn.
  unfold hit, collisionDepsChanged.
  cbn [rendered queued gameState crabY isSliding obstaclesArray score
       highScore].
  rewrite gameState_eqb_refl, NumFacts.eqb_refl, Nat.eqb_refl, !Z.eqb_refl.
  cbn. repeat split.
Qed.

(** C7. While playing, a tick moves every obstacle of the field left by
    exactly the scroll speed and leaves its id, type, height, width and
    vertical position alone; the obstacle stays in the field if its new
    position is right of -100, and otherwise it is removed and its id
    is never seen in the field again, whatever events follow. *)
Theorem advance_and_prune (w : World) (R : reachable w)
        (P : gameState (rendered w) = playing)
        (obs : Obstacle.t) (I : In obs (obstacles (rendered w))) :
  let speed := gameSpeed (rendered w) in
  let after evs := obstacles (rendered (run (AnimationFrame :: evs) w)) in
  let obs' := moveObstacle speed obs in
  (Obstacle.x obs' = Obstacle.x obs - speed /\
   Obstacle.id obs' = Obstacle.id obs /\
   Obstacle.type obs' = Obstacle.type obs /\
   Obstacle.y obs' = Obstacle.y obs /\
   Obstacle.width obs' = Obstacle.width obs /\
   Obstacle.height obs' = Obstacle.height obs) /\
  (Q2Qc (-100) < Obstacle.x obs - speed -> In obs' (after [])) /\
  (forall o, In o (after []) ->
     Obstacle.id o = Obstacle.id obs -> o = obs') /\
  (Obstacle.x obs - speed <= Q2Qc (-100) ->
   forall evs, ~ In (Obstacle.id obs) (map Obstacle.id (after evs))).
Proof.
  pose proof (reachable_Inv R) as V.
  intros speed after obs'.
  assert (A0 : after [] =
               if (dateNow (clockCalls w) - lastObstacleTimeRef w
                     >? spawnIntervalMs (score (rendered w)))%Z
               then advanceObstacles speed (obstacles (rendered w))
                      ++ [spawned (randomCalls w) (obstacleIdRef w)]
               else advanceObstacles speed (obstacles (rendered w))).
  { unfold after. cbn [run fold_left]. apply (tick_obstacles V P). }
  assert (Old : (Obstacle.id obs < obstacleIdRef w)%Z).
  { pose proof (inv_ids V) as F. rewrite Forall_forall in F. now apply F. }
  assert (Sub : forall o, In o (after []) ->
                  Obstacle.id o = Obstacle.id obs ->
                  In o (advanceObstacles speed (obstacles (rendered w)))).
  { intros o Io E. rewrite A0 in Io.
    destruct (_ >? _)%Z; [|exact Io].
    apply in_app_or in Io. destruct Io as [Io|[<-|[]]]; [exact Io|].
    rewrite spawned_id in E. lia. }
  assert (Same : forall o,
                   In o (advanceObstacles speed (obstacles (rendered w))) ->
                   Obstacle.id o = Obstacle.id obs ->
                   o = obs' /\ Q2Qc (-100) < Obstacle.x obs - speed).
  { intros o Io E. unfold advanceObstacles in Io.
    apply filter_In in Io. destruct Io as [Io K].
    apply in_map_iff in Io. destruct Io as [o0 [<- Io]].
    assert (o0 = obs)
      by (eapply same_id_same_obstacle;
          [apply (inv_unique V) | exact Io | exact I | exact E]).
    subst o0. split; [reflexivity|].
    now apply NumFacts.ltb_lt in K. }
  split; [repeat split|]. split; [|split].
  - intro K. rewrite A0.
    assert (In obs' (advanceObstacles speed (obstacles (rendered w)))).
    { unfold advanceObstacles. apply filter_In. split.
      - now apply in_map.
      - now apply NumFacts.ltb_lt. }
    destruct (_ >? _)%Z; [apply in_or_app; now left | assumption].
  - intros o Io E. exact (proj1 (Same o (Sub o Io E) E)).
  - intros K evs.
    assert (G0 : ~ In (Obstacle.id obs) (map Obstacle.id (after []))).
    { intro Io. apply in_map_iff in Io. destruct Io as [o [E Io]].
      destruct (Same o (Sub o Io E) E) as [_ L].
      exact (Qcle_not_lt _ _ K L). }
    unfold after in *. cbn [run fold_left] in *.
    apply gone_run; trivial.
    + now apply step_Inv.
    + pose proof (tick_obstacleIdRef V P). lia.
Qed.

(** X22. Requests that the keyboard and the upper half of the touch
    surface refuse leave the whole component as it was: a jump while
    jumping or sliding, a slide while jumping. *)
Lemma refused_requests_change_nothing (w : World) (R : reachable w)
      (P : gameState (rendered w) = playing) :
  (forall code,
     isCode code ["Space"; "ArrowUp"; "KeyW"] = true ->
     isJumping (rendered w) = true \/ isSliding (rendered w) = true ->
     step w (KeyDown code) = w) /\
  (forall code,
     isCode code ["ArrowDown"; "KeyS"] = true ->
     isJumping (rendered w) = true ->
     step w (KeyDown code) = w) /\
  (forall y height,
     y < height / Q2Qc 2 ->
     isJumping (rendered w) = true \/ isSliding (rendered w) = true ->
     step w (TouchStart y height) = w).
Proof.
  pose proof (reachable_Inv R) as V.
  assert (N : forall ev, exec (handle ev) w = w -> step w ev = w).
  { intros ev E. rewrite step_renders, E.
    now rewrite !(renderW_idle w (inv_settled V)). }
  assert (B : forall j s, j = true \/ s = true -> negb j && negb s = false).
  { intros [] [] [|]; trivial; discriminate. }
  repeat split.
  - intros code C A. apply N. clear N. apply isCode_cases in C.
    apply B in A. clear B V R.
    destruct w as [[gs sc hs cy cv sl jp ob oa pa sp po] q
                   ? ? ? ? ? ? ? ? ?].
    cbn [rendered gameState isJumping isSliding] in *. subst gs.
    unfold handle, handleKeyDown. act_cbn.
    destruct C as [<-|[<-|[<-|[]]]];
      match goal with |- context [if isCode ?c ?l then _ else _] =>
        change (isCode c l) with true
      end;
      match goal with |- context [if isCode ?c ?l then _ else _] =>
        change (isCode c l) with false
      end;
      destruct jp, sl; try discriminate; reflexivity.
  - intros code C J. apply N. clear N B V R. apply isCode_cases in C.
    destruct w as [[gs sc hs cy cv sl jp ob oa pa sp po] q
                   ? ? ? ? ? ? ? ? ?].
    cbn [rendered gameState isJumping isSliding] in *. subst gs jp.
    unfold handle, handleKeyDown. act_cbn.
    destruct C as [<-|[<-|[]]];
      match goal with |- context [if isCode ?c ?l then _ else _] =>
        change (isCode c l) with false
      end; reflexivity.
  - intros y height L A. apply N. clear N. apply B in A. clear B V R.
    apply NumFacts.ltb_lt in L.
    destruct w as [[gs sc hs cy cv sl jp ob oa pa sp po] q
                   ? ? ? ? ? ? ? ? ?].
    cbn [rendered gameState isJumping isSliding] in *. subst gs.
    unfold handle, handleTouch, Num.geb. act_cbn. rewrite L.
    destruct jp, sl; try discriminate; reflexivity.
Qed.

End Claims.

(** C9, where the code departs from it.  The keyboard refuses a slide while
    the player jumps ([refused_requests_change_nothing]); the touch handler
    does not: one tick after a jump, with the player in the air and
    jumping, a touch in the lower half of the surface sets the slide flag,
    and the stance shown and used by the hit box becomes the slide on the
    ground. *)
Theorem touch_slides_while_airborne :
  let w := midAir fastSeagulls in
  let w' := @step fastSeagulls w (TouchStart (Q2Qc 300) (Q2Qc 400)) in
  gameState (rendered w) = playing /\
  stance (rendered w) = Jumping /\
  crabY (rendered w) < GROUND_Y - CRAB_HEIGHT /\
  isJumping (rendered w') = true /\
  isSliding (rendered w') = true /\
  stance (rendered w') = Sliding /\
  crabYOffset (crabY (rendered w')) (isSliding (rendered w'))
  = GROUND_Y - SLIDE_HEIGHT.
Proof.
  cbv zeta.
  split; [vm_compute; reflexivity|].
  split; [vm_compute; reflexivity|].
  split; [vm_compute; reflexivity|].
  split; [vm_compute; reflexivity|].
  split; [vm_compute; reflexivity|].
  split; [vm_compute; reflexivity|].
  apply Qc_is_canon. vm_compute. reflexivity.
Qed.

(** C4, where the code departs from it.  Landing clears the jump flag
    and nothing else.  For a player who jumped from the ground, the 37th
    tick puts him back at the ground level with velocity 0 and the stance
    is Standing again; but when a touch in the lower half of the surface
    has set the slide flag during the jump (the touch handler lacks the
    guard of the keyboard handler, see C9), the same tick lands him with
    the slide flag still set, and the stance is Sliding. *)
Theorem landing_keeps_touch_slide :
  let w := aboutToLand fastSeagulls in
  let touched := @step fastSeagulls w (TouchStart (Q2Qc 300) (Q2Qc 400)) in
  let landed := @step fastSeagulls touched AnimationFrame in
  (gameState (rendered w) = playing /\
   stance (rendered w) = Jumping /\
   crabY (rendered w) < GROUND_Y - CRAB_HEIGHT /\
   stance (rendered (@step fastSeagulls w AnimationFrame)) = Standing) /\
  (gameState (rendered touched) = playing /\
   isJumping (rendered touched) = true /\
   isSliding (rendered touched) = true /\
   crabY (rendered touched) < GROUND_Y - CRAB_HEIGHT) /\
  (gameState (rendered landed) = playing /\
   crabY (rendered landed) = GROUND_Y - CRAB_HEIGHT /\
   crabVelocity (rendered landed) = Q2Qc 0 /\
   isJumping (rendered landed) = false /\
   isSliding (rendered landed) = true /\
   stance (rendered landed) = Sliding).
Proof.
  cbv zeta. split; [|split].
  - split; [vm_compute; reflexivity|].
    split; [vm_compute; reflexivity|].
    split; vm_compute; reflexivity.
  - split; [vm_compute; reflexivity|].
    split; [vm_compute; reflexivity|].
    split; vm_compute; reflexivity.
  - split; [vm_compute; reflexivity|].
    split; [apply Qc_is_canon; vm_compute; reflexivity|].
    split; [apply Qc_is_canon; vm_compute; reflexivity|].
    split; [vm_compute; reflexivity|].
    split; vm_compute; reflexivity.
Qed.

(** * The claims at sample inputs *)

Lemma started_reachable (b : Browser) : @reachable b (started b).
Proof. exists None, [KeyDown "Space"]. reflexivity. Defined.

Lemma mount_reachable (b : Browser) : @reachable b (mount None).
Proof. exists None, []. reflexivity. Defined.

Lemma tick_only_while_playing_in_order_witness :
  (@reachable slowRocks (mount None) /\
   gameState (rendered (mount None)) <> playing /\
   @run slowRocks (repeat AnimationFrame 3) (mount None) = mount None) /\
  (@reachable slowRocks (started slowRocks) /\
   gameState (rendered (started slowRocks)) = playing /\
   @step slowRocks (started slowRocks) AnimationFrame =
   exec (@Ordered.tick slowRocks) (started slowRocks) /\
   gameState (rendered (@step slowRocks (started slowRocks) AnimationFrame))
   = playing).
Proof.
  split.
  - assert (R := mount_reachable slowRocks).
    assert (I : gameState (rendered (mount None)) <> playing)
      by (cbn; discriminate).
    split; [exact R|]. split; [exact I|].
    exact (proj1 (proj1 (@tick_only_while_playing_in_order slowRocks _ R) I)
                 3%nat).
  - assert (R := started_reachable slowRocks).
    assert (P : gameState (rendered (started slowRocks)) = playing)
      by reflexivity.
    destruct (proj2 (@tick_only_while_playing_in_order slowRocks _ R) P)
      as [O C].
    split; [exact R|]. split; [exact P|]. split; [exact O|].
    rewrite C. vm_compute. reflexivity.
Defined.

Lemma sliding_hitbox_clears_high_obstacles_witness :
  Obstacle.y highSeagull + Obstacle.height highSeagull
    <= crabYOffset (Q2Qc 280) true /\
  checkCollision [highSeagull] (Q2Qc 280) true = false.
Proof.
  assert (A : Obstacle.y highSeagull + Obstacle.height highSeagull
              <= crabYOffset (Q2Qc 280) true) by (vm_compute; discriminate).
  split; [exact A|].
  apply (@sliding_hitbox_clears_high_obstacles [highSeagull] (Q2Qc 280)).
  intros obs [<-|[]]. exact A.
Defined.

Lemma touching_is_not_collision_witness :
  touches (Q2Qc 280) false rockAhead /\
  checkCollision [rockAhead] (Q2Qc 280) false = false.
Proof.
  assert (T : touches (Q2Qc 280) false rockAhead).
  { right. left. apply Qc_is_canon. reflexivity. }
  split; [exact T|].
  apply (@touching_is_not_collision [rockAhead] (Q2Qc 280) false).
  intros obs [<-|[]]. exact T.
Defined.

Lemma advance_and_prune_witness :
  @reachable slowSeagulls seagullLeaving /\
  gameState (rendered seagullLeaving) = playing /\
  In (hd highSeagull (obstacles (rendered seagullLeaving)))
     (obstacles (rendered seagullLeaving)) /\
  Obstacle.id (hd highSeagull (obstacles (rendered seagullLeaving))) = 0%Z /\
  Obstacle.x (hd highSeagull (obstacles (rendered seagullLeaving)))
  = Q2Qc (-98) /\
  forall evs,
    ~ In 0%Z (map Obstacle.id
                  (obstacles
                     (rendered (@run slowSeagulls (AnimationFrame :: evs)
                                     seagullLeaving)))).
Proof.
  assert (R : @reachable slowSeagulls seagullLeaving).
  { exists None, (KeyDown "Space" :: repeat AnimationFrame 159).
    reflexivity. }
  assert (P : gameState (rendered seagullLeaving) = playing)
    by (vm_compute; reflexivity).
  assert (I : In (hd highSeagull (obstacles (rendered seagullLeaving)))
                 (obstacles (rendered seagullLeaving)))
    by (vm_compute; left; reflexivity).
  destruct (@advance_and_prune slowSeagulls _ R P _ I) as [_ [_ [_ G]]].
  split; [exact R|]. split; [exact P|]. split; [exact I|].
  split; [vm_compute; reflexivity|].
  split; [apply Qc_is_canon; vm_compute; reflexivity|].
  apply G. vm_compute. discriminate.
Defined.

Lemma start_resets_witness :
  (gameState (rendered crashed) <> playing /\
   requestsStart (KeyDown "Enter") = true /\
   (gameState (rendered crashed) = gameover /\
    score (rendered crashed) = 11%Z /\
    crabY (rendered crashed) < GROUND_Y - CRAB_HEIGHT /\
    crabVelocity (rendered crashed) < Q2Qc 0 /\
    isSliding (rendered crashed) = true /\
    isJumping (rendered crashed) = true /\
    length (obstacles (rendered crashed)) = 118%nat /\
    length (particles (rendered crashed)) = 30%nat /\
    Q2Qc 0 < parallaxOffset (rendered crashed)) /\
   (gameState (rendered (@step slowRocks crashed (KeyDown "Enter")))
    = playing /\
    score (rendered (@step slowRocks crashed (KeyDown "Enter"))) = 0%Z /\
    crabY (rendered (@step slowRocks crashed (KeyDown "Enter")))
    = GROUND_Y - CRAB_HEIGHT /\
    crabVelocity (rendered (@step slowRocks crashed (KeyDown "Enter")))
    = Q2Qc 0 /\
    isSliding (rendered (@step slowRocks crashed (KeyDown "Enter")))
    = false /\
    isJumping (rendered (@step slowRocks crashed (KeyDown "Enter")))
    = false /\
    obstacles (rendered (@step slowRocks crashed (KeyDown "Enter"))) = [] /\
    particles (rendered (@step slowRocks crashed (KeyDown "Enter"))) = [] /\
    parallaxOffset (rendered (@step slowRocks crashed (KeyDown "Enter")))
    = Q2Qc 0)) /\
  (gameState (rendered crashedStanding) <> playing /\
   requestsStart (TouchStart (Q2Qc 100) (Q2Qc 400)) = true /\
   (gameState (rendered crashedStanding) = gameover /\
    frameCountRef crashedStanding = 8%Z) /\
   frameCountRef
     (@step slowRocks crashedStanding (TouchStart (Q2Qc 100) (Q2Qc 400)))
   = 0%Z) /\
  (gameState (rendered (mount None)) <> playing /\
   requestsStart (KeyDown "Space") = true /\
   gameState (rendered (mount None)) = menu /\
   gameState (rendered (@step fastSeagulls (mount None) (KeyDown "Space")))
   = playing).
Proof.
  split; [|split].
  - assert (I : gameState (rendered crashed) <> playing)
      by (vm_compute; discriminate).
    assert (S : requestsStart (KeyDown "Enter") = true) by reflexivity.
    destruct (@start_resets slowRocks _ _ I S)
      as [G [Sc [Y [V [_ [Sl [J [O [Pa [_ [_ [Px _]]]]]]]]]]]].
    split; [exact I|]. split; [exact S|]. split.
    + split; [vm_compute; reflexivity|].
      split; [vm_compute; reflexivity|].
      split; [vm_compute; reflexivity|].
      split; [vm_compute; reflexivity|].
      split; [vm_compute; reflexivity|].
      split; [vm_compute; reflexivity|].
      split; [vm_compute; reflexivity|].
      split; vm_compute; reflexivity.
    + split; [exact G|]. split; [exact Sc|]. split; [exact Y|].
      split; [exact V|]. split; [exact Sl|]. split; [exact J|].
      split; [exact O|]. split; [exact Pa | exact Px].
  - assert (I : gameState (rendered crashedStanding) <> playing)
      by (vm_compute; discriminate).
    assert (S : requestsStart (TouchStart (Q2Qc 100) (Q2Qc 400)) = true)
      by reflexivity.
    destruct (@start_resets slowRocks _ _ I S)
      as [_ [_ [_ [_ [_ [_ [_ [_ [_ [_ [F _]]]]]]]]]]].
    split; [exact I|]. split; [exact S|].
    split; [split; vm_compute; reflexivity | exact F].
  - assert (I : gameState (rendered (mount None)) <> playing)
      by (cbn; discriminate).
    assert (S : requestsStart (KeyDown "Space") = true) by reflexivity.
    destruct (@start_resets fastSeagulls _ _ I S) as [G _].
    split; [exact I|]. split; [exact S|]. split; [reflexivity | exact G].
Defined.

(** * Further properties *)


(** * Further properties *)

(** ** Order on the numbers *)

(** Goals about the order of [Qc] are sent to linear arithmetic over
    [Q]. *)
Ltac qc_lra :=
  unfold ground, apex, GROUND_Y, CRAB_HEIGHT, GAME_WIDTH, SLIDE_HEIGHT,
    CRAB_WIDTH, crabX, GRAVITY, JUMP_FORCE in *;
  unfold Qcle, Qclt, Qcminus, Qcopp, Qcplus, Qcmult in *;
  cbn [this Q2Qc] in *;
  rewrite ?Qred_correct in *;
  lra.

Lemma sample_bounds (u : Unit01) : Q2Qc 0 <= sample u /\ sample u < Q2Qc 1.
Proof.
  destruct u as [r ok]. cbn [sample].
  apply andb_true_iff in ok. destruct ok as [lo hi].
  apply negb_true_iff, NumFacts.ltb_ge in lo. apply NumFacts.ltb_lt in hi.
  now split.
Qed.

(** The remainder by 800 of a number that is not negative lies in
    [0, 800). *)
Lemma rem_800_range (a : Qc) :
  Q2Qc 0 <= a ->
  Q2Qc 0 <= Num.rem a (Q2Qc 800) /\ Num.rem a (Q2Qc 800) < Q2Qc 800.
Proof.
  intro A. unfold Num.rem.
  unfold Qcle in A. cbn [this Q2Qc] in A. rewrite Qred_correct in A.
  remember (this a / this (Q2Qc 800))%Q as q eqn:Eq.
  assert (E : (q == this a / 800)%Q).
  { rewrite Eq. cbn [this Q2Qc]. now rewrite Qred_correct. }
  clear Eq.
  assert (Q0 : (0 <= q)%Q).
  { rewrite E. apply Qle_shift_div_l; [reflexivity|].
    rewrite Qmult_0_l. exact A. }
  assert (F : Z.quot (Qnum q) (Zpos (Qden q)) = Qfloor q).
  { destruct q as [n d]. unfold Qle in Q0. cbn [Qfloor Qnum Qden] in *.
    apply Z.quot_div_nonneg; lia. }
  rewrite F.
  pose proof (Qfloor_le q) as Lo. pose proof (Qlt_floor q) as Hi.
  rewrite inject_Z_plus in Hi. change (inject_Z 1) with 1%Q in Hi.
  assert (Lo2 : (inject_Z (Qfloor q) <= this a / 800)%Q)
    by (eapply Qle_trans; [exact Lo | rewrite E; apply Qle_refl]).
  assert (Hi2 : (this a / 800 < inject_Z (Qfloor q) + 1)%Q)
    by (eapply Qle_lt_trans; [rewrite <- E; apply Qle_refl | exact Hi]).
  assert (M : (this a / 800 * 800 == this a)%Q) by field.
  assert (Lo' : (inject_Z (Qfloor q) * 800 <= this a)%Q).
  { rewrite <- M. apply Qmult_le_compat_r; [exact Lo2 | discriminate]. }
  assert (Hi' : (this a < (inject_Z (Qfloor q) + 1) * 800)%Q).
  { rewrite <- M at 1. apply Qmult_lt_compat_r; [reflexivity | exact Hi2]. }
  split.
  - unfold Qcle, Qcminus, Qcopp, Qcplus, Qcmult. cbn [this Q2Qc].
    rewrite ?Qred_correct. lra.
  - unfold Qclt, Qcminus, Qcopp, Qcplus, Qcmult. cbn [this Q2Qc].
    rewrite ?Qred_correct. lra.
Qed.

(** The remainder by 50 of a number that is not positive lies in
    (-50, 0]: the remainder takes the sign of the dividend. *)
Lemma rem_50_range (a : Qc) :
  a <= Q2Qc 0 ->
  Q2Qc (-50) < Num.rem a (Q2Qc 50) /\ Num.rem a (Q2Qc 50) <= Q2Qc 0.
Proof.
  intro A. unfold Num.rem.
  unfold Qcle in A. cbn [this Q2Qc] in A. rewrite Qred_correct in A.
  remember (this a / this (Q2Qc 50))%Q as q eqn:Eq.
  assert (E : (q == this a / 50)%Q).
  { rewrite Eq. cbn [this Q2Qc]. now rewrite Qred_correct. }
  clear Eq.
  assert (Q0 : (0 <= - q)%Q).
  { rewrite E. assert (M : (- (this a / 50) == (- this a) / 50)%Q) by field.
    rewrite M. apply Qle_shift_div_l; [reflexivity|].
    rewrite Qmult_0_l. lra. }
  assert (F : Z.quot (Qnum q) (Zpos (Qden q)) = (- Qfloor (- q))%Z).
  { destruct q as [n d]. unfold Qle in Q0. cbn [Qopp Qfloor Qnum Qden] in *.
    rewrite <- (Z.opp_involutive n) at 1.
    rewrite Z.quot_opp_l by discriminate.
    f_equal. apply Z.quot_div_nonneg; lia. }
  rewrite F.
  pose proof (Qfloor_le (- q)) as Lo. pose proof (Qlt_floor (- q)) as Hi.
  rewrite inject_Z_plus in Hi. change (inject_Z 1) with 1%Q in Hi.
  rewrite inject_Z_opp.
  assert (N : (- q == - this a / 50)%Q) by (rewrite E; field).
  assert (Lo2 : (inject_Z (Qfloor (- q)) <= - this a / 50)%Q)
    by (eapply Qle_trans; [exact Lo | rewrite N; apply Qle_refl]).
  assert (Hi2 : (- this a / 50 < inject_Z (Qfloor (- q)) + 1)%Q)
    by (eapply Qle_lt_trans; [rewrite <- N; apply Qle_refl | exact Hi]).
  assert (M : (- this a / 50 * 50 == - this a)%Q) by field.
  assert (Lo' : (inject_Z (Qfloor (- q)) * 50 <= - this a)%Q).
  { rewrite <- M. apply Qmult_le_compat_r; [exact Lo2 | discriminate]. }
  assert (Hi' : (- this a < (inject_Z (Qfloor (- q)) + 1) * 50)%Q).
  { rewrite <- M at 1. apply Qmult_lt_compat_r; [reflexivity | exact Hi2]. }
  split.
  - unfold Qclt, Qcminus, Qcopp, Qcplus, Qcmult. cbn [this Q2Qc].
    rewrite ?Qred_correct. lra.
  - unfold Qcle, Qcminus, Qcopp, Qcplus, Qcmult. cbn [this Q2Qc].
    rewrite ?Qred_correct. lra.
Qed.

(** ** The jump arc *)

Lemma arc_stays_up k : (k < lastAirborne)%nat -> staysUp k = true.
Proof.
  intro L.
  assert (T : forallb staysUp (seq 0 lastAirborne) = true)
    by (vm_compute; reflexivity).
  rewrite forallb_forall in T. apply T, in_seq. unfold lastAirborne in *. lia.
Qed.

Lemma arc_lands : staysUp lastAirborne = false.
Proof. vm_compute. reflexivity. Qed.

Lemma arc_within k : (k <= lastAirborne)%nat -> withinJump k = true.
Proof.
  intro L.
  assert (T : forallb withinJump (seq 0 (S lastAirborne)) = true)
    by (vm_compute; reflexivity).
  rewrite forallb_forall in T. apply T, in_seq. unfold lastAirborne in *. lia.
Qed.


(** ** Particles *)

Section Extra.

Context {browser : Browser}.

Lemma burst_length x y n color : forall pid rc,
  length (burst x y n color pid rc) = n.
Proof.
  induction n as [|n IH]; intros pid rc; cbn [burst length]; [reflexivity|].
  now rewrite IH.
Qed.

Lemma burst_ids x y n color : forall pid rc,
  Forall (fun p => (pid <= Particle.id p < pid + Z.of_nat n)%Z)
         (burst x y n color pid rc).
Proof.
  induction n as [|n IH]; intros pid rc; cbn [burst]; constructor.
  - cbn [Particle.id]. lia.
  - eapply Forall_impl; [|apply IH]. cbv beta. intros p B. lia.
Qed.

Lemma burst_unique x y n color : forall pid rc,
  NoDup (map Particle.id (burst x y n color pid rc)).
Proof.
  induction n as [|n IH]; intros pid rc; cbn [burst map]; constructor.
  - cbn [Particle.id]. intro I. apply in_map_iff in I.
    destruct I as [p [E I]].
    pose proof (burst_ids x y n color (pid + 1) (S (S (S rc)))) as F.
    rewrite Forall_forall in F. specialize (F p I). lia.
  - apply IH.
Qed.

(** What [createParticles] gives a particle: the position asked for, a
    horizontal velocity in [-4, 4), an upward velocity in [-6, 0) and a
    life in [30, 50). *)
Lemma burst_shape x y n color : forall pid rc,
  Forall (fun p =>
            Particle.x p = x /\ Particle.y p = y /\
            Particle.color p = color /\
            (Q2Qc (-4) <= Particle.vx p /\ Particle.vx p < Q2Qc 4) /\
            (Q2Qc (-6) <= Particle.vy p /\ Particle.vy p < Q2Qc 0) /\
            (Q2Qc 30 <= Particle.life p /\ Particle.life p < Q2Qc 50))
         (burst x y n color pid rc).
Proof.
  induction n as [|n IH]; intros pid rc; cbn [burst]; constructor;
    [|apply IH].
  cbn [Particle.x Particle.y Particle.color Particle.vx Particle.vy
       Particle.life].
  destruct (sample_bounds (mathRandom rc)) as [L1 H1].
  destruct (sample_bounds (mathRandom (S rc))) as [L2 H2].
  destruct (sample_bounds (mathRandom (S (S rc)))) as [L3 H3].
  repeat split; qc_lra.
Qed.

Lemma advanceParticles_In p prev :
  In p (advanceParticles prev) ->
  exists p0, In p0 prev /\ p = moveParticle p0 /\ Q2Qc 0 < Particle.life p.
Proof.
  unfold advanceParticles. intro I.
  apply filter_In in I. destruct I as [I K].
  apply in_map_iff in I. destruct I as [p0 [<- I]].
  exists p0. repeat split; trivial. now apply NumFacts.ltb_lt in K.
Qed.

Lemma advanceParticles_sub prev id :
  In id (map Particle.id (advanceParticles prev)) ->
  In id (map Particle.id prev).
Proof.
  intro I. apply in_map_iff in I. destruct I as [p [<- I]].
  apply advanceParticles_In in I. destruct I as [p0 [I [-> _]]].
  apply in_map_iff. now exists p0.
Qed.

Lemma advanceParticles_unique prev :
  NoDup (map Particle.id prev) ->
  NoDup (map Particle.id (advanceParticles prev)).
Proof.
  induction prev as [|p prev IH]; intro U; [constructor|].
  inversion U as [|? ? N U']; subst.
  unfold advanceParticles. cbn [map filter].
  fold (advanceParticles prev).
  destruct (Particle.life (moveParticle p) >? Q2Qc 0).
  - cbn [map]. constructor; [|now apply IH].
    intro I. apply N. now apply advanceParticles_sub in I.
  - now apply IH.
Qed.

(** ** The input handlers *)

Lemma jump_or_slide code :
  isCode code ["Space"; "ArrowUp"; "KeyW"] = true ->
  isCode code ["ArrowDown"; "KeyS"] = true -> False.
Proof.
  intros J S. apply isCode_cases in J, S.
  destruct J as [<-|[<-|[<-|[]]]]; destruct S as [S|[S|[]]]; discriminate.
Qed.

(** An input event leaves the world alone, or starts the game, or makes a
    standing player jump, or sets or clears the slide flag. *)
Lemma handle_input_cases w ev :
  ev <> AnimationFrame ->
  let w' := exec (handle ev) w in
  w' = w \/
  (gameState (rendered w) <> playing /\ requestsStart ev = true /\
   w' = updQueued startH w) \/
  (gameState (rendered w) = playing /\ isJumping (rendered w) = false /\
   isSliding (rendered w) = false /\ w' = jumpW w) \/
  (exists sliding pending,
      w' = slideW sliding pending w /\
      (sliding = true -> gameState (rendered w) = playing)).
Proof.
  intro N.
  destruct w as [[gs sc hs cy cv sl jp ob oa pa sp po]
                 [? ? ? ? ? ? ? ? ? ? ? ?] ? ? ? ? ? tm ? ? ?].
  destruct ev as [|code|code|y height|]; [congruence| | | |].
  - (* KeyDown *)
    unfold handle, handleKeyDown, startGame, jump, jumpW, slideW, startH.
    cbn [requestsStart].
    destruct (isCode code ["Space"; "Enter"]) eqn:St,
             (isCode code ["Space"; "ArrowUp"; "KeyW"]) eqn:J,
             (isCode code ["ArrowDown"; "KeyS"]) eqn:S;
      try (exfalso; exact (jump_or_slide code J S));
      destruct gs, jp, sl; act_cbn; rewrite ?St, ?J, ?S; act_cbn;
        rewrite ?createParticles_run; act_cbn;
        first
          [ left; reflexivity
          | right; left; repeat split; (discriminate || reflexivity)
          | right; right; left; repeat split; reflexivity
          | right; right; right; eexists true, _; split;
            [reflexivity | reflexivity] ].
  - (* KeyUp *)
    unfold handle, handleKeyUp, slideW. act_cbn.
    destruct (isCode code ["ArrowDown"; "KeyS"]); act_cbn.
    + right. right. right. exists false, tm. split; [reflexivity|discriminate].
    + now left.
  - (* TouchStart *)
    unfold handle, handleTouch, startGame, jump, jumpW, slideW, startH,
      Num.geb.
    cbn [requestsStart].
    destruct (y <? height / Q2Qc 2), gs, jp, sl; act_cbn;
      rewrite ?createParticles_run; act_cbn;
      first
        [ left; reflexivity
        | right; left; repeat split; (discriminate || reflexivity)
        | right; right; left; repeat split; reflexivity
        | right; right; right; eexists true, _; split;
          [reflexivity | reflexivity] ].
  - (* Timeout *)
    unfold handle, slideTimeout, slideW. act_cbn.
    destruct tm as [|tm]; act_cbn.
    + now left.
    + right. right. right. exists false, tm. split; [reflexivity|discriminate].
Qed.

(** ** The state stays sound *)

Lemma spawned_placed rc id : placed (spawned rc id).
Proof.
  unfold placed, spawned.
  destruct (sample_bounds (mathRandom (S rc))) as [L H].
  destruct (pickType _); cbn [Obstacle.x Obstacle.y Obstacle.type
                              Obstacle.width Obstacle.height];
    repeat split; qc_lra.
Qed.


Lemma append_burst ps x y n color pid rc :
  Forall (fun p => Q2Qc 0 < Particle.life p /\ Particle.life p < Q2Qc 50) ps ->
  Forall (fun p => (Particle.id p < pid)%Z) ps ->
  NoDup (map Particle.id ps) ->
  Forall (fun p => Q2Qc 0 < Particle.life p /\ Particle.life p < Q2Qc 50)
         (ps ++ burst x y n color pid rc) /\
  Forall (fun p => (Particle.id p < pid + Z.of_nat n)%Z)
         (ps ++ burst x y n color pid rc) /\
  NoDup (map Particle.id (ps ++ burst x y n color pid rc)).
Proof.
  intros L I U.
  pose proof (burst_shape x y n color pid rc) as Sh.
  pose proof (burst_ids x y n color pid rc) as Ids.
  split; [|split].
  - apply Forall_app. split; [exact L|].
    eapply Forall_impl; [|exact Sh]. cbv beta.
    intros p [_ [_ [_ [_ [_ [Lo Hi]]]]]]. split; [qc_lra | exact Hi].
  - apply Forall_app. split.
    + eapply Forall_impl; [|exact I]. cbv beta. intros. lia.
    + eapply Forall_impl; [|exact Ids]. cbv beta. intros. lia.
  - rewrite map_app. apply NoDup_app.
    + exact U.
    + apply burst_unique.
    + intros id A B.
      apply in_map_iff in A. destruct A as [p [<- A]].
      apply in_map_iff in B. destruct B as [p' [E B]].
      rewrite Forall_forall in I, Ids.
      specialize (I p A). specialize (Ids p' B). lia.
Qed.

Lemma advanceParticles_sound ps pid :
  Forall (fun p => Q2Qc 0 < Particle.life p /\ Particle.life p < Q2Qc 50) ps ->
  Forall (fun p => (Particle.id p < pid)%Z) ps ->
  NoDup (map Particle.id ps) ->
  Forall (fun p => Q2Qc 0 < Particle.life p /\ Particle.life p < Q2Qc 50)
         (advanceParticles ps) /\
  Forall (fun p => (Particle.id p < pid)%Z) (advanceParticles ps) /\
  NoDup (map Particle.id (advanceParticles ps)).
Proof.
  intros L I U. split; [|split].
  - apply Forall_forall. intros p A.
    apply advanceParticles_In in A. destruct A as [p0 [A [-> K]]].
    split; [exact K|].
    rewrite Forall_forall in L. destruct (L p0 A) as [_ Hi].
    cbn [moveParticle Particle.life]. qc_lra.
  - apply Forall_forall. intros p A.
    apply advanceParticles_In in A. destruct A as [p0 [A [-> _]]].
    rewrite Forall_forall in I. exact (I p0 A).
  - now apply advanceParticles_unique.
Qed.

Lemma advanceObstacles_placed prev :
  Forall placed prev -> Forall placed (advanceObstacles (Q2Qc 6) prev).
Proof.
  intro F. apply Forall_forall. intros obs I.
  unfold advanceObstacles in I. apply filter_In in I. destruct I as [I K].
  apply in_map_iff in I. destruct I as [o [<- I]].
  rewrite Forall_forall in F. destruct (F o I) as [Lo [Hi G]].
  apply NumFacts.ltb_lt in K.
  split; [exact K|]. split; [|exact G].
  cbn [moveObstacle Obstacle.x]. qc_lra.
Qed.

Lemma sound_start q pid st : Sound q pid st -> Sound (startH q) pid st.
Proof.
  intros [P S F L I U X H].
  constructor; unfold startH; cbn; try constructor; trivial; try lia.
  - qc_lra.
  - qc_lra.
Qed.

Lemma sound_jump q pid st x y rc :
  Sound q pid st -> isJumping q = false ->
  Sound (withParticles (fun prev => prev ++ burst x y 5 "#00f5ff" pid rc)
           (withIsJumping true (withCrabVelocity JUMP_FORCE q)))
        (pid + 5) st.
Proof.
  intros [P S F L I U X H] J.
  destruct (append_burst x y 5 "#00f5ff" rc L I U) as [L' [I' U']].
  constructor; cbn; trivial.
  unfold onArc in *. cbn. rewrite J in P. destruct P as [Y _].
  exists 0%nat. split; [unfold lastAirborne; lia|]. cbn [arc]. now rewrite Y.
Qed.

Lemma sound_slide q pid st b : Sound q pid st -> Sound (withIsSliding b q) pid st.
Proof. intros [P S F L I U X H]. constructor; cbn; trivial. Qed.

Lemma sound_afterHit q pid st x y rc :
  Sound q pid st ->
  Sound (afterHit q (burst x y 20 "#ff2d95" pid rc) q) (pid + 20)
        (if (score q >? highScore q)%Z then Some (score q) else st).
Proof.
  intros [P S F L I U X H].
  destruct (append_burst x y 20 "#ff2d95" rc L I U) as [L' [I' U']].
  unfold afterHit.
  destruct (score q >? highScore q)%Z; constructor; cbn; trivial.
Qed.

Lemma sound_tick w :
  Inv w -> gameState (rendered w) = playing -> soundW w ->
  soundW (tickW (gameLoopOf (rendered w)) (consumed w)).
Proof.
  intros V G [P Sc F L I U X H].
  pose proof (inv_settled V) as E. rewrite E in *.
  pose proof (inv_speed V) as Sp.
  destruct (advanceParticles_sound L I U) as [L1 [I1 U1]].
  set (h := rendered w) in *.
  unfold soundW, tickW, consumed.
  cbn [queued particleIdRef storage randomCalls frameCountRef rendered
       obstacleIdRef clockCalls lastObstacleTimeRef].
  rewrite E. fold h.
  constructor; cbn [isJumping crabY crabVelocity score obstacles particles
                    parallaxOffset highScore gameLoopOf GameLoop.gameSpeed
                    GameLoop.crabVelocity GameLoop.isJumping GameLoop.score].
  - (* the player *)
    unfold onArc in *. cbn [isJumping crabY crabVelocity].
    unfold airborne, lands, gameLoopOf.
    cbn [GameLoop.isJumping GameLoop.crabVelocity].
    destruct (isJumping h) eqn:J.
    + destruct P as [k [K A]].
      assert (Y : fst (arc k) = crabY h) by now rewrite <- A.
      assert (Vl : snd (arc k) = crabVelocity h) by now rewrite <- A.
      cbn [orb andb].
      assert (T : (crabY h + (crabVelocity h + GRAVITY)
                     >=? GROUND_Y - CRAB_HEIGHT) = negb (staysUp k)).
      { unfold staysUp, fall, ground. cbn [fst snd].
        now rewrite negb_involutive, Y, Vl. }
      rewrite T.
      destruct (Nat.eq_dec k lastAirborne) as [->|Ne].
      * rewrite arc_lands. cbn [negb]. split; reflexivity.
      * rewrite arc_stays_up by (unfold lastAirborne in *; lia). cbn [negb].
        exists (S k). split; [unfold lastAirborne in *; lia|].
        cbn [arc]. unfold fall. now rewrite Y, Vl.
    + destruct P as [Y Vl]. rewrite Y. unfold ground.
      replace (GROUND_Y - CRAB_HEIGHT <? GROUND_Y - CRAB_HEIGHT) with false
        by (symmetry; apply NumFacts.ltb_ge, Qcle_refl).
      cbn [orb andb]. now split.
  - destruct (_ =? _)%Z; lia.
  - rewrite Sp. destruct (spawnDue _ _).
    + apply Forall_app. split; [now apply advanceObstacles_placed|].
      constructor; [apply spawned_placed | constructor].
    + now apply advanceObstacles_placed.
  - destruct (_ =? _)%Z; [|exact L1].
    now apply (append_burst _ _ 1 _ _ L1 I1 U1).
  - destruct (_ =? _)%Z.
    + now apply (append_burst _ _ 1 _ _ L1 I1 U1).
    + exact I1.
  - destruct (_ =? _)%Z; [|exact U1].
    now apply (append_burst _ _ 1 _ _ L1 I1 U1).
  - rewrite Sp. apply rem_800_range. destruct X as [X0 _]. qc_lra.
  - exact H.
Qed.

Lemma sound_handle w ev : Inv w -> soundW w -> soundW (exec (handle ev) w).
Proof.
  intros V So.
  destruct ev as [|code|code|y height|].
  1: { rewrite handle_frame. destruct (raf w) as [cb|] eqn:C; [|exact So].
       pose proof (inv_raf V) as R. rewrite C in R. symmetry in R.
       destruct (expected_Some _ R) as [G ->]. now apply sound_tick. }
  all: match goal with |- soundW (exec (handle ?e) ?w0) =>
         assert (N : e <> AnimationFrame) by discriminate;
         destruct (handle_input_cases w0 N)
           as [->|[[_ [_ ->]]|[[_ [J [_ ->]]]|[b [tm [-> _]]]]]]
       end.
  all: trivial.
  all: try (apply sound_start; exact So).
  all: try (apply sound_slide; exact So).
  all: unfold soundW, jumpW; cbn [queued particleIdRef storage];
    apply sound_jump; [exact So | now rewrite (inv_settled V)].
Qed.

Lemma sound_render x : soundW x -> soundW (renderW x).
Proof.
  intro So. unfold soundW, renderW. cbn [queued particleIdRef storage].
  destruct (hit x); [|exact So]. cbn [andb].
  now apply sound_afterHit.
Qed.

Lemma step_sound w ev : Inv w -> soundW w -> soundW (step w ev).
Proof.
  intros V So. rewrite step_renders.
  now apply sound_render, sound_render, sound_handle.
Qed.

Lemma mount_sound saved : soundW (mount saved).
Proof.
  constructor; cbn; try constructor; try reflexivity; try lia; qc_lra.
Qed.

Lemma run_sound evs : forall w, Inv w -> soundW w -> soundW (run evs w).
Proof.
  induction evs as [|ev evs IH]; intros w V So; [exact So|].
  cbn [run fold_left]. apply IH; [now apply step_Inv | now apply step_sound].
Qed.

Lemma reachable_sound w :
  reachable w -> Sound (rendered w) (particleIdRef w) (storage w).
Proof.
  intro R. pose proof (reachable_Inv R) as V.
  destruct R as [saved [evs ->]].
  rewrite <- (inv_settled V). apply run_sound; [apply mount_Inv|].
  apply mount_sound.
Qed.

(** ** No overlap while playing *)

Lemma collisionDeps_unchanged a b :
  collisionDepsChanged a b = false ->
  gameState a = gameState b /\ crabY a = crabY b /\
  isSliding a = isSliding b /\ obstaclesArray a = obstaclesArray b.
Proof.
  unfold collisionDepsChanged.
  rewrite !orb_false_iff, !negb_false_iff.
  intros [[[[[G Y] Sl] A] _] _].
  apply gameState_eqb_eq in G. apply NumFacts.eqb_eq in Y.
  apply Bool.eqb_prop in Sl. apply Nat.eqb_eq in A. now repeat split.
Qed.

(** Within one event the obstacles change only with their array. *)
Lemma same_array_same_obstacles w ev :
  Inv w ->
  let w1 := exec (handle ev) w in
  obstaclesArray (queued w1) = obstaclesArray (queued w) ->
  obstacles (queued w1) = obstacles (queued w).
Proof.
  intros V w1 A. subst w1.
  destruct ev as [|code|code|y height|].
  1: { rewrite handle_frame in *. destruct (raf w) as [cb|]; [|reflexivity].
       exfalso. unfold tickW, consumed in A. cbn [queued obstaclesArray] in A.
       destruct (spawnDue _ _); lia. }
  all: match goal with |- context [exec (handle ?e) ?w0] =>
         assert (N : e <> AnimationFrame) by discriminate;
         destruct (handle_input_cases w0 N)
           as [E|[[_ [_ E]]|[[_ [_ [_ E]]]|[b [tm [E _]]]]]];
         rewrite E in *
       end.
  all: trivial.
  all: try (exfalso; unfold updQueued, startH in A; cbn in A; lia).
  all: try (unfold jumpW; reflexivity).
  all: unfold slideW; reflexivity.
Qed.

Lemma step_clear w ev :
  Inv w -> clear (rendered w) -> clear (rendered (step w ev)).
Proof.
  intros V C. rewrite step_rendered. cbv zeta.
  set (w1 := exec (handle ev) w).
  destruct (hit w1) eqn:H.
  - intro G. rewrite afterHit_gameState in G. discriminate.
  - intro G. destruct (checkCollision _ _ _) eqn:K; [|reflexivity].
    exfalso. unfold hit, collides in H. rewrite G, K in H.
    cbn [gameState_eqb andb] in H. rewrite andb_true_r in H.
    assert (R : rendered w1 = rendered w).
    { unfold w1. destruct ev as [|code|code|y height|].
      1: { rewrite handle_frame. destruct (raf w); reflexivity. }
      all: match goal with |- context [exec (handle ?e) ?w0] =>
             assert (N : e <> AnimationFrame) by discriminate;
             exact (proj1 (handle_input w0 N))
           end. }
    rewrite R in H.
    destruct (collisionDeps_unchanged _ _ H) as [G' [Y [Sl A]]].
    assert (O : obstacles (queued w1) = obstacles (queued w)).
    { apply same_array_same_obstacles; [exact V|].
      fold w1. rewrite (inv_settled V). now symmetry. }
    rewrite G in G'. specialize (C G').
    rewrite O, <- Y, <- Sl, (inv_settled V) in K. congruence.
Qed.

Lemma reachable_clear w : reachable w -> clear (rendered w).
Proof.
  intros [saved [evs ->]].
  assert (A : forall evs w, Inv w -> clear (rendered w) ->
                            clear (rendered (run evs w))).
  { clear. induction evs as [|ev evs IH]; intros w V C; [exact C|].
    cbn [run fold_left]. apply IH; [now apply step_Inv | now apply step_clear]. }
  apply A; [apply mount_Inv|]. intro G. discriminate.
Qed.

End Extra.


(** * Properties of the running game *)

Section Properties.

Context {browser : Browser}.


(** X2. The player never sinks below the ground level 280 and never
    rises above 146.8. *)
Theorem jump_height_bounded (w : World) (R : reachable w) :
  Q2Qc 146.8 <= crabY (rendered w) /\ crabY (rendered w) <= Q2Qc 280.
Proof.
  split.
  - pose proof (sound_player (reachable_sound R)) as P. unfold onArc in P.
    destruct (isJumping (rendered w)).
    + destruct P as [k [K A]]. pose proof (arc_within K) as W.
      unfold withinJump in W. apply andb_true_iff in W. destruct W as [W _].
      apply negb_true_iff, NumFacts.ltb_ge in W.
      rewrite <- A in W. exact W.
    + destruct P as [-> _]. qc_lra.
  - pose proof (sound_player (reachable_sound R)) as P. unfold onArc in P.
    destruct (isJumping (rendered w)).
    + destruct P as [k [K A]]. pose proof (arc_within K) as W.
      unfold withinJump in W. apply andb_true_iff in W. destruct W as [_ W].
      apply negb_true_iff, NumFacts.ltb_ge in W.
      rewrite <- A in W. cbn [fst] in W. qc_lra.
    + destruct P as [-> _]. qc_lra.
Qed.

(** A tick of a jump, on exact numbers: from point [k] of the arc to point
    [k + 1], still jumping, when [k] is below 36, and from point 36 to the
    ground, at rest and no longer jumping. *)
Lemma tick_on_arc w k :
  reachable w -> gameState (rendered w) = playing ->
  isJumping (rendered w) = true ->
  (crabY (rendered w), crabVelocity (rendered w)) = arc k ->
  let h' := rendered (step w AnimationFrame) in
  ((k < 36)%nat ->
   (crabY h', crabVelocity h') = arc (S k) /\ isJumping h' = true) /\
  (k = 36%nat ->
   crabY h' = GROUND_Y - CRAB_HEIGHT /\ crabVelocity h' = Q2Qc 0 /\
   isJumping h' = false).
Proof.
  intros R P J A. pose proof (reachable_Inv R) as V. cbv zeta.
  rewrite (tick_crabY V P), (tick_crabVelocity V P), (tick_isJumping V P).
  unfold airborne, lands, gameLoopOf.
  cbn [GameLoop.isJumping GameLoop.crabVelocity]. rewrite J. cbn [orb andb].
  assert (Y : fst (arc k) = crabY (rendered w)) by now rewrite <- A.
  assert (Vl : snd (arc k) = crabVelocity (rendered w)) by now rewrite <- A.
  assert (T : (crabY (rendered w) + (crabVelocity (rendered w) + GRAVITY)
                 >=? GROUND_Y - CRAB_HEIGHT) = negb (staysUp k)).
  { unfold staysUp, fall, ground. cbn [fst snd].
    now rewrite negb_involutive, Y, Vl. }
  rewrite T. split.
  - intro L. rewrite arc_stays_up by (unfold lastAirborne; lia).
    cbn [negb arc]. unfold fall. rewrite Y, Vl. now split.
  - intros ->. change (staysUp 36) with (staysUp lastAirborne).
    rewrite arc_lands. cbn [negb]. now repeat split.
Qed.

(** Outside a game animation frames change nothing. *)
Lemma frames_idle n : forall w,
  Inv w -> gameState (rendered w) <> playing ->
  run (repeat AnimationFrame n) w = w.
Proof.
  induction n as [|n IH]; intros w V G; [reflexivity|].
  assert (E : run (repeat AnimationFrame (S n)) w =
              run (repeat AnimationFrame n) (step w AnimationFrame))
    by reflexivity.
  rewrite E, (frame_idle V G). now apply IH.
Qed.

Lemma frames_succ n w :
  run (repeat AnimationFrame (S n)) w =
  step (run (repeat AnimationFrame n) w) AnimationFrame.
Proof.
  change (repeat AnimationFrame (S n))
    with (AnimationFrame :: repeat AnimationFrame n).
  rewrite repeat_cons. unfold run. now rewrite fold_left_app.
Qed.

(** A game that plays after some frames played before each of them. *)
Lemma frames_on_arc n : forall w k,
  reachable w -> gameState (rendered w) = playing ->
  isJumping (rendered w) = true ->
  (crabY (rendered w), crabVelocity (rendered w)) = arc k ->
  (k + n <= 36)%nat ->
  let w' := run (repeat AnimationFrame n) w in
  gameState (rendered w') = playing ->
  reachable w' /\ isJumping (rendered w') = true /\
  (crabY (rendered w'), crabVelocity (rendered w')) = arc (k + n).
Proof.
  induction n as [|n IH]; intros w k R P J A K; cbv zeta.
  - intros _. rewrite Nat.add_0_r. now repeat split.
  - assert (E : run (repeat AnimationFrame (S n)) w =
                run (repeat AnimationFrame n) (step w AnimationFrame))
      by reflexivity.
    rewrite E. clear E. intro Pn.
    assert (R1 : reachable (step w AnimationFrame))
      by now apply reachable_step.
    assert (P1 : gameState (rendered (step w AnimationFrame)) = playing).
    { destruct (gameState (rendered (step w AnimationFrame))) eqn:G;
        [exfalso|reflexivity|exfalso];
        rewrite frames_idle in Pn
          by (try apply reachable_Inv; trivial; rewrite G; discriminate);
        congruence. }
    destruct (tick_on_arc k R P J A) as [T _].
    destruct T as [A1 J1]; [lia|].
    replace (k + S n)%nat with (S k + n)%nat by lia.
    apply IH; trivial. lia.
Qed.

Lemma arc_in_the_air k :
  (1 <= k <= 36)%nat -> fst (arc k) < GROUND_Y - CRAB_HEIGHT.
Proof.
  intro K.
  assert (T : forallb (fun k => fst (arc k) <? GROUND_Y - CRAB_HEIGHT)
                      (seq 1 36) = true) by (vm_compute; reflexivity).
  rewrite forallb_forall in T. apply NumFacts.ltb_lt, T, in_seq. lia.
Qed.

(** X3. A jump lasts 37 ticks.  When a player who stands on the ground
    presses the jump key and [n] animation frames follow, then, if the
    game still plays after them, the player is jumping when [n] is at
    most 36, above the ground level when [n] is between 1 and 36, and
    back at the ground level at rest, no longer jumping, when [n] is
    37. *)
Theorem jump_lasts_37_ticks (w : World) (n : nat) (R : reachable w)
        (P : gameState (rendered w) = playing)
        (J : isJumping (rendered w) = false)
        (S : isSliding (rendered w) = false) :
  let wn := run (repeat AnimationFrame n) (step w (KeyDown "Space")) in
  gameState (rendered wn) = playing ->
  ((n <= 36)%nat -> isJumping (rendered wn) = true) /\
  ((1 <= n <= 36)%nat -> crabY (rendered wn) < GROUND_Y - CRAB_HEIGHT) /\
  (n = 37%nat ->
   isJumping (rendered wn) = false /\
   crabY (rendered wn) = GROUND_Y - CRAB_HEIGHT /\
   crabVelocity (rendered wn) = Q2Qc 0).
Proof.
  cbv zeta. intro Pn.
  pose proof (reachable_Inv R) as V.
  destruct (jump_key V P J S) as [P0 [V0 [Y0 [J0 _]]]]. cbv zeta in *.
  assert (R0 : reachable (step w (KeyDown "Space")))
    by now apply reachable_step.
  assert (A0 : (crabY (rendered (step w (KeyDown "Space"))),
                crabVelocity (rendered (step w (KeyDown "Space")))) = arc 0).
  { pose proof (sound_player (reachable_sound R)) as G.
    unfold onArc in G. rewrite J in G. destruct G as [Y _].
    rewrite Y0, V0, Y. reflexivity. }
  split; [|split].
  - intro K.
    now destruct (frames_on_arc n 0 R0 P0 J0 A0 K Pn) as [_ [Jn _]].
  - intros [Lo Hi].
    destruct (frames_on_arc n 0 R0 P0 J0 A0 Hi Pn) as [_ [_ An]].
    assert (E : crabY (rendered (run (repeat AnimationFrame n)
                                     (step w (KeyDown "Space"))))
                = fst (arc n)) by (cbn [Nat.add] in An; now rewrite <- An).
    rewrite E. apply arc_in_the_air. lia.
  - intros ->. rewrite (frames_succ 36) in Pn. rewrite (frames_succ 36).
    set (w36 := run (repeat AnimationFrame 36) (step w (KeyDown "Space")))
      in *.
    assert (V36 : Inv w36) by now apply run_Inv, step_Inv.
    assert (P36 : gameState (rendered w36) = playing).
    { destruct (gameState (rendered w36)) eqn:G;
        [exfalso|reflexivity|exfalso];
        rewrite frame_idle in Pn by (trivial; rewrite G; discriminate);
        congruence. }
    destruct (frames_on_arc 36 0 R0 P0 J0 A0 (Nat.le_refl _) P36)
      as [R36 [J36 A36]].
    fold w36 in R36, J36, A36.
    destruct (tick_on_arc 36 R36 P36 J36 A36) as [_ L].
    destruct (L eq_refl) as [Y [Vl Jl]]. now repeat split.
Qed.

(** X4. While the game is playing the player overlaps no obstacle: an
    overlap ends the game in the event that produces it. *)
Theorem no_overlap_while_playing (w : World) (R : reachable w)
        (P : gameState (rendered w) = playing) :
  checkCollision (obstacles (rendered w)) (crabY (rendered w))
                 (isSliding (rendered w)) = false.
Proof. exact (reachable_clear R P). Qed.

(** ** Score and high score *)

(** What a handler leaves of the state that only the effects write. *)
Lemma handle_cases w ev :
  Inv w ->
  let w' := exec (handle ev) w in
  w' = w \/
  (gameState (rendered w) <> playing /\ requestsStart ev = true /\
   w' = updQueued startH w) \/
  (gameState (rendered w) = playing /\ isJumping (rendered w) = false /\
   isSliding (rendered w) = false /\ w' = jumpW w) \/
  (exists sliding pending,
      w' = slideW sliding pending w /\
      (sliding = true -> gameState (rendered w) = playing)) \/
  (ev = AnimationFrame /\ gameState (rendered w) = playing /\
   w' = tickW (gameLoopOf (rendered w)) (consumed w)).
Proof.
  intros V. cbv zeta.
  destruct ev as [|code|code|y height|].
  1: { rewrite handle_frame. destruct (raf w) as [cb|] eqn:C; [|now left].
       pose proof (inv_raf V) as R. rewrite C in R. symmetry in R.
       destruct (expected_Some _ R) as [G ->].
       right. right. right. right. now repeat split. }
  all: match goal with |- context [exec (handle ?e) ?w0] =>
         assert (N : e <> AnimationFrame) by discriminate;
         destruct (handle_input_cases w0 N) as [E|[E|[E|E]]]
       end; tauto.
Qed.


(** A handler leaves the game state alone unless it starts a game. *)
Lemma handle_gameState w ev :
  Inv w ->
  let w' := exec (handle ev) w in
  gameState (queued w') = gameState (rendered w) \/
  (gameState (rendered w) <> playing /\ queued w' = startH (rendered w)).
Proof.
  intro V. cbv zeta. pose proof (inv_settled V) as Q.
  destruct (handle_cases ev V)
    as [E|[[G [_ E]]|[[_ [_ [_ E]]]|[[b [tm [E _]]]|[_ [_ E]]]]]];
    rewrite E.
  - left. now rewrite Q.
  - right. split; [exact G|]. unfold updQueued. cbn [queued]. now rewrite Q.
  - left. unfold jumpW. cbn [queued]. rewrite Q. now destruct (rendered w).
  - left. unfold slideW. cbn [queued]. rewrite Q. now destruct (rendered w).
  - left. unfold tickW, consumed. cbn [queued gameState]. now rewrite Q.
Qed.

Lemma checkCollision_nil y sliding : checkCollision [] y sliding = false.
Proof. reflexivity. Qed.

(** The collision effect finds a hit exactly in the events that end a
    game. *)
Lemma hit_ends w ev :
  Inv w ->
  hit (exec (handle ev) w) = true <->
  gameState (rendered w) = playing /\
  gameState (rendered (step w ev)) = gameover.
Proof.
  intro V. rewrite step_gameState.
  destruct (handle_gameState ev V) as [E|[G E]].
  - destruct (hit _) eqn:H.
    + split; [|reflexivity]. intros _. split; [|reflexivity].
      unfold hit, collides in H. rewrite E in H.
      destruct (gameState (rendered w)); try reflexivity;
        cbn [gameState_eqb andb] in H; now rewrite andb_false_r in H.
    + rewrite E. split; [discriminate|]. intros [P O]. congruence.
  - assert (H : hit (exec (handle ev) w) = false).
    { unfold hit, collides. rewrite E. unfold startH. cbn.
      now rewrite andb_false_r. }
    rewrite H. split; [discriminate|]. intros [P _]. contradiction.
Qed.

Lemma handle_highScore w ev :
  Inv w ->
  let w' := exec (handle ev) w in
  highScore (queued w') = highScore (rendered w) /\ storage w' = storage w.
Proof.
  intro V. cbv zeta. pose proof (inv_settled V) as Q.
  destruct (handle_cases ev V)
    as [E|[[G [_ E]]|[[_ [_ [_ E]]]|[[b [tm [E _]]]|[_ [_ E]]]]]];
    rewrite E.
  - now rewrite Q.
  - unfold updQueued, startH. cbn. now rewrite Q.
  - unfold jumpW. cbn. now rewrite Q.
  - unfold slideW. cbn. now rewrite Q.
  - unfold tickW, consumed. cbn. now rewrite Q.
Qed.

Lemma step_storage w ev :
  let w1 := exec (handle ev) w in
  storage (step w ev) =
  if hit w1 && (score (queued w1) >? highScore (queued w1))%Z
  then Some (score (queued w1)) else storage w1.
Proof.
  cbv zeta. rewrite step_renders.
  set (w1 := exec (handle ev) w).
  unfold renderW at 1. cbn [storage]. rewrite hit_renderW. cbn [andb].
  reflexivity.
Qed.

Lemma step_score w ev :
  score (rendered (step w ev)) = score (queued (exec (handle ev) w)).
Proof.
  rewrite step_rendered. cbv zeta.
  destruct (hit _); [apply afterHit_score | reflexivity].
Qed.

Lemma afterHit_highScore h ps q :
  highScore (afterHit h ps q) =
  if (score h >? highScore h)%Z then score h else highScore q.
Proof. unfold afterHit. now destruct (score h >? highScore h)%Z, q. Qed.

Lemma step_highScore w ev :
  let w1 := exec (handle ev) w in
  highScore (rendered (step w ev)) =
  if hit w1 && (score (queued w1) >? highScore (queued w1))%Z
  then score (queued w1) else highScore (queued w1).
Proof.
  rewrite step_rendered. cbv zeta.
  destruct (hit _); [|reflexivity]. cbn [andb]. apply afterHit_highScore.
Qed.

(** X5. The high score shown is the stored one (0 when nothing is
    stored).  An event that ends a game leaves the larger of the final
    score and the previous high score, and stores the final score when it
    is the larger one; every other event leaves the high score and the
    stored value as they are. *)
Theorem high_score_is_the_stored_maximum
        (w : World) (ev : Event) (R : reachable w) :
  let w' := step w ev in
  highScore (rendered w) = stored (storage w) /\
  (gameState (rendered w) = playing /\ gameState (rendered w') = gameover ->
   highScore (rendered w') =
     Z.max (score (rendered w')) (highScore (rendered w)) /\
   storage w' =
     if (score (rendered w') >? highScore (rendered w))%Z
     then Some (score (rendered w')) else storage w) /\
  (~ (gameState (rendered w) = playing /\
      gameState (rendered w') = gameover) ->
   highScore (rendered w') = highScore (rendered w) /\
   storage w' = storage w).
Proof.
  cbv zeta. pose proof (reachable_Inv R) as V.
  split; [exact (sound_high (reachable_sound R))|].
  rewrite step_highScore, step_storage, step_score. cbv zeta.
  destruct (handle_highScore ev V) as [-> ->].
  pose proof (hit_ends ev V) as H.
  split.
  - intro E. apply H in E. rewrite E. cbn [andb]. split; [|reflexivity].
    destruct (Z.gtb_spec (score (queued (exec (handle ev) w)))
                         (highScore (rendered w))); lia.
  - intro E. destruct (hit _); [exfalso; apply E, H; reflexivity|].
    now split.
Qed.

(** X6. The "new high score" banner of the game-over overlay is shown
    after a game ends exactly when the final score is positive and at
    least the high score from before the game ended: also when it only
    equals that high score. *)
Theorem new_high_score_banner (w : World) (ev : Event) (R : reachable w)
        (P : gameState (rendered w) = playing)
        (O : gameState (rendered (step w ev)) = gameover) :
  newHighScoreShown (rendered (step w ev)) =
  (score (rendered (step w ev)) >=? highScore (rendered w))%Z &&
  (score (rendered (step w ev)) >? 0)%Z.
Proof.
  pose proof (reachable_Inv R) as V.
  unfold newHighScoreShown. rewrite O. cbn [gameState_eqb andb].
  rewrite step_highScore, step_score. cbv zeta.
  destruct (handle_highScore ev V) as [-> _].
  assert (H : hit (exec (handle ev) w) = true)
    by (apply (hit_ends ev V); now split).
  rewrite H. cbn [andb]. f_equal.
  destruct (Z.gtb_spec (score (queued (exec (handle ev) w)))
                       (highScore (rendered w))); lia.
Qed.


(** ** Obstacles *)

(** X8. Every obstacle of the field has the size its type has in
    [spawnObstacle], a vertical position in the closed range that function
    draws from (160 to 220 for a seagull, 210 to 250 for a jellyfish), a
    horizontal position above the prune threshold -100 and at most the
    spawn position 850, and its lower edge on or above the ground line. *)
Theorem obstacles_keep_their_catalogue_geometry
        (w : World) (obs : Obstacle.t) (R : reachable w)
        (I : In obs (obstacles (rendered w))) :
  placed obs /\ Obstacle.y obs + Obstacle.height obs <= GROUND_Y.
Proof.
  pose proof (sound_field (reachable_sound R)) as F.
  rewrite Forall_forall in F. specialize (F obs I).
  split; [exact F|].
  destruct F as [_ [_ T]].
  destruct (Obstacle.type obs); destruct T as [Y [_ ->]];
    try rewrite Y; qc_lra.
Qed.

(** X9. A sliding player overlaps no seagull and no jellyfish of the
    field, wherever the obstacle is; a player standing on the ground
    overlaps no seagull; and sliding does not help against a rock or a
    wave: the sliding hit box overlaps one exactly when the two overlap
    horizontally. *)
Theorem slide_clears_flyers_only
        (w : World) (obs : Obstacle.t) (crabYPos : Qc) (R : reachable w)
        (I : In obs (obstacles (rendered w))) :
  match Obstacle.type obs with
  | seagull =>
      overlaps crabYPos true obs = false /\
      overlaps (GROUND_Y - CRAB_HEIGHT) false obs = false
  | jellyfish => overlaps crabYPos true obs = false
  | rock | wave =>
      overlaps crabYPos true obs =
      (crabX <? Obstacle.x obs + Obstacle.width obs) &&
      (crabX + CRAB_WIDTH >? Obstacle.x obs)
  end.
Proof.
  pose proof (sound_field (reachable_sound R)) as F.
  rewrite Forall_forall in F. specialize (F obs I).
  destruct F as [_ [_ T]].
  unfold overlaps, crabYOffset, crabH.
  destruct (Obstacle.type obs).
  - destruct T as [Y [_ H]]. rewrite Y, H.
    assert (A : (GROUND_Y - SLIDE_HEIGHT <? GROUND_Y - Q2Qc 35 + Q2Qc 35)
                = true) by (apply NumFacts.ltb_lt; qc_lra).
    assert (B : (GROUND_Y - SLIDE_HEIGHT + SLIDE_HEIGHT >? GROUND_Y - Q2Qc 35)
                = true) by (apply NumFacts.ltb_lt; qc_lra).
    now rewrite A, B, !andb_true_r.
  - destruct T as [Y [_ H]]. rewrite Y, H.
    assert (A : (GROUND_Y - SLIDE_HEIGHT <? GROUND_Y - Q2Qc 50 + Q2Qc 50)
                = true) by (apply NumFacts.ltb_lt; qc_lra).
    assert (B : (GROUND_Y - SLIDE_HEIGHT + SLIDE_HEIGHT >? GROUND_Y - Q2Qc 50)
                = true) by (apply NumFacts.ltb_lt; qc_lra).
    now rewrite A, B, !andb_true_r.
  - destruct T as [[Lo Hi] [_ H]]. rewrite H.
    assert (A : (GROUND_Y - SLIDE_HEIGHT <? Obstacle.y obs + Q2Qc 30) = false)
      by (apply NumFacts.ltb_ge; qc_lra).
    assert (B : (GROUND_Y - CRAB_HEIGHT <? Obstacle.y obs + Q2Qc 30) = false)
      by (apply NumFacts.ltb_ge; qc_lra).
    rewrite A, B, !andb_false_r. now split.
  - destruct T as [[Lo Hi] [_ H]]. rewrite H.
    assert (A : (GROUND_Y - SLIDE_HEIGHT <? Obstacle.y obs + Q2Qc 45) = false)
      by (apply NumFacts.ltb_ge; qc_lra).
    now rewrite A, !andb_false_r.
Qed.

(** What [spawnObstacle] appends. *)
Lemma spawned_x rc id : Obstacle.x (spawned rc id) = GAME_WIDTH + Q2Qc 50.
Proof. unfold spawned. now destruct (pickType _). Qed.

(** X10. [spawnObstacle] appends one obstacle to the queued field and
    changes nothing else of the queued state: the obstacle carries the
    next obstacle id, which is then incremented, it stands at x = 850 and
    its type is one of the table with the geometry of that type. *)
Theorem spawnObstacle_appends_one (w : World) :
  let w' := exec spawnObstacle w in
  exists obs,
    queued w' = withObstacles (fun prev => prev ++ [obs]) (queued w) /\
    Obstacle.id obs = obstacleIdRef w /\
    Obstacle.x obs = GAME_WIDTH + Q2Qc 50 /\
    In (Obstacle.type obs) types /\
    placed obs /\
    obstacleIdRef w' = (obstacleIdRef w + 1)%Z.
Proof.
  cbv zeta. unfold exec. rewrite spawnObstacle_run. cbn [snd queued obstacleIdRef].
  exists (spawned (randomCalls w) (obstacleIdRef w)).
  split; [reflexivity|]. split; [apply spawned_id|].
  split; [apply spawned_x|]. split; [|split; [apply spawned_placed|reflexivity]].
  unfold types. destruct (Obstacle.type _); cbn; tauto.
Qed.

(** ** Particles *)

Lemma burst_id_list x y n color : forall pid rc,
  map Particle.id (burst x y n color pid rc) =
  map (fun i => (pid + Z.of_nat i)%Z) (seq 0 n).
Proof.
  induction n as [|n IH]; intros pid rc; [reflexivity|].
  cbn [burst map seq Particle.id]. f_equal; [cbn; lia|].
  rewrite IH, <- seq_shift, map_map.
  apply map_ext. intro i. lia.
Qed.

(** X11. [createParticles x y count color] appends [count] particles to
    the queued ones and changes nothing else of the queued state.  The
    new particles carry the next [count] particle ids in order, start at
    [(x, y)] with the colour asked for, a horizontal velocity in [-4, 4),
    an upward velocity in [-6, 0) and a life from 30 to 50; the id
    counter advances by [count]. *)
Theorem createParticles_appends_a_burst
        (x y : Qc) (count : nat) (color : string) (w : World) :
  let w' := exec (createParticles x y count color) w in
  exists fresh,
    queued w' = withParticles (fun prev => prev ++ fresh) (queued w) /\
    length fresh = count /\
    map Particle.id fresh =
      map (fun i => (particleIdRef w + Z.of_nat i)%Z) (seq 0 count) /\
    Forall (fun p =>
              Particle.x p = x /\ Particle.y p = y /\
              Particle.color p = color /\
              (Q2Qc (-4) <= Particle.vx p /\ Particle.vx p < Q2Qc 4) /\
              (Q2Qc (-6) <= Particle.vy p /\ Particle.vy p < Q2Qc 0) /\
              (Q2Qc 30 <= Particle.life p /\ Particle.life p <= Q2Qc 50))
           fresh /\
    particleIdRef w' = (particleIdRef w + Z.of_nat count)%Z.
Proof.
  cbv zeta. unfold exec. rewrite createParticles_run.
  cbn [snd queued particleIdRef].
  exists (burst x y count color (particleIdRef w) (randomCalls w)).
  split; [reflexivity|]. split; [apply burst_length|].
  split; [apply burst_id_list|]. split; [|reflexivity].
  eapply Forall_impl; [|apply burst_shape]. cbv beta.
  intros p [X [Y [C [Vx [Vy [Lo Hi]]]]]].
  repeat (split; trivial). now apply Qclt_le_weak.
Qed.

(** X12. Every particle on screen has a life above 0 and at most 50, so
    the opacity it is drawn with, [life / 50], is above 0 and at most
    1. *)
Theorem particle_opacity_in_range
        (w : World) (p : Particle.t) (R : reachable w)
        (I : In p (particles (rendered w))) :
  (Q2Qc 0 < Particle.life p /\ Particle.life p <= Q2Qc 50) /\
  Q2Qc 0 < particleOpacity p /\ particleOpacity p <= Q2Qc 1.
Proof.
  pose proof (sound_life (reachable_sound R)) as F.
  rewrite Forall_forall in F. destruct (F p I) as [Lo Hi].
  split; [split; [exact Lo | now apply Qclt_le_weak]|].
  unfold particleOpacity, Qcdiv, Qcinv, Qclt, Qcle, Qcmult in *.
  cbn [this Q2Qc] in *. rewrite ?Qred_correct in *.
  setoid_replace (/ 50)%Q with (1 # 50)%Q by reflexivity.
  split; lra.
Qed.

Lemma advanceParticles_life n ps :
  Forall (fun p => Q2Qc 0 < Particle.life p /\
                   Particle.life p <= Q2Qc (inject_Z (Z.of_nat (S n)))) ps ->
  Forall (fun p => Q2Qc 0 < Particle.life p /\
                   Particle.life p <= Q2Qc (inject_Z (Z.of_nat n)))
         (advanceParticles ps).
Proof.
  intro F. rewrite Forall_forall in *. intros p I.
  apply advanceParticles_In in I. destruct I as [p0 [I [E L]]].
  split; [exact L|]. destruct (F p0 I) as [_ Hi].
  subst p. unfold moveParticle. cbn [Particle.life].
  rewrite Nat2Z.inj_succ, <- Z.add_1_r, inject_Z_plus in Hi.
  unfold Qcle, Qcminus, Qcopp, Qcplus in *. cbn [this Q2Qc] in *.
  rewrite ?Qred_correct in *. change (inject_Z 1) with 1%Q in Hi. lra.
Qed.

Lemma particles_gone n : forall ps,
  Forall (fun p => Q2Qc 0 < Particle.life p /\
                   Particle.life p <= Q2Qc (inject_Z (Z.of_nat n))) ps ->
  Nat.iter n advanceParticles ps = [].
Proof.
  induction n as [|n IH]; intros ps F.
  - destruct ps as [|p ps]; [reflexivity|]. exfalso.
    apply Forall_inv in F. destruct F as [Lo Hi].
    exact (Qclt_not_le _ _ Lo Hi).
  - rewrite Nat.iter_succ_r. apply IH. now apply advanceParticles_life.
Qed.

(** X13. No particle outlives 50 ticks: the particle updater applied 50
    times to the particles on screen leaves none of them. *)
Theorem particles_gone_after_50_ticks (w : World) (R : reachable w) :
  Nat.iter 50 advanceParticles (particles (rendered w)) = [].
Proof.
  apply particles_gone.
  eapply Forall_impl; [|exact (sound_life (reachable_sound R))].
  cbv beta. intros p [Lo Hi]. split; [exact Lo|].
  unfold Qcle, Qclt in *. cbn [this Q2Qc] in *.
  rewrite ?Qred_correct in *.
  change (inject_Z (Z.of_nat 50)) with 50%Q. lra.
Qed.

(** X14. The keys React is given are unique: no two obstacles of the
    field share an id, no two particles on screen share an id, and the
    counters the next ids come from are above every id in use. *)
Theorem element_keys_are_unique (w : World) (R : reachable w) :
  NoDup (map Obstacle.id (obstacles (rendered w))) /\
  NoDup (map Particle.id (particles (rendered w))) /\
  Forall (fun obs => (Obstacle.id obs < obstacleIdRef w)%Z)
         (obstacles (rendered w)) /\
  Forall (fun p => (Particle.id p < particleIdRef w)%Z)
         (particles (rendered w)).
Proof.
  pose proof (reachable_Inv R) as V. pose proof (reachable_sound R) as So.
  split; [exact (inv_unique V)|]. split; [exact (sound_punique So)|].
  split; [exact (inv_ids V)|exact (sound_pids So)].
Qed.

(** X15. The parallax offset stays in [0, 800). *)
Theorem parallax_offset_in_range (w : World) (R : reachable w) :
  Q2Qc 0 <= parallaxOffset (rendered w) /\
  parallaxOffset (rendered w) < Q2Qc 800.
Proof. exact (sound_parallax (reachable_sound R)). Qed.

(** X16. The grid lines on the ground are shifted by
    [-parallaxOffset % 50], which stays in (-50, 0]. *)
Theorem grid_shift_in_range (w : World) (R : reachable w) :
  Q2Qc (-50) < gridShift (rendered w) /\ gridShift (rendered w) <= Q2Qc 0.
Proof.
  unfold gridShift. apply rem_50_range.
  destruct (sound_parallax (reachable_sound R)) as [Lo _]. qc_lra.
Qed.

(** ** Input *)

(** An event whose handler queues nothing that a dependency list sees:
    the render commits what is queued and no effect runs. *)
Lemma quiet_step w ev :
  let w1 := exec (handle ev) w in
  hit w1 = false -> loopDepsChanged (rendered w1) (queued w1) = false ->
  step w ev =
  mkWorld (queued w1) (queued w1) (obstacleIdRef w1) (particleIdRef w1)
          (lastObstacleTimeRef w1) (frameCountRef w1) (raf w1) (timers w1)
          (storage w1) (clockCalls w1) (randomCalls w1).
Proof.
  cbv zeta. intros H D. rewrite step_renders.
  set (w1 := exec (handle ev) w) in *.
  assert (E : renderW w1 =
              mkWorld (queued w1) (queued w1) (obstacleIdRef w1)
                      (particleIdRef w1) (lastObstacleTimeRef w1)
                      (frameCountRef w1) (raf w1) (timers w1) (storage w1)
                      (clockCalls w1) (randomCalls w1)).
  { unfold renderW, rearmed. rewrite H, D. reflexivity. }
  rewrite E. now apply renderW_idle.
Qed.

Lemma unchanged_step w ev : Inv w -> exec (handle ev) w = w -> step w ev = w.
Proof.
  intros V E. rewrite step_renders, E.
  now rewrite !(renderW_idle w (inv_settled V)).
Qed.

Lemma loopDeps_slide h b : loopDepsChanged h (withIsSliding b h) = false.
Proof.
  unfold loopDepsChanged, gameLoopChanged, withIsSliding.
  cbn [gameState crabVelocity gameSpeed isJumping score].
  now rewrite gameState_eqb_refl, !NumFacts.eqb_refl, Bool.eqb_reflx,
    Z.eqb_refl.
Qed.

Ltac decide_codes :=
  repeat match goal with
         | |- context [isCode ?c ?l] =>
             let b := eval vm_compute in (isCode c l) in
             change (isCode c l) with b
         end.

Lemma handle_slide_down w code :
  gameState (rendered w) = playing -> isJumping (rendered w) = false ->
  isCode code ["ArrowDown"; "KeyS"] = true ->
  exec (handle (KeyDown code)) w = slideW true (timers w) w.
Proof.
  intros P J C. apply isCode_cases in C.
  destruct w as [[gs sc hs cy cv sl jp ob oa pa sp po] q
                 ? ? ? ? ? ? ? ? ?].
  cbn [rendered gameState isJumping] in P, J. subst gs jp.
  unfold handle, handleKeyDown, slideW. act_cbn.
  destruct C as [<-|[<-|[]]]; decide_codes; act_cbn; reflexivity.
Qed.

Lemma handle_slide_up w code :
  isCode code ["ArrowDown"; "KeyS"] = true ->
  exec (handle (KeyUp code)) w = slideW false (timers w) w.
Proof.
  intros C. destruct w as [r q ? ? ? ? ? ? ? ? ?].
  unfold handle, handleKeyUp, slideW. act_cbn. rewrite C. act_cbn.
  reflexivity.
Qed.

Lemma handle_touch_low w y height :
  gameState (rendered w) = playing -> height / Q2Qc 2 <= y ->
  exec (handle (TouchStart y height)) w = slideW true (S (timers w)) w.
Proof.
  intros P L. apply NumFacts.ltb_ge in L.
  destruct w as [[gs sc hs cy cv sl jp ob oa pa sp po] q
                 ? ? ? ? ? ? ? ? ?].
  cbn [rendered gameState] in P. subst gs.
  unfold handle, handleTouch, slideW, Num.geb. act_cbn. rewrite L. act_cbn.
  reflexivity.
Qed.

Lemma handle_timeout w n :
  timers w = S n -> exec (handle Timeout) w = slideW false n w.
Proof.
  intros T. destruct w as [r q ? ? ? ? ? tm ? ? ?].
  cbn [timers] in T. subst tm.
  unfold handle, slideTimeout, slideW. act_cbn. reflexivity.
Qed.

(** The sliding hit box of a player on the ground lies within the
    standing one. *)
Lemma slide_within_standing obstacles :
  checkCollision obstacles (GROUND_Y - CRAB_HEIGHT) false = false ->
  checkCollision obstacles (GROUND_Y - CRAB_HEIGHT) true = false.
Proof.
  induction obstacles as [|obs rest IH]; [reflexivity|].
  cbn [checkCollision].
  destruct (overlaps _ false obs) eqn:A; [discriminate|].
  intro C. rewrite (IH C).
  destruct (overlaps _ true obs) eqn:B; [|reflexivity].
  exfalso. apply overlaps_true in B. destruct B as [B1 [B2 [B3 B4]]].
  assert (T : overlaps (GROUND_Y - CRAB_HEIGHT) false obs = true).
  { apply overlaps_true. unfold crabYOffset, crabH in *.
    split; [exact B1|]. split; [exact B2|]. split; qc_lra. }
  congruence.
Qed.

(** A slide on the ground and its end, whatever requested them. *)
Lemma slide_and_back w ev1 ev2 n :
  reachable w ->
  gameState (rendered w) = playing ->
  isJumping (rendered w) = false -> isSliding (rendered w) = false ->
  exec (handle ev1) w = slideW true n w ->
  (forall w1, timers w1 = n ->
              exec (handle ev2) w1 = slideW false (timers w) w1) ->
  let w1 := step w ev1 in
  isSliding (rendered w1) = true /\ gameState (rendered w1) = playing /\
  step w1 ev2 = w.
Proof.
  intros R P J S E1 E2. cbv zeta.
  pose proof (reachable_Inv R) as V. pose proof (inv_settled V) as Q.
  pose proof (reachable_clear R P) as C.
  pose proof (sound_player (reachable_sound R)) as G.
  unfold onArc in G. rewrite J in G. destruct G as [Y _].
  unfold ground in Y. rewrite Y, S in C.
  assert (D : step w ev1 =
              mkWorld (withIsSliding true (rendered w))
                      (withIsSliding true (rendered w))
                      (obstacleIdRef w) (particleIdRef w)
                      (lastObstacleTimeRef w) (frameCountRef w) (raf w) n
                      (storage w) (clockCalls w) (randomCalls w)).
  { rewrite quiet_step; rewrite E1; unfold slideW;
      cbn [rendered queued obstacleIdRef particleIdRef lastObstacleTimeRef
           frameCountRef raf timers storage clockCalls randomCalls];
      rewrite Q.
    - reflexivity.
    - unfold hit, collides. cbn [rendered queued].
      unfold withIsSliding. cbn [gameState obstacles crabY isSliding].
      rewrite Y, (slide_within_standing _ C). now rewrite !andb_false_r.
    - apply loopDeps_slide. }
  rewrite D. cbn [rendered]. split; [reflexivity|].
  split; [unfold withIsSliding; cbn [gameState]; exact P|].
  rewrite quiet_step; (rewrite E2 by reflexivity); unfold slideW;
    cbn [rendered queued obstacleIdRef particleIdRef lastObstacleTimeRef
         frameCountRef raf timers storage clockCalls randomCalls].
  - destruct w as [r q ? ? ? ? ? ? ? ? ?]. cbn [queued rendered] in *.
    subst q. destruct r as [gs sc hs cy cv sl jp ob oa pa sp po].
    cbn [isSliding] in S. subst sl. reflexivity.
  - unfold hit, collides. cbn [rendered queued].
    unfold withIsSliding. cbn [gameState obstacles crabY isSliding].
    rewrite Y, C. now rewrite !andb_false_r.
  - unfold loopDepsChanged, gameLoopChanged, withIsSliding.
    cbn [gameState crabVelocity gameSpeed isJumping score].
    now rewrite gameState_eqb_refl, !NumFacts.eqb_refl, Bool.eqb_reflx,
      Z.eqb_refl.
Qed.

(** X17. Pressing and releasing a slide key is a round trip for a player
    who stands on the ground: the key down makes him slide and the game
    goes on, the key up brings back the very state the key down found. *)
Theorem slide_key_round_trip (w : World) (code : string) (R : reachable w)
        (P : gameState (rendered w) = playing)
        (J : isJumping (rendered w) = false)
        (S : isSliding (rendered w) = false)
        (K : isCode code ["ArrowDown"; "KeyS"] = true) :
  let w1 := step w (KeyDown code) in
  isSliding (rendered w1) = true /\ gameState (rendered w1) = playing /\
  step w1 (KeyUp code) = w.
Proof.
  apply slide_and_back with (n := timers w); trivial.
  - now apply handle_slide_down.
  - intros w1 T. rewrite <- T. now apply handle_slide_up.
Qed.

(** X18. A touch on the lower half of the game area makes a player who
    stands on the ground slide and leaves one timer pending; when the
    timer fires the state the touch found is back. *)
Theorem touch_slide_round_trip (w : World) (y height : Qc) (R : reachable w)
        (P : gameState (rendered w) = playing)
        (J : isJumping (rendered w) = false)
        (S : isSliding (rendered w) = false)
        (L : height / Q2Qc 2 <= y) :
  let w1 := step w (TouchStart y height) in
  isSliding (rendered w1) = true /\ gameState (rendered w1) = playing /\
  timers w1 = Datatypes.S (timers w) /\
  step w1 Timeout = w.
Proof.
  cbv zeta.
  destruct (@slide_and_back w (TouchStart y height) Timeout
                            (Datatypes.S (timers w)) R P J S)
    as [A [B C]].
  - now apply handle_touch_low.
  - intros w1 T. now apply handle_timeout.
  - split; [exact A|]. split; [exact B|]. split; [|exact C].
    pose proof (reachable_Inv R) as V.
    rewrite step_renders, (handle_touch_low _ P L). reflexivity.
Qed.

(** X19. Keys other than Space, Enter, ArrowUp, KeyW, ArrowDown and KeyS
    do nothing in any state, pressed or released; neither does the Enter
    key during a game. *)
Theorem other_keys_do_nothing (w : World) (code : string) (R : reachable w) :
  (isCode code ["Space"; "Enter"; "ArrowUp"; "KeyW"; "ArrowDown"; "KeyS"]
   = false ->
   step w (KeyDown code) = w /\ step w (KeyUp code) = w) /\
  (gameState (rendered w) = playing ->
   step w (KeyDown "Enter") = w /\ step w (KeyUp "Enter") = w).
Proof.
  pose proof (reachable_Inv R) as V. split.
  - intro N. unfold isCode in N. cbn [existsb] in N.
    repeat (apply orb_false_iff in N; destruct N as [? N]).
    split; apply (unchanged_step _ V);
      destruct w as [[gs sc hs cy cv sl jp ob oa pa sp po] q
                     ? ? ? ? ? ? ? ? ?];
      unfold handle, handleKeyDown, handleKeyUp, isCode; act_cbn;
      cbn [existsb];
      repeat match goal with
             | E : (code =? _)%string = false |- _ => rewrite E; clear E
             end;
      act_cbn; destruct gs; reflexivity.
  - intro P. split; apply (unchanged_step _ V);
      destruct w as [[gs sc hs cy cv sl jp ob oa pa sp po] q
                     ? ? ? ? ? ? ? ? ?];
      cbn [rendered gameState] in P; subst gs;
      unfold handle, handleKeyDown, handleKeyUp; act_cbn; decide_codes;
      act_cbn; rewrite ?andb_false_r; reflexivity.
Qed.

End Properties.

(** ** The type table *)

Ltac decide_ltb :=
  repeat match goal with
         | |- context [?a <? ?b] =>
             let A := fresh "A" in
             destruct (a <? b) eqn:A;
             [apply NumFacts.ltb_lt in A | apply NumFacts.ltb_ge in A]
         end.

(** X20. [spawnObstacle] picks the type by the quarter of [0, 1) its
    first random number falls in: a rock below 0.25, a wave below 0.5, a
    seagull below 0.75 and a jellyfish from there on. *)
Theorem pickType_by_quarters (u : Unit01) :
  pickType (sample u) =
  if sample u <? Q2Qc 0.25 then rock
  else if sample u <? Q2Qc 0.5 then wave
  else if sample u <? Q2Qc 0.75 then seagull
  else jellyfish.
Proof.
  pose proof (pick_index_range u) as Rg.
  unfold pickType. unfold Num.floor in *.
  set (r := sample u) in *.
  assert (E : (this (r * Q2Qc 4) == this r * 4)%Q).
  { cbn [Qcmult this Q2Qc]. rewrite Qred_correct.
    apply Qmult_comp; [reflexivity|]. apply Qred_correct. }
  assert (Lo : (inject_Z (Qfloor (r * Q2Qc 4)%Qc) <= this r * 4)%Q)
    by (rewrite <- E; apply Qfloor_le).
  assert (Hi : (this r * 4 < inject_Z (Qfloor (r * Q2Qc 4)%Qc + 1))%Q)
    by (rewrite <- E; apply Qlt_floor).
  remember (Qfloor (r * Q2Qc 4)%Qc) as z eqn:Z0. clear Z0 E.
  assert (C : z = 0%Z \/ z = 1%Z \/ z = 2%Z \/ z = 3%Z) by lia.
  clearbody r.
  destruct C as [-> | [-> | [-> | ->]]]; cbn in Lo, Hi;
    unfold inject_Z in Lo, Hi; cbn [Z.to_nat Pos.to_nat
    Pos.iter_op Nat.add nth types];
    decide_ltb; try reflexivity; exfalso;
    unfold Qclt, Qcle in *; cbn [this Q2Qc] in *;
    rewrite ?Qred_correct in *; lra.
Qed.

(** ** Steady frame rates *)

Section Steady.

Context {browser : Browser}.

Hypothesis steady :
  forall c k, (k <= 10)%nat -> (dateNow (c + k) - dateNow c <= 700)%Z.

Lemma calm_render w : Calm w -> Calm (renderW w).
Proof.
  intros [O [G T]].
  assert (H : hit w = false).
  { unfold hit, collides. rewrite O. cbn [checkCollision].
    now rewrite !andb_false_r. }
  unfold Calm, renderW, timed. rewrite H.
  cbn [queued raf lastObstacleTimeRef clockCalls frameCountRef].
  split; [exact O|]. split; [exact G|].
  unfold rearmed. destruct (loopDepsChanged _ _); cbn [andb]; [|exact T].
  intro E. unfold expected in E.
  destruct (gameState_eqb _ playing); [|congruence].
  exists (clockCalls w). split; [reflexivity|lia].
Qed.

Lemma calm_handle w ev : Inv w -> Calm w -> Calm (exec (handle ev) w).
Proof.
  intros V [O [G T]]. pose proof (inv_settled V) as Q.
  destruct (handle_cases ev V)
    as [E|[[_ [_ E]]|[[_ [_ [_ E]]]|[[b [tm [E _]]]|[_ [P E]]]]]];
    rewrite E.
  - now split.
  - unfold Calm, updQueued, startH, timed in *.
    cbn [queued raf lastObstacleTimeRef clockCalls frameCountRef].
    split; [reflexivity|]. split; [discriminate|exact T].
  - unfold Calm, jumpW, timed in *.
    cbn [queued raf lastObstacleTimeRef clockCalls frameCountRef].
    split; [now destruct (queued w)|]. split; [now destruct (queued w)|exact T].
  - unfold Calm, slideW, timed in *.
    cbn [queued raf lastObstacleTimeRef clockCalls frameCountRef].
    split; [now destruct (queued w)|]. split; [now destruct (queued w)|exact T].
  - assert (A : raf w <> None)
      by (rewrite (inv_raf V), (expected_playing _ P); discriminate).
    destruct (T A) as [c [L K]]. pose proof (inv_frames V) as F.
    assert (D : spawnDue (gameLoopOf (rendered w)) (consumed w) = false).
    { unfold spawnDue, consumed, spawnIntervalMs.
      cbn [clockCalls lastObstacleTimeRef]. rewrite L.
      replace (clockCalls w)
        with (c + Z.to_nat (1 + frameCountRef w))%nat by lia.
      pose proof (steady c (k := Z.to_nat (1 + frameCountRef w))) as B.
      destruct (Z.gtb_spec
                  (dateNow (c + Z.to_nat (1 + frameCountRef w)) - dateNow c)
                  (1500 - Z.min (GameLoop.score (gameLoopOf (rendered w)) * 2)
                                800)); [lia|reflexivity]. }
    unfold Calm, tickW, timed. rewrite D.
    cbn [queued raf lastObstacleTimeRef clockCalls frameCountRef consumed
         obstacles gameState].
    rewrite O. split; [reflexivity|]. split; [exact G|].
    intros _. exists c. split; [exact L|lia].
Qed.

Lemma calm_step w ev : Inv w -> Calm w -> Calm (step w ev).
Proof.
  intros V K. rewrite step_renders.
  now apply calm_render, calm_render, calm_handle.
Qed.

Lemma calm_run evs : forall w, Inv w -> Calm w -> Calm (run evs w).
Proof.
  induction evs as [|ev evs IH]; intros w V K; [exact K|].
  cbn [run fold_left]. apply IH; [now apply step_Inv | now apply calm_step].
Qed.

(** X21. At a steady frame rate no obstacle ever appears.  When the
    clock advances at most 700 ms over any ten readings in a row (at 60
    frames a second it advances about 167 ms), the field stays empty
    whatever the player does, and no game ever ends: the loop effect
    restarts the spawn clock with the frame counter before the spawn
    interval can pass. *)
Theorem steady_frames_never_spawn (w : World) (R : reachable w) :
  obstacles (rendered w) = [] /\ gameState (rendered w) <> gameover.
Proof.
  pose proof (reachable_Inv R) as V.
  destruct R as [saved [evs ->]].
  assert (K : Calm (run evs (mount saved))).
  { apply calm_run; [apply mount_Inv|].
    split; [reflexivity|]. split; [discriminate|]. intro A. now elim A. }
  destruct K as [O [G _]]. rewrite (inv_settled V) in O, G. now split.
Qed.

End Steady.

(** * More sample runs *)

Lemma jumped_reachable (b : Browser) : @reachable b (jumped b).
Proof. unfold jumped. apply reachable_step, started_reachable. Qed.

Lemma midAir_reachable (b : Browser) : @reachable b (midAir b).
Proof. unfold midAir. apply reachable_step, jumped_reachable. Qed.

Lemma seagullLeaving_reachable : @reachable slowSeagulls seagullLeaving.
Proof. unfold seagullLeaving. apply reachable_run, mount_reachable. Qed.

Lemma rockArrives_reachable : @reachable slowRocks rockArrives.
Proof. unfold rockArrives. apply reachable_run, mount_reachable. Qed.


Lemma jump_height_bounded_witness :
  @reachable fastSeagulls (midAir fastSeagulls) /\
  Q2Qc 146.8 <= crabY (rendered (midAir fastSeagulls)) /\
  crabY (rendered (midAir fastSeagulls)) <= Q2Qc 280.
Proof.
  assert (R := midAir_reachable fastSeagulls).
  destruct (@jump_height_bounded fastSeagulls _ R) as [Lo Hi].
  split; [exact R|]. split; [exact Lo | exact Hi].
Defined.

Lemma jump_lasts_37_ticks_witness :
  @reachable fastSeagulls (started fastSeagulls) /\
  gameState (rendered (started fastSeagulls)) = playing /\
  isJumping (rendered (started fastSeagulls)) = false /\
  isSliding (rendered (started fastSeagulls)) = false /\
  (gameState
     (rendered (@run fastSeagulls (repeat AnimationFrame 36)
                     (@step fastSeagulls (started fastSeagulls)
                            (KeyDown "Space")))) = playing /\
   isJumping
     (rendered (@run fastSeagulls (repeat AnimationFrame 36)
                     (@step fastSeagulls (started fastSeagulls)
                            (KeyDown "Space")))) = true /\
   crabY
     (rendered (@run fastSeagulls (repeat AnimationFrame 36)
                     (@step fastSeagulls (started fastSeagulls)
                            (KeyDown "Space"))))
   < GROUND_Y - CRAB_HEIGHT) /\
  (gameState
     (rendered (@run fastSeagulls (repeat AnimationFrame 37)
                     (@step fastSeagulls (started fastSeagulls)
                            (KeyDown "Space")))) = playing /\
   isJumping
     (rendered (@run fastSeagulls (repeat AnimationFrame 37)
                     (@step fastSeagulls (started fastSeagulls)
                            (KeyDown "Space")))) = false /\
   crabY
     (rendered (@run fastSeagulls (repeat AnimationFrame 37)
                     (@step fastSeagulls (started fastSeagulls)
                            (KeyDown "Space"))))
   = GROUND_Y - CRAB_HEIGHT).
Proof.
  assert (R := started_reachable fastSeagulls).
  assert (P : gameState (rendered (started fastSeagulls)) = playing)
    by reflexivity.
  assert (J : isJumping (rendered (started fastSeagulls)) = false)
    by reflexivity.
  assert (S : isSliding (rendered (started fastSeagulls)) = false)
    by reflexivity.
  assert (P36 : gameState
                  (rendered (@run fastSeagulls (repeat AnimationFrame 36)
                                  (@step fastSeagulls (started fastSeagulls)
                                         (KeyDown "Space")))) = playing)
    by (vm_compute; reflexivity).
  assert (P37 : gameState
                  (rendered (@run fastSeagulls (repeat AnimationFrame 37)
                                  (@step fastSeagulls (started fastSeagulls)
                                         (KeyDown "Space")))) = playing)
    by (vm_compute; reflexivity).
  destruct (@jump_lasts_37_ticks fastSeagulls _ 36 R P J S P36)
    as [A [B _]].
  destruct (@jump_lasts_37_ticks fastSeagulls _ 37 R P J S P37)
    as [_ [_ C]].
  destruct (C eq_refl) as [Jl [Yl _]].
  split; [exact R|]. split; [exact P|]. split; [exact J|]. split; [exact S|].
  split.
  - split; [exact P36|]. split; [apply A; lia | apply B; lia].
  - split; [exact P37|]. split; [exact Jl | exact Yl].
Defined.

Lemma no_overlap_while_playing_witness :
  @reachable slowSeagulls seagullLeaving /\
  gameState (rendered seagullLeaving) = playing /\
  checkCollision (obstacles (rendered seagullLeaving))
                 (crabY (rendered seagullLeaving))
                 (isSliding (rendered seagullLeaving)) = false.
Proof.
  assert (R := seagullLeaving_reachable).
  assert (P : gameState (rendered seagullLeaving) = playing)
    by (vm_compute; reflexivity).
  split; [exact R|]. split; [exact P|].
  exact (@no_overlap_while_playing slowSeagulls _ R P).
Defined.

Lemma high_score_is_the_stored_maximum_witness :
  @reachable slowRocks rockArrives /\
  gameState (rendered rockArrives) = playing /\
  gameState (rendered (@step slowRocks rockArrives AnimationFrame))
  = gameover /\
  highScore (rendered (@step slowRocks rockArrives AnimationFrame)) =
  Z.max (score (rendered (@step slowRocks rockArrives AnimationFrame)))
        (highScore (rendered rockArrives)).
Proof.
  assert (R := rockArrives_reachable).
  assert (P : gameState (rendered rockArrives) = playing)
    by (vm_compute; reflexivity).
  assert (O : gameState (rendered (@step slowRocks rockArrives AnimationFrame))
              = gameover) by (vm_compute; reflexivity).
  destruct (@high_score_is_the_stored_maximum slowRocks _ AnimationFrame R)
    as [_ [E _]].
  split; [exact R|]. split; [exact P|]. split; [exact O|].
  exact (proj1 (E (conj P O))).
Defined.

Lemma new_high_score_banner_witness :
  @reachable slowRocks rockArrives /\
  gameState (rendered rockArrives) = playing /\
  gameState (rendered (@step slowRocks rockArrives AnimationFrame))
  = gameover /\
  newHighScoreShown (rendered (@step slowRocks rockArrives AnimationFrame))
  = true.
Proof.
  assert (R := rockArrives_reachable).
  assert (P : gameState (rendered rockArrives) = playing)
    by (vm_compute; reflexivity).
  assert (O : gameState (rendered (@step slowRocks rockArrives AnimationFrame))
              = gameover) by (vm_compute; reflexivity).
  split; [exact R|]. split; [exact P|]. split; [exact O|].
  rewrite (@new_high_score_banner slowRocks _ AnimationFrame R P O).
  vm_compute. reflexivity.
Defined.


Lemma obstacles_keep_their_catalogue_geometry_witness :
  @reachable slowSeagulls seagullLeaving /\
  In (hd highSeagull (obstacles (rendered seagullLeaving)))
     (obstacles (rendered seagullLeaving)) /\
  placed (hd highSeagull (obstacles (rendered seagullLeaving))).
Proof.
  assert (R := seagullLeaving_reachable).
  assert (I : In (hd highSeagull (obstacles (rendered seagullLeaving)))
                 (obstacles (rendered seagullLeaving)))
    by (vm_compute; left; reflexivity).
  split; [exact R|]. split; [exact I|].
  exact (proj1 (@obstacles_keep_their_catalogue_geometry
                  slowSeagulls _ _ R I)).
Defined.

Lemma slide_clears_flyers_only_witness :
  @reachable slowSeagulls seagullLeaving /\
  In (hd highSeagull (obstacles (rendered seagullLeaving)))
     (obstacles (rendered seagullLeaving)) /\
  overlaps (Q2Qc 280) true
           (hd highSeagull (obstacles (rendered seagullLeaving))) = false.
Proof.
  assert (R := seagullLeaving_reachable).
  assert (I : In (hd highSeagull (obstacles (rendered seagullLeaving)))
                 (obstacles (rendered seagullLeaving)))
    by (vm_compute; left; reflexivity).
  assert (T : Obstacle.type
                (hd highSeagull (obstacles (rendered seagullLeaving)))
              = seagull) by (vm_compute; reflexivity).
  pose proof (@slide_clears_flyers_only slowSeagulls _ _ (Q2Qc 280) R I) as C.
  rewrite T in C.
  split; [exact R|]. split; [exact I | exact (proj1 C)].
Defined.

Lemma particle_opacity_in_range_witness :
  @reachable fastSeagulls (jumped fastSeagulls) /\
  In (hd spark (particles (rendered (jumped fastSeagulls))))
     (particles (rendered (jumped fastSeagulls))) /\
  Q2Qc 0 < particleOpacity
             (hd spark (particles (rendered (jumped fastSeagulls)))) /\
  particleOpacity (hd spark (particles (rendered (jumped fastSeagulls))))
  <= Q2Qc 1.
Proof.
  assert (R := jumped_reachable fastSeagulls).
  assert (I : In (hd spark (particles (rendered (jumped fastSeagulls))))
                 (particles (rendered (jumped fastSeagulls))))
    by (vm_compute; left; reflexivity).
  destruct (@particle_opacity_in_range fastSeagulls _ _ R I)
    as [_ [Lo Hi]].
  split; [exact R|]. split; [exact I|]. split; [exact Lo | exact Hi].
Defined.

Lemma particles_gone_after_50_ticks_witness :
  @reachable fastSeagulls (jumped fastSeagulls) /\
  Nat.iter 50 advanceParticles (particles (rendered (jumped fastSeagulls)))
  = [].
Proof.
  assert (R := jumped_reachable fastSeagulls).
  split; [exact R|].
  exact (@particles_gone_after_50_ticks fastSeagulls _ R).
Defined.

Lemma element_keys_are_unique_witness :
  @reachable slowSeagulls seagullLeaving /\
  NoDup (map Obstacle.id (obstacles (rendered seagullLeaving))) /\
  NoDup (map Particle.id (particles (rendered seagullLeaving))).
Proof.
  assert (R := seagullLeaving_reachable).
  destruct (@element_keys_are_unique slowSeagulls _ R) as [A [B _]].
  split; [exact R|]. split; [exact A | exact B].
Defined.

Lemma parallax_offset_in_range_witness :
  @reachable fastSeagulls (midAir fastSeagulls) /\
  Q2Qc 0 <= parallaxOffset (rendered (midAir fastSeagulls)) /\
  parallaxOffset (rendered (midAir fastSeagulls)) < Q2Qc 800.
Proof.
  assert (R := midAir_reachable fastSeagulls).
  destruct (@parallax_offset_in_range fastSeagulls _ R) as [Lo Hi].
  split; [exact R|]. split; [exact Lo | exact Hi].
Defined.

Lemma grid_shift_in_range_witness :
  @reachable fastSeagulls (midAir fastSeagulls) /\
  Q2Qc (-50) < gridShift (rendered (midAir fastSeagulls)) /\
  gridShift (rendered (midAir fastSeagulls)) <= Q2Qc 0.
Proof.
  assert (R := midAir_reachable fastSeagulls).
  destruct (@grid_shift_in_range fastSeagulls _ R) as [Lo Hi].
  split; [exact R|]. split; [exact Lo | exact Hi].
Defined.

Lemma slide_key_round_trip_witness :
  @reachable fastSeagulls (started fastSeagulls) /\
  gameState (rendered (started fastSeagulls)) = playing /\
  isJumping (rendered (started fastSeagulls)) = false /\
  isSliding (rendered (started fastSeagulls)) = false /\
  isCode "ArrowDown" ["ArrowDown"; "KeyS"] = true /\
  isSliding (rendered (@step fastSeagulls (started fastSeagulls)
                             (KeyDown "ArrowDown"))) = true /\
  @step fastSeagulls
        (@step fastSeagulls (started fastSeagulls) (KeyDown "ArrowDown"))
        (KeyUp "ArrowDown")
  = started fastSeagulls.
Proof.
  assert (R := started_reachable fastSeagulls).
  assert (P : gameState (rendered (started fastSeagulls)) = playing)
    by reflexivity.
  assert (J : isJumping (rendered (started fastSeagulls)) = false)
    by reflexivity.
  assert (S : isSliding (rendered (started fastSeagulls)) = false)
    by reflexivity.
  assert (K : isCode "ArrowDown" ["ArrowDown"; "KeyS"] = true)
    by reflexivity.
  destruct (@slide_key_round_trip fastSeagulls _ _ R P J S K) as [A [_ B]].
  split; [exact R|]. split; [exact P|]. split; [exact J|]. split; [exact S|].
  split; [exact K|]. split; [exact A | exact B].
Defined.

Lemma touch_slide_round_trip_witness :
  @reachable fastSeagulls (started fastSeagulls) /\
  gameState (rendered (started fastSeagulls)) = playing /\
  isJumping (rendered (started fastSeagulls)) = false /\
  isSliding (rendered (started fastSeagulls)) = false /\
  Q2Qc 400 / Q2Qc 2 <= Q2Qc 300 /\
  @step fastSeagulls
        (@step fastSeagulls (started fastSeagulls)
               (TouchStart (Q2Qc 300) (Q2Qc 400)))
        Timeout
  = started fastSeagulls.
Proof.
  assert (R := started_reachable fastSeagulls).
  assert (P : gameState (rendered (started fastSeagulls)) = playing)
    by reflexivity.
  assert (J : isJumping (rendered (started fastSeagulls)) = false)
    by reflexivity.
  assert (S : isSliding (rendered (started fastSeagulls)) = false)
    by reflexivity.
  assert (L : Q2Qc 400 / Q2Qc 2 <= Q2Qc 300) by (vm_compute; discriminate).
  destruct (@touch_slide_round_trip fastSeagulls _ _ _ R P J S L)
    as [_ [_ [_ B]]].
  split; [exact R|]. split; [exact P|]. split; [exact J|]. split; [exact S|].
  split; [exact L | exact B].
Defined.

Lemma other_keys_do_nothing_witness :
  @reachable fastSeagulls (started fastSeagulls) /\
  isCode "KeyA" ["Space"; "Enter"; "ArrowUp"; "KeyW"; "ArrowDown"; "KeyS"]
  = false /\
  gameState (rendered (started fastSeagulls)) = playing /\
  @step fastSeagulls (started fastSeagulls) (KeyDown "KeyA")
  = started fastSeagulls /\
  @step fastSeagulls (started fastSeagulls) (KeyDown "Enter")
  = started fastSeagulls.
Proof.
  assert (R := started_reachable fastSeagulls).
  assert (N : isCode "KeyA" ["Space"; "Enter"; "ArrowUp"; "KeyW";
                             "ArrowDown"; "KeyS"] = false) by reflexivity.
  assert (P : gameState (rendered (started fastSeagulls)) = playing)
    by reflexivity.
  destruct (@other_keys_do_nothing fastSeagulls _ "KeyA" R) as [A B].
  split; [exact R|]. split; [exact N|]. split; [exact P|].
  split; [exact (proj1 (A N)) | exact (proj1 (B P))].
Defined.

Lemma steady_frames_never_spawn_witness :
  (forall c k, (k <= 10)%nat ->
               (@dateNow fastSeagulls (c + k) - @dateNow fastSeagulls c
                <= 700)%Z) /\
  @reachable fastSeagulls (midAir fastSeagulls) /\
  obstacles (rendered (midAir fastSeagulls)) = [] /\
  gameState (rendered (midAir fastSeagulls)) <> gameover.
Proof.
  assert (T : forall c k, (k <= 10)%nat ->
                (@dateNow fastSeagulls (c + k) - @dateNow fastSeagulls c
                 <= 700)%Z).
  { intros c k K. cbn [dateNow fastSeagulls]. unfold fastClock. lia. }
  assert (R := midAir_reachable fastSeagulls).
  destruct (@steady_frames_never_spawn fastSeagulls T _ R) as [O G].
  split; [exact T|]. split; [exact R|]. split; [exact O | exact G].
Defined.

Lemma refused_requests_change_nothing_witness :
  @reachable fastSeagulls (jumped fastSeagulls) /\
  gameState (rendered (jumped fastSeagulls)) = playing /\
  isCode "Space" ["Space"; "ArrowUp"; "KeyW"] = true /\
  isJumping (rendered (jumped fastSeagulls)) = true /\
  @step fastSeagulls (jumped fastSeagulls) (KeyDown "Space")
  = jumped fastSeagulls.
Proof.
  assert (R := jumped_reachable fastSeagulls).
  assert (P : gameState (rendered (jumped fastSeagulls)) = playing)
    by (vm_compute; reflexivity).
  assert (K : isCode "Space" ["Space"; "ArrowUp"; "KeyW"] = true)
    by reflexivity.
  assert (J : isJumping (rendered (jumped fastSeagulls)) = true)
    by (vm_compute; reflexivity).
  destruct (@refused_requests_change_nothing fastSeagulls _ R P) as [A _].
  split; [exact R|]. split; [exact P|]. split; [exact K|]. split; [exact J|].
  exact (A "Space" K (or_introl J)).
Defined.

(** * Spawn timing *)

Section SpawnClock.

Context {browser : Browser}.

Lemma since_render g w : since g w -> since g (renderW w).
Proof.
  intros [c [[Lo Hi] E]]. unfold since, renderW.
  cbn [clockCalls lastObstacleTimeRef].
  destruct (rearmed w).
  - exists (clockCalls w). split; [lia|reflexivity].
  - exists c. split; [lia|exact E].
Qed.

Lemma since_handle g w ev :
  Inv w -> since g w -> since g (exec (handle ev) w).
Proof.
  intros V [c [[Lo Hi] E]].
  destruct (handle_cases ev V)
    as [A|[[_ [_ A]]|[[_ [_ [_ A]]]|[[b [tm [A _]]]|[_ [_ A]]]]]];
    rewrite A.
  - exists c. now split.
  - exists c. now split.
  - exists c. now split.
  - exists c. now split.
  - unfold since, tickW, consumed. cbn [clockCalls lastObstacleTimeRef].
    destruct (spawnDue _ _).
    + exists (clockCalls w). split; [lia|reflexivity].
    + exists c. split; [lia|exact E].
Qed.

Lemma since_step g w ev : Inv w -> since g w -> since g (step w ev).
Proof.
  intros V A. rewrite step_renders.
  now apply since_render, since_render, since_handle.
Qed.

Lemma since_run g evs : forall w, Inv w -> since g w -> since g (run evs w).
Proof.
  induction evs as [|ev evs IH]; intros w V A; [exact A|].
  cbn [run fold_left]. apply IH; [now apply step_Inv | now apply since_step].
Qed.

(** A tick moves [obstacleIdRef] exactly when it spawns. *)
Lemma tick_spawns w :
  Inv w -> gameState (rendered w) = playing ->
  obstacleIdRef (step w AnimationFrame) =
  if (dateNow (clockCalls w) - lastObstacleTimeRef w
        >? spawnIntervalMs (score (rendered w)))%Z
  then (obstacleIdRef w + 1)%Z else obstacleIdRef w.
Proof.
  intros V P. rewrite step_obstacleIdRef, (handle_frame_playing V P).
  unfold tickW, spawnDue, consumed, gameLoopOf.
  cbn [obstacleIdRef clockCalls lastObstacleTimeRef GameLoop.score].
  reflexivity.
Qed.

(** The tick that spawns records the time it read. *)
Lemma spawn_recorded w :
  Inv w -> gameState (rendered w) = playing ->
  obstacleIdRef (step w AnimationFrame) <> obstacleIdRef w ->
  since (clockCalls w) (step w AnimationFrame).
Proof.
  intros V P N. rewrite (tick_spawns V P) in N.
  destruct (_ >? _)%Z eqn:D; [|congruence].
  rewrite step_renders. apply since_render, since_render.
  rewrite (handle_frame_playing V P).
  unfold since, tickW, spawnDue, consumed, gameLoopOf.
  cbn [clockCalls lastObstacleTimeRef GameLoop.score]. rewrite D.
  exists (clockCalls w). split; [lia|reflexivity].
Qed.

(** C5. For a score [s] that is not negative the spawn interval is
    1500 - min(2s, 800) ms: it does not grow with the score, stays at or
    above 700, is never negative, and is 1300 at score 100.  A tick
    appends a new obstacle to the moved ones, and takes the next obstacle
    id, exactly when the time it reads exceeds [lastObstacleTimeRef] by
    more than the interval for the current score.  The ref is never older
    than the last spawn: on a clock that does not run backwards, whenever
    a tick spawns and a later tick of the run spawns again, whatever
    happened in between, the time read by the later tick exceeds the time
    read by the earlier one by more than the interval. *)
Theorem spawn_interval (s : Z) (Hs : (0 <= s)%Z)
        (w : World) (R : reachable w)
        (P : gameState (rendered w) = playing) :
  (spawnIntervalMs s = 1500 - Z.min (s * 2) 800 /\
   (forall s', s <= s' -> spawnIntervalMs s' <= spawnIntervalMs s) /\
   700 <= spawnIntervalMs s /\
   0 <= spawnIntervalMs s /\
   spawnIntervalMs 100 = 1300)%Z /\
  (let h := rendered w in
   let elapsed := (dateNow (clockCalls w) - lastObstacleTimeRef w)%Z in
   let moved := advanceObstacles (gameSpeed h) (obstacles h) in
   obstacles (rendered (step w AnimationFrame)) =
   (if (elapsed >? spawnIntervalMs (score h))%Z
    then moved ++ [spawned (randomCalls w) (obstacleIdRef w)]
    else moved) /\
   obstacleIdRef (step w AnimationFrame) =
   (if (elapsed >? spawnIntervalMs (score h))%Z
    then obstacleIdRef w + 1 else obstacleIdRef w)%Z) /\
  (forall evs,
     (forall a b, (a <= b)%nat -> (dateNow a <= dateNow b)%Z) ->
     let w1 := run evs (step w AnimationFrame) in
     obstacleIdRef (step w AnimationFrame) <> obstacleIdRef w ->
     gameState (rendered w1) = playing ->
     obstacleIdRef (step w1 AnimationFrame) <> obstacleIdRef w1 ->
     (dateNow (clockCalls w1) - dateNow (clockCalls w)
      > spawnIntervalMs (score (rendered w1)))%Z).
Proof.
  pose proof (reachable_Inv R) as V.
  split; [|split].
  - unfold spawnIntervalMs. repeat split; lia.
  - cbv zeta. split; [apply (tick_obstacles V P) | apply (tick_spawns V P)].
  - intros evs mono w1 N0 P1 N1.
    assert (V1 : Inv w1) by now apply run_Inv, step_Inv.
    assert (A : since (clockCalls w) w1).
    { apply since_run; [now apply step_Inv | now apply spawn_recorded]. }
    destruct A as [c [[Lo _] E]].
    rewrite (tick_spawns V1 P1) in N1.
    destruct (_ >? _)%Z eqn:D in N1; [|congruence].
    rewrite E in D. apply Z.gtb_lt in D.
    pose proof (mono _ _ Lo). lia.
Qed.

End SpawnClock.

Lemma spawn_interval_witness :
  (0 <= 100)%Z /\
  @reachable slowRocks (started slowRocks) /\
  gameState (rendered (started slowRocks)) = playing /\
  spawnIntervalMs 100 = 1300%Z /\
  obstacles (rendered (@step slowRocks (started slowRocks) AnimationFrame))
  = [@spawned slowRocks 0 0] /\
  (forall a b, (a <= b)%nat ->
               (@dateNow slowRocks a <= @dateNow slowRocks b)%Z) /\
  obstacleIdRef (@step slowRocks (started slowRocks) AnimationFrame)
  <> obstacleIdRef (started slowRocks) /\
  gameState
    (rendered
       (@run slowRocks []
             (@step slowRocks (started slowRocks) AnimationFrame)))
  = playing /\
  obstacleIdRef
    (@step slowRocks
           (@run slowRocks []
                 (@step slowRocks (started slowRocks) AnimationFrame))
           AnimationFrame)
  <> obstacleIdRef
       (@run slowRocks []
             (@step slowRocks (started slowRocks) AnimationFrame)) /\
  (@dateNow slowRocks
            (clockCalls
               (@run slowRocks []
                     (@step slowRocks (started slowRocks) AnimationFrame)))
   - @dateNow slowRocks (clockCalls (started slowRocks))
   > spawnIntervalMs
       (score
          (rendered
             (@run slowRocks []
                   (@step slowRocks (started slowRocks)
                          AnimationFrame)))))%Z.
Proof.
  assert (H : (0 <= 100)%Z) by lia.
  assert (R := started_reachable slowRocks).
  assert (P : gameState (rendered (started slowRocks)) = playing)
    by reflexivity.
  assert (M : forall a b, (a <= b)%nat ->
                (@dateNow slowRocks a <= @dateNow slowRocks b)%Z).
  { intros a b L. cbn [dateNow slowRocks]. unfold slowClock. lia. }
  assert (N0 : obstacleIdRef (@step slowRocks (started slowRocks)
                                    AnimationFrame)
               <> obstacleIdRef (started slowRocks))
    by (vm_compute; discriminate).
  assert (P1 : gameState
                 (rendered
                    (@run slowRocks []
                          (@step slowRocks (started slowRocks)
                                 AnimationFrame)))
               = playing)
    by (vm_compute; reflexivity).
  assert (N1 : obstacleIdRef
                 (@step slowRocks
                        (@run slowRocks []
                              (@step slowRocks (started slowRocks)
                                     AnimationFrame))
                        AnimationFrame)
               <> obstacleIdRef
                    (@run slowRocks []
                          (@step slowRocks (started slowRocks)
                                 AnimationFrame)))
    by (vm_compute; discriminate).
  destruct (@spawn_interval slowRocks 100 H _ R P)
    as [[_ [_ [_ [_ E]]]] [[O _] L]].
  split; [exact H|]. split; [exact R|]. split; [exact P|]. split; [exact E|].
  split; [rewrite O; vm_compute; reflexivity|].
  split; [exact M|]. split; [exact N0|]. split; [exact P1|].
  split; [exact N1|].
  exact (L [] M N0 P1 N1).
Defined.
